(** * Tulva: storage engine, peer registry and session initialisation

    A shallow embedding of the Go sources of the BitTorrent client:
    - the disk I/O layer ([checkHash], [Verify], [writePiece], [readBlock],
      [requestBlock]; [NewDiskIO], [openOrCreateFile] and [DiskIO.Init] over
      a model of package [os]),
    - the peer manager ([SortedPeers], [sortedPeersByQtyPiecesNeeded],
      [NewPeerInfo], [NewPeerManager], [NewPeer], the registration branch of
      [PeerManager.Run]),
    - [Torrent.Init] and the tables that [Torrent.Run] builds.

    Conventions.
    - Go's [int] is the 64-bit two's complement integer; it is a [Z] and the
      wrap-around is written out with [wrap_int] wherever the operands come
      from the metainfo.  Counters bounded by the amount of data held in
      memory or on disk (read counts, buffer positions) are left as they are.
    - A byte slice is a [list byte]; its capacity is taken equal to its
      length.
    - A run-time panic and [log.Fatal] (which exits the process) are explicit
      results, see [result].
    - Memory is taken to be there: [make] of a length that is not negative
      returns.  The runtime refuses a length above [maxAlloc]; a statement
      that promises an answer after an allocation assumes a length within
      it.
    - Logging does not influence any state and is left out; so are the
      channels and the tomb of each component, which only the [Run] loops
      use.
    - Names are the ones of the sources.  Where Rocq has one name space for
      what Go keeps apart, a field is renamed: [Stats_] is [Torrent.Stats],
      [dmetaInfo] is [DiskIO.metaInfo], [length_] is [BlockInfo.length],
      [rdata] is [BlockResponse.data], [FileEntry.Length] is the [Length] of
      an element of [Info.Files]. *)

From Stdlib Require Import ZArith Lia List.
From Stdlib.Strings Require Import Byte.
From stdpp Require Import base numbers list option strings gmap pretty sorting.

Set Warnings "-clear-no-such-hyp".

Open Scope Z_scope.

(** ** Bytes *)

#[global] Instance byte_eq_decision : EqDecision byte := byte_eq_dec.

Definition byte_to_Z (b : byte) : Z := Z.of_N (Byte.to_N b).

Definition byte_of_Z (z : Z) : byte :=
  match Byte.of_N (Z.to_N (z mod 256)) with
  | Some b => b
  | None => x00
  end.

(** ** crypto/sha1

    The digest function of the Go library, FIPS 180-4 section 6.1, on 32-bit
    words held in [Z]. *)

Module SHA1.

Definition w32 (x : Z) : Z := x mod 2 ^ 32.

Definition add32 (x y : Z) : Z := w32 (x + y).

Definition rotl (n x : Z) : Z :=
  w32 (Z.lor (Z.shiftl x n) (Z.shiftr x (32 - n))).

Definition not32 (x : Z) : Z := Z.lxor x (2 ^ 32 - 1).

Definition Ch (x y z : Z) : Z := Z.lor (Z.land x y) (Z.land (not32 x) z).
Definition Parity (x y z : Z) : Z := Z.lxor (Z.lxor x y) z.
Definition Maj (x y z : Z) : Z :=
  Z.lor (Z.lor (Z.land x y) (Z.land x z)) (Z.land y z).

Definition f (t : nat) (x y z : Z) : Z :=
  if (t <? 20)%nat then Ch x y z
  else if (t <? 40)%nat then Parity x y z
  else if (t <? 60)%nat then Maj x y z
  else Parity x y z.

Definition K (t : nat) : Z :=
  if (t <? 20)%nat then 0x5A827999
  else if (t <? 40)%nat then 0x6ED9EBA1
  else if (t <? 60)%nat then 0x8F1BBCDC
  else 0xCA62C1D6.

(** Big-endian encoding of the low [8 * n] bits of [x] on [n] bytes. *)
Fixpoint be_bytes (n : nat) (x : Z) : list Z :=
  match n with
  | O => []
  | S n' => (Z.shiftr x (8 * Z.of_nat n')) mod 256 :: be_bytes n' x
  end.

(** The message followed by the bit 1, zeros up to 56 modulo 64 bytes, and
    the bit length on 8 bytes. *)
Definition pad (msg : list Z) : list Z :=
  let l := Z.of_nat (length msg) in
  let zeros := Z.to_nat ((55 - l) mod 64) in
  msg ++ 0x80 :: replicate zeros 0 ++ be_bytes 8 (8 * l).

Fixpoint be_words (fuel : nat) (bs : list Z) : list Z :=
  match fuel, bs with
  | S fuel', b0 :: b1 :: b2 :: b3 :: rest =>
      (Z.shiftl b0 24 + Z.shiftl b1 16 + Z.shiftl b2 8 + b3)
        :: be_words fuel' rest
  | _, _ => []
  end.

(** The message schedule: sixteen words of the block, extended to eighty. *)
Fixpoint extend (n : nat) (ws : list Z) : list Z :=
  match n with
  | O => ws
  | S n' =>
      let t := length ws in
      let w i := nth (t - i) ws 0 in
      extend n' (ws ++ [rotl 1 (Z.lxor (Z.lxor (Z.lxor (w 3%nat) (w 8%nat))
                                                (w 14%nat)) (w 16%nat))])
  end.

Definition state : Type := Z * Z * Z * Z * Z.

Definition round (s : state) (tw : nat * Z) : state :=
  let '(a, b, c, d, e) := s in
  let '(t, w) := tw in
  let tmp := add32 (add32 (add32 (add32 (rotl 5 a) (f t b c d)) e) (K t)) w in
  (tmp, a, rotl 30 b, c, d).

Definition block (h : state) (ws16 : list Z) : state :=
  let ws := extend 64 ws16 in
  let '(a, b, c, d, e) := fold_left round (combine (seq 0 80) ws) h in
  let '(h0, h1, h2, h3, h4) := h in
  (add32 h0 a, add32 h1 b, add32 h2 c, add32 h3 d, add32 h4 e).

Fixpoint blocks (fuel : nat) (h : state) (ws : list Z) : state :=
  match fuel with
  | O => h
  | S fuel' =>
      match ws with
      | [] => h
      | _ => blocks fuel' (block h (take 16 ws)) (drop 16 ws)
      end
  end.

Definition init : state :=
  (0x67452301, 0xEFCDAB89, 0x98BADCFE, 0x10325476, 0xC3D2E1F0).

Definition Size : nat := 20.

(** [h := sha1.New(); h.Write(msg); h.Sum(nil)] *)
Definition Sum (msg : list byte) : list byte :=
  let padded := pad (byte_to_Z <$> msg) in
  let ws := be_words (length padded) padded in
  let '(h0, h1, h2, h3, h4) := blocks (length ws) init ws in
  byte_of_Z <$> (be_bytes 4 h0 ++ be_bytes 4 h1 ++ be_bytes 4 h2
                   ++ be_bytes 4 h3 ++ be_bytes 4 h4).

End SHA1.

Definition hex_bytes (zs : list Z) : list byte := byte_of_Z <$> zs.

(** ** Go's int *)

Definition int_min : Z := - 2 ^ 63.
Definition int_max : Z := 2 ^ 63 - 1.

Definition wrap_int (z : Z) : Z := (z + 2 ^ 63) mod 2 ^ 64 - 2 ^ 63.

Definition in_int (z : Z) : Prop := int_min <= z <= int_max.

(** ** How a call ends

    A call returns, panics (a run-time error of the Go runtime) or ends the
    process through [log.Fatal]. *)

Inductive panic : Type :=
| IndexOutOfRange
| SliceBoundsOutOfRange
| MakeSliceLenOutOfRange
| AssignmentToNilMap.

Inductive error : Type :=
| EOF
| ErrUnexpectedEOF
| ErrNegativeOffset
| EBADF
| EIO.

Inductive result (A : Type) : Type :=
| Ret (a : A)
| Panic (p : panic)
| Fatal (e : error).

Arguments Ret {A} a.
Arguments Panic {A} p.
Arguments Fatal {A} e.

#[global] Instance panic_eq_dec : EqDecision panic.
Proof. solve_decision. Defined.
#[global] Instance error_eq_dec : EqDecision error.
Proof. solve_decision. Defined.
#[global] Instance result_eq_dec `{EqDecision A} : EqDecision (result A).
Proof. solve_decision. Defined.

#[global] Instance result_bind : MBind result := fun A B k r =>
  match r with
  | Ret a => k a
  | Panic p => Panic p
  | Fatal e => Fatal e
  end.

(** The process is gone: nothing can be reported to anyone afterwards. *)
Definition terminates_process {A} (r : result A) : bool :=
  match r with Ret _ => false | Panic _ | Fatal _ => true end.

(** [s[lo:hi]] on a string or a slice whose capacity is its length. *)
Definition slice {A} (s : list A) (lo hi : Z) : result (list A) :=
  if decide (0 <= lo /\ lo <= hi /\ hi <= Z.of_nat (length s))
  then Ret (take (Z.to_nat (hi - lo)) (drop (Z.to_nat lo) s))
  else Panic SliceBoundsOutOfRange.

(** [make([]T, n)] with the zero value [z]. *)
Definition make_slice {A} (z : A) (n : Z) : result (list A) :=
  if decide (0 <= n) then Ret (replicate (Z.to_nat n) z)
  else Panic MakeSliceLenOutOfRange.

(** The runtime also refuses, with the same panic, a length for which the
    slice would take more than [maxAlloc] bytes, 2^48 on the 64-bit
    platforms; an element of the slices made here takes one byte.
    [make_slice] leaves this limit out and takes the memory to be there.  A
    statement that promises an answer from a call that allocates has the
    limit as a hypothesis. *)
Definition maxAlloc : Z := 2 ^ 48.

(** ** Metainfo (torrent.go) *)

Module FileEntry.
(** An element of [MetaInfo.Info.Files]. *)
Record t : Type := mk {
  Length : Z;
  Md5sum : string;
  Path : list string
}.
End FileEntry.

Record InfoDict : Type := {
  PieceLength : Z;
  Pieces : list byte;
  Private : Z;
  Name : string;
  Length : Z;
  Md5sum : string;
  Files : list FileEntry.t
}.

Record MetaInfo : Type := {
  Info : InfoDict;
  Announce : string;
  AnnounceList : list (list string);
  CreationDate : Z;
  Comment : string;
  CreatedBy : string;
  Encoding : string
}.

Record Stats : Type := {
  Left : Z;
  Uploaded : Z;
  Downloaded : Z
}.

Record Torrent : Type := {
  metaInfo : MetaInfo;
  infoHash : list byte;
  Stats_ : Stats
}.

(** ** os.File

    An open file: its bytes, the position used by sequential reads, whether
    the handle was opened for writing ([os.Create]) or only for reading
    ([os.Open]), and whether the device fails every transfer. *)

Record File : Type := {
  bytes : list byte;
  pos : nat;
  writable : bool;
  faulty : bool
}.

(** [n, err = f.ReadAt(b, off)] with [len(b) = len]; the bytes read are
    returned, [n] is their number.  Nothing is transferred for an empty
    [b]. *)
Definition ReadAt (f : File) (len : nat) (off : nat) : list byte * option error :=
  if decide (len = 0%nat) then ([], None)
  else if faulty f then ([], Some EIO)
  else
    let bs := take len (drop off (bytes f)) in
    (bs, if (length bs <? len)%nat then Some EOF else None).

(** The bytes of a file after [b] is stored at [off]; a gap is zero filled. *)
Definition overwrite (old : list byte) (off : nat) (b : list byte) : list byte :=
  match b with
  | [] => old
  | _ => take off (old ++ replicate (off - length old) x00)
           ++ b ++ drop (off + length b) old
  end.

(** [n, err = f.WriteAt(b, off)]; nothing is transferred for an empty [b]. *)
Definition WriteAt (f : File) (b : list byte) (off : Z) : File * nat * option error :=
  if decide (off < 0) then (f, 0%nat, Some ErrNegativeOffset)
  else if decide (b = []) then (f, 0%nat, None)
  else if negb (writable f) then (f, 0%nat, Some EBADF)
  else if faulty f then (f, 0%nat, Some EIO)
  else ({| bytes := overwrite (bytes f) (Z.to_nat off) b; pos := pos f;
           writable := writable f; faulty := faulty f |},
        length b, None).

(** [n, err = io.ReadFull(f, b)] with [len(b) = len]: reads at the position of
    the handle and advances it. *)
Definition ReadFull (f : File) (len : nat) : File * list byte * option error :=
  if decide (len = 0%nat) then (f, [], None)
  else if faulty f then (f, [], Some EIO)
  else
    let bs := take len (drop (pos f) (bytes f)) in
    let f' := {| bytes := bytes f; pos := (pos f + length bs)%nat;
                 writable := writable f; faulty := faulty f |} in
    (f', bs,
     if decide (length bs = len) then None
     else if decide (length bs = 0%nat) then Some EOF
     else Some ErrUnexpectedEOF).

(** ** DiskIO *)

Record DiskIO : Type := {
  dmetaInfo : MetaInfo;
  files : list File
}.

(** The string [Pieces] is sliced at [pieceIndex], which is a byte offset: the
    callers advance it by 20 for each piece.  A Go string is never longer
    than [int_max], so the sum below is out of the string's bounds exactly
    when the machine addition would overflow. *)
Definition checkHash (diskio : DiskIO) (buf : list byte) (pieceIndex : Z) : result bool :=
  let h := SHA1.Sum buf in
  digest ← slice (Pieces (Info (dmetaInfo diskio))) pieceIndex
                 (pieceIndex + Z.of_nat SHA1.Size);
  if bool_decide (h = digest) then Ret true else Ret false.

(** *** Verify

    The two read loops have no bound of their own: they are given [fuel], one
    unit per iteration, and [None] is the answer of a loop that is still
    running when the fuel is spent. *)

(** The buffer after [bs] was read into [buf[m:]]. *)
Definition fill (buf : list byte) (m : nat) (bs : list byte) : list byte :=
  take m buf ++ bs ++ drop (m + length bs) buf.

(** State kept across the loops: the buffer, the partial read counter ([m] in
    multiple file mode, the last [n] in single file mode), the offset in
    [Pieces] and the results so far. *)
Definition verify_state : Type := list byte * nat * Z * list bool.

(** The loop over one file in multiple file mode. *)
Fixpoint Verify_multi_file (fuel : nat) (diskio : DiskIO) (file : File)
    (buf : list byte) (m : nat) (pieceIndex : Z) (offset : nat)
    (finishedPieces : list bool) : option (result verify_state) :=
  match fuel with
  | O => None
  | S fuel' =>
      if decide (length buf < m)%nat then Some (Panic SliceBoundsOutOfRange)
      else
        let '(bs, err) := ReadAt file (length buf - m) offset in
        let n := length bs in
        let buf := fill buf m bs in
        match err with
        | Some EOF => Some (Ret (buf, (m + n)%nat, pieceIndex, finishedPieces))
        | Some e => Some (Fatal e)
        | None =>
            match checkHash diskio buf pieceIndex with
            | Ret ok =>
                Verify_multi_file fuel' diskio file buf 0%nat (pieceIndex + 20)
                  (offset + n)%nat (finishedPieces ++ [ok])
            | Panic p => Some (Panic p)
            | Fatal e => Some (Fatal e)
            end
        end
  end.

(** The loop over the indices [i] of [Info.Files]. *)
Fixpoint Verify_multi (fuel : nat) (diskio : DiskIO) (idxs : list nat)
    (buf : list byte) (m : nat) (pieceIndex : Z)
    (finishedPieces : list bool) : option (result verify_state) :=
  match idxs with
  | [] => Some (Ret (buf, m, pieceIndex, finishedPieces))
  | i :: idxs' =>
      match files diskio !! i with
      | None => Some (Panic IndexOutOfRange)
      | Some file =>
          match Verify_multi_file fuel diskio file buf m pieceIndex 0%nat
                  finishedPieces with
          | Some (Ret (buf, m, pieceIndex, finishedPieces)) =>
              Verify_multi fuel diskio idxs' buf m pieceIndex finishedPieces
          | other => other
          end
      end
  end.

(** The loop of single file mode. *)
Fixpoint Verify_single (fuel : nat) (diskio : DiskIO) (buf : list byte)
    (pieceIndex : Z) (offset : nat) (finishedPieces : list bool)
    : option (result verify_state) :=
  match fuel with
  | O => None
  | S fuel' =>
      match files diskio !! 0%nat with
      | None => Some (Panic IndexOutOfRange)
      | Some file =>
          let '(bs, err) := ReadAt file (length buf) offset in
          let n := length bs in
          let buf := fill buf 0%nat bs in
          match err with
          | Some EOF => Some (Ret (buf, n, pieceIndex, finishedPieces))
          | Some e => Some (Fatal e)
          | None =>
              match checkHash diskio buf pieceIndex with
              | Ret ok =>
                  Verify_single fuel' diskio buf (pieceIndex + 20)
                    (offset + n)%nat (finishedPieces ++ [ok])
              | Panic p => Some (Panic p)
              | Fatal e => Some (Fatal e)
              end
          end
      end
  end.

(** The check of the final partial read, [buf[:k]] with [k] the counter. *)
Definition Verify_tail (diskio : DiskIO) (st : verify_state) : result (list bool) :=
  let '(buf, k, pieceIndex, finishedPieces) := st in
  if decide (0 < k)%nat then
    part ← slice buf 0 (Z.of_nat k);
    ok ← checkHash diskio part pieceIndex;
    Ret (finishedPieces ++ [ok])
  else Ret finishedPieces.

Definition Verify (fuel : nat) (diskio : DiskIO) : option (result (list bool)) :=
  let info_ := Info (dmetaInfo diskio) in
  match make_slice x00 (PieceLength info_) with
  | Ret buf =>
      let loop :=
        if decide (0 < length (Files info_))%nat
        then Verify_multi fuel diskio (seq 0 (length (Files info_))) buf 0%nat 0 []
        else Verify_single fuel diskio buf 0 0%nat [] in
      match loop with
      | Some (Ret st) => Some (Verify_tail diskio st)
      | Some (Panic p) => Some (Panic p)
      | Some (Fatal e) => Some (Fatal e)
      | None => None
      end
  | Panic p => Some (Panic p)
  | Fatal e => Some (Fatal e)
  end.

(** *** Pieces and blocks *)

(** Modelled from the spec: the declarations of [Piece], [BlockInfo] and
    [BlockResponse] are not in the sources at hand; the fields are the ones
    the disk I/O code reads and writes ([piece.index], [piece.data],
    [piece.peerName]; [block.pieceIndex], [block.begin], [block.length], the
    spec's piece index, intra-piece byte offset and length;
    [response.info], [response.data]).  [piece.index] is an [int], the block
    fields are unsigned on the wire. *)
Record Piece : Type := {
  index : Z;
  data : list byte;
  peerName : string
}.

Record BlockInfo : Type := {
  pieceIndex : Z;
  begin : Z;
  length_ : Z
}.

Record BlockResponse : Type := {
  info : BlockInfo;
  rdata : list byte
}.

Definition with_files (diskio : DiskIO) (fs : list File) : DiskIO :=
  {| dmetaInfo := dmetaInfo diskio; files := fs |}.

(** *** writePiece

    The loop [for i := 0; i <= len(Files); i++] runs over [idxs]; [pdata] is
    [piece.data]. *)

Fixpoint writePiece_loop (diskio : DiskIO) (idxs : list nat)
    (pdata : list byte) (offset : Z) : DiskIO * result unit :=
  match idxs with
  | [] => (diskio, Ret ())
  | i :: idxs' =>
      match Files (Info (dmetaInfo diskio)) !! i with
      | None => (diskio, Panic IndexOutOfRange)
      | Some fe =>
          if decide (offset > FileEntry.Length fe) then
            writePiece_loop diskio idxs' pdata
              (wrap_int (offset - FileEntry.Length fe))
          else
            let max := wrap_int (FileEntry.Length fe - offset) in
            match files diskio !! i with
            | None => (diskio, Panic IndexOutOfRange)
            | Some file =>
                match slice pdata 0 max with
                | Ret chunk =>
                    let '(file', n, err) := WriteAt file chunk offset in
                    let diskio' := with_files diskio (<[i := file']> (files diskio)) in
                    match err with
                    | Some e => (diskio', Fatal e)
                    | None =>
                        let pdata' := drop (Z.to_nat max) pdata in
                        if decide (length pdata' = 0%nat) then (diskio', Ret ())
                        else writePiece_loop diskio' idxs' pdata' 0
                    end
                | Panic p => (diskio, Panic p)
                | Fatal e => (diskio, Fatal e)
                end
            end
      end
  end.

Definition writePiece (diskio : DiskIO) (piece : Piece) : DiskIO * result unit :=
  let info_ := Info (dmetaInfo diskio) in
  let offset := wrap_int (index piece * PieceLength info_) in
  writePiece_loop diskio (seq 0 (S (length (Files info_)))) (data piece) offset.

(** *** readBlock and requestBlock *)

Definition readBlock (file : File) (block : BlockInfo) : File * result (list byte) :=
  match make_slice x00 (length_ block) with
  | Ret blockData =>
      let '(file', bs, err) := ReadFull file (length blockData) in
      match err with
      | Some e => (file', Fatal e)
      | None => (file', Ret (fill blockData 0%nat bs))
      end
  | Panic p => (file, Panic p)
  | Fatal e => (file, Fatal e)
  end.

(** [readBlock(diskio.files[i], block)] *)
Definition readBlock_at (diskio : DiskIO) (i : nat) (block : BlockInfo)
    : DiskIO * result (list byte) :=
  match files diskio !! i with
  | None => (diskio, Panic IndexOutOfRange)
  | Some file =>
      let '(file', r) := readBlock file block in
      (with_files diskio (<[i := file']> (files diskio)), r)
  end.

(** The loop of multiple file mode; [rdata] is [response.data]. *)
Fixpoint requestBlock_loop (diskio : DiskIO) (idxs : list nat)
    (block : BlockInfo) (offset : Z) (rdata : list byte)
    : DiskIO * result (list byte) :=
  match idxs with
  | [] => (diskio, Ret rdata)
  | i :: idxs' =>
      match Files (Info (dmetaInfo diskio)) !! i with
      | None => (diskio, Panic IndexOutOfRange)
      | Some fe =>
          if decide (offset > FileEntry.Length fe) then
            requestBlock_loop diskio idxs' block
              (wrap_int (offset - FileEntry.Length fe)) rdata
          else
            match readBlock_at diskio i block with
            | (diskio', Ret bs) => requestBlock_loop diskio' idxs' block offset bs
            | (diskio', Panic p) => (diskio', Panic p)
            | (diskio', Fatal e) => (diskio', Fatal e)
            end
      end
  end.

Definition requestBlock (diskio : DiskIO) (block : BlockInfo)
    : DiskIO * result BlockResponse :=
  let info_ := Info (dmetaInfo diskio) in
  let offset := wrap_int (pieceIndex block * PieceLength info_) in
  let '(diskio', r) :=
    if decide (length (Files info_) = 0%nat)
    then readBlock_at diskio 0%nat block
    else requestBlock_loop diskio (seq 0 (S (length (Files info_)))) block offset [] in
  (diskio', bs ← r; Ret {| info := block; rdata := bs |}).

(** ** Peer manager *)

(** A channel value: nil, or a channel made by [make]. *)
Inductive chan : Type := chan_nil | chan_made.

Record PeerInfo : Type := {
  peerId : string;
  isChoked : bool;
  availablePieces : list bool;
  activeRequests : gset Z;
  qtyPiecesNeeded : Z;
  requestPieceCh : chan;
  cancelPieceCh : chan;
  havePieceCh : chan
}.

#[global] Instance chan_eq_dec : EqDecision chan.
Proof. solve_decision. Defined.
#[global] Instance PeerInfo_eq_dec : EqDecision PeerInfo.
Proof. solve_decision. Defined.

Abbreviation SortedPeers := (list PeerInfo).

Definition Less (sp : SortedPeers) (i j : nat) : result bool :=
  match sp !! i, sp !! j with
  | Some a, Some b => Ret (bool_decide (qtyPiecesNeeded a <= qtyPiecesNeeded b))
  | _, _ => Panic IndexOutOfRange
  end.

Definition Swap (sp : SortedPeers) (i j : nat) : result SortedPeers :=
  match sp !! i, sp !! j with
  | Some tmp, Some b => Ret (<[j := tmp]> (<[i := b]> sp))
  | _, _ => Panic IndexOutOfRange
  end.

Definition Len (sp : SortedPeers) : nat := length sp.

(** *** sort.Sort

    The library procedure sees the slice only through [Len], [Less] and
    [Swap]: whatever it does, the slice it leaves is reached by a sequence of
    calls of [Swap]. *)
Inductive swaps : SortedPeers -> SortedPeers -> Prop :=
| swaps_nil sp : swaps sp sp
| swaps_cons sp i j sp' sp'' :
    Swap sp i j = Ret sp' -> swaps sp' sp'' -> swaps sp sp''.

Definition sorts_by_swapping (sort_Sort : SortedPeers -> result SortedPeers) : Prop :=
  forall sp, exists sp', sort_Sort sp = Ret sp' /\ swaps sp sp'.

(** What [sort.Sort] runs on a short slice (and on every short range it
    recurses into): the library's insertion sort,
    [for i := a + 1; i < b; i++ { for j := i; j > a && data.Less(j, j-1); j-- { data.Swap(j, j-1) } }]. *)
Fixpoint insertionSort_inner (sp : SortedPeers) (j : nat) : result SortedPeers :=
  match j with
  | O => Ret sp
  | S j' =>
      lt ← Less sp j j';
      if (lt : bool) then sp' ← Swap sp j j'; insertionSort_inner sp' j'
      else Ret sp
  end.

Definition insertionSort (sp : SortedPeers) : result SortedPeers :=
  foldl (fun acc i => sp' ← acc; insertionSort_inner sp' i) (Ret sp)
        (seq 1 (Len sp - 1)).

(** *** sortedPeersByQtyPiecesNeeded

    [range] over a Go map yields every entry once, in an order the runtime
    chooses; [order] is that sequence. *)
Definition range_order (peers : gmap string PeerInfo)
    (order : list (string * PeerInfo)) : Prop :=
  order ≡ₚ map_to_list peers.

Definition sortedPeersByQtyPiecesNeeded
    (sort_Sort : SortedPeers -> result SortedPeers)
    (order : list (string * PeerInfo)) : result SortedPeers :=
  let peerInfoSlice := foldl (fun acc kv => acc ++ [kv.2]) [] order in
  sort_Sort peerInfoSlice.

(** *** NewPeerInfo

    [new(PeerInfo)] is the zero value; the two fields and the two channels
    assigned afterwards are the only ones that change. *)
Definition PeerInfo_zero : PeerInfo :=
  {| peerId := ""; isChoked := false; availablePieces := [];
     activeRequests := ∅; qtyPiecesNeeded := 0;
     requestPieceCh := chan_nil; cancelPieceCh := chan_nil;
     havePieceCh := chan_nil |}.

Definition NewPeerInfo (quantityOfPieces : Z) : result PeerInfo :=
  let pi := PeerInfo_zero in
  pieces ← make_slice false quantityOfPieces;
  Ret {| peerId := peerId pi; isChoked := isChoked pi;
         availablePieces := pieces;
         activeRequests := ∅;
         qtyPiecesNeeded := qtyPiecesNeeded pi;
         requestPieceCh := chan_made;
         cancelPieceCh := chan_made;
         havePieceCh := havePieceCh pi |}.

(** *** Peers and their registration *)

Record PeerTuple : Type := {
  IP : list byte;
  Port : N
}.

(** [conn] is nil or a connection. *)
Record Peer : Type := {
  peer : PeerTuple;
  conn : option nat
}.

(** The map holds pointers: [store] is the memory they point into, a pointer
    is an index of it.  A map that was never made is nil ([None]). *)
Record PeerManager : Type := {
  peers : option (gmap string nat);
  store : list Peer
}.

Definition NewPeerManager : PeerManager :=
  {| peers := Some ∅; store := [] |}.

(** [new(Peer)]: the tuple is only printed, the new value keeps its zero
    fields. *)
Definition NewPeer (mem : list Peer) (peerTuple : PeerTuple) : nat * list Peer :=
  (length mem, mem ++ [{| peer := {| IP := []; Port := 0%N |}; conn := None |}]).

Section Registration.

(** [net.IP.String], the textual form of an address. *)
Variable IP_String : list byte -> string.

(** [fmt.Sprintf("%s:%d", peer.IP.String(), peer.Port)] *)
Definition peerID_of (p : PeerTuple) : string :=
  IP_String (IP p) +:+ ":" +:+ pretty (Port p).

(** The branch [case peer := <-pm.peersCh] of [PeerManager.Run]. *)
Definition Run_peersCh (pm : PeerManager) (p : PeerTuple) : result PeerManager :=
  let peerID := peerID_of p in
  match peers pm with
  | None => Panic AssignmentToNilMap
  | Some m =>
      match m !! peerID with
      | Some _ => Ret pm
      | None =>
          let '(ptr, mem) := NewPeer (store pm) p in
          Ret {| peers := Some (<[peerID := ptr]> m); store := mem |}
      end
  end.

(** The same branch taken for each tuple of a sequence of deliveries. *)
Definition Run_deliveries (pm : PeerManager) (ps : list PeerTuple) : result PeerManager :=
  foldl (fun acc p => pm' ← acc; Run_peersCh pm' p) (Ret pm) ps.

End Registration.

(** ** Torrent.Init *)

Definition Init (t : Torrent) : Torrent :=
  let info_ := Info (metaInfo t) in
  let stats := Stats_ t in
  let left :=
    if decide (0 < length (Files info_))%nat then
      foldl (fun left file => wrap_int (left + FileEntry.Length file))
            (Left stats) (Files info_)
    else Length info_ in
  {| metaInfo := metaInfo t; infoHash := infoHash t;
     Stats_ := {| Left := left; Uploaded := Uploaded stats;
                  Downloaded := Downloaded stats |} |}.

(** [totalLength] as [Torrent.Run] computes it. *)
Definition Run_totalLength (t : Torrent) : Z :=
  let info_ := Info (metaInfo t) in
  if decide (Length info_ ≠ 0) then Length info_
  else foldl (fun total file => wrap_int (total + FileEntry.Length file))
             0 (Files info_).

(** The sum of the lengths of the files of a torrent. *)
Definition files_length (fs : list FileEntry.t) : Z :=
  foldr (fun file total => FileEntry.Length file + total) 0 fs.

(** The total content length: the sum of the lengths of the files in
    multiple file mode, the declared length otherwise. *)
Definition total_length (m : MetaInfo) : Z :=
  match Files (Info m) with
  | [] => Length (Info m)
  | fs => files_length fs
  end.

(** Modelled from the spec: the lengths of the pieces of a content of [total]
    bytes, every piece of [pl] bytes except a shorter last one; the sources
    at hand hold no code that decrements [Stats.Left]. *)
Definition piece_lengths (total pl : Z) : list Z :=
  replicate (Z.to_nat (total / pl)) pl
    ++ (if decide (0 < total mod pl) then [total mod pl] else []).

(** The number of pieces of a torrent and the digest recorded for piece [p],
    the [p]-th entry of twenty bytes of [Pieces]. *)
Definition piece_count (m : MetaInfo) : nat := (length (Pieces (Info m)) / 20)%nat.

Definition recorded_digest (m : MetaInfo) (p : nat) : list byte :=
  take 20 (drop (20 * p) (Pieces (Info m))).

(** The handles that [Verify] reads: the first one in single file mode, one
    for each entry of [Files] otherwise; the bytes they hold, one file after
    the other; and the number of these bytes. *)
Definition read_files (diskio : DiskIO) : list File :=
  take (Nat.max 1 (length (Files (Info (dmetaInfo diskio))))) (files diskio).

Definition stream_of (fs : list File) : list byte := concat (bytes <$> fs).

Definition stream (diskio : DiskIO) : list byte := stream_of (read_files diskio).

Definition on_disk (diskio : DiskIO) : nat := length (stream diskio).

(** The number of chunks of [pl] bytes in [n] bytes, a shorter last one
    included; the [k]-th chunk of a sequence of bytes; whether it has the
    digest recorded for piece [k]; and these answers for the first [n]
    chunks. *)
Definition chunk_count (n pl : nat) : nat :=
  (n / pl + (if decide (0 < n mod pl) then 1 else 0))%nat.

Definition chunk (pl : nat) (s : list byte) (k : nat) : list byte :=
  take pl (drop (k * pl) s).

Definition chunk_ok (diskio : DiskIO) (pl : nat) (s : list byte) (k : nat) : bool :=
  bool_decide (SHA1.Sum (chunk pl s k) = recorded_digest (dmetaInfo diskio) k).

Definition checked (diskio : DiskIO) (pl : nat) (s : list byte) (n : nat) : list bool :=
  chunk_ok diskio pl s <$> seq 0 n.

(** The bytes read since the last full chunk are at the front of the buffer. *)
Definition pending (pl : nat) (s buf : list byte) : Prop :=
  take (length s mod pl) buf = drop (length s / pl * pl) s.

(** ** Concrete torrents

    Two pieces of sixteen bytes, laid out either as one file of 32 bytes or
    as the files A (10 bytes) and B (22 bytes). *)

Definition mkMeta (pl : Z) (ps : list byte) (len : Z) (fs : list FileEntry.t) : MetaInfo :=
  {| Info := {| PieceLength := pl; Pieces := ps; Private := 0; Name := "t";
                Length := len; Md5sum := ""; Files := fs |};
     Announce := ""; AnnounceList := []; CreationDate := 0; Comment := "";
     CreatedBy := ""; Encoding := "" |}.

(** A handle as [os.Create] returns it, holding [bs]. *)
Definition created (bs : list byte) : File :=
  {| bytes := bs; pos := 0; writable := true; faulty := false |}.

(** A handle as [os.Open] returns it: read only. *)
Definition opened (bs : list byte) : File :=
  {| bytes := bs; pos := 0; writable := false; faulty := false |}.

Definition piece0 : list byte := hex_bytes (Z.of_nat <$> seq 1 16).
Definition piece1 : list byte := hex_bytes (Z.of_nat <$> seq 17 16).
Definition two_hashes : list byte := SHA1.Sum piece0 ++ SHA1.Sum piece1.

Definition fileA : FileEntry.t := FileEntry.mk 10 "" ["A"%string].
Definition fileB : FileEntry.t := FileEntry.mk 22 "" ["B"%string].

Definition meta_single : MetaInfo := mkMeta 16 two_hashes 32 [].
Definition meta_multi : MetaInfo := mkMeta 16 two_hashes 0 [fileA; fileB].

(** Nothing downloaded yet: the files were just created. *)
Definition single_fresh : DiskIO :=
  {| dmetaInfo := meta_single; files := [created []] |}.
Definition multi_fresh : DiskIO :=
  {| dmetaInfo := meta_multi; files := [created []; created []] |}.

(** Everything on disk. *)
Definition single_full : DiskIO :=
  {| dmetaInfo := meta_single; files := [created (piece0 ++ piece1)] |}.
Definition multi_full : DiskIO :=
  {| dmetaInfo := meta_multi;
     files := [created (take 10 piece0); created (drop 10 piece0 ++ piece1)] |}.

(** The files exist already, so that they are opened read only. *)
Definition multi_reopened : DiskIO :=
  {| dmetaInfo := meta_multi;
     files := [opened (take 10 piece0); opened (drop 10 piece0 ++ piece1)] |}.

(** File A holds the first five of its ten bytes, file B is complete. *)
Definition multi_short : DiskIO :=
  {| dmetaInfo := meta_multi;
     files := [created (take 5 piece0); created (drop 10 piece0 ++ piece1)] |}.

Definition torrent_of (m : MetaInfo) : Torrent :=
  {| metaInfo := m; infoHash := [];
     Stats_ := {| Left := 0; Uploaded := 0; Downloaded := 0 |} |}.

Definition a_tuple : PeerTuple :=
  {| IP := hex_bytes [192; 168; 0; 7]; Port := 6881%N |}.

Definition the_piece0 : Piece := {| index := 0; data := piece0; peerName := "peer" |}.

Definition peer_with (name : string) (need : Z) : PeerInfo :=
  {| peerId := name; isChoked := false; availablePieces := [];
     activeRequests := ∅; qtyPiecesNeeded := need;
     requestPieceCh := chan_nil; cancelPieceCh := chan_nil;
     havePieceCh := chan_nil |}.

Definition four_peers : SortedPeers :=
  [peer_with "a" 3; peer_with "b" 1; peer_with "c" 1; peer_with "d" 2].

Definition four_peers_map : gmap string PeerInfo :=
  list_to_map [("a"%string, peer_with "a" 3); ("b"%string, peer_with "b" 1);
               ("c"%string, peer_with "c" 1); ("d"%string, peer_with "d" 2)].

(** ** What the spec promises, as predicates on the code *)

(** [Verify] answers with one entry for each piece index. *)
Definition Verify_one_entry_per_piece (diskio : DiskIO) : Prop :=
  exists fuel finishedPieces,
    Verify fuel diskio = Some (Ret finishedPieces)
    /\ length finishedPieces = piece_count (dmetaInfo diskio).

(** [checkHash] is called with the number of the piece: it answers whether
    the digest of the buffer is the one recorded for that piece. *)
Definition checkHash_by_piece_number (diskio : DiskIO) : Prop :=
  forall (p : nat) (buf : list byte),
    (p < piece_count (dmetaInfo diskio))%nat ->
    checkHash diskio buf (Z.of_nat p)
    = Ret (bool_decide (SHA1.Sum buf = recorded_digest (dmetaInfo diskio) p)).

(** A failed transfer fails the request and leaves the process running. *)
Definition write_failure_is_survived (diskio : DiskIO) (piece : Piece) : Prop :=
  terminates_process (writePiece diskio piece).2 = false.

(** ** More of the sources *)

(** *** Torrent.Run: the table of piece hashes

    [for offset := 0; offset <= len(Pieces)-20; offset += 20], one unit of
    [fuel] for each iteration. *)
Fixpoint Run_pieceHashes_loop (fuel : nat) (pieces : list byte) (offset : Z)
    (pieceHashes : list (list byte)) : option (result (list (list byte))) :=
  match fuel with
  | O => None
  | S fuel' =>
      if decide (offset <= Z.of_nat (length pieces) - 20) then
        match slice pieces offset (offset + 20) with
        | Ret h => Run_pieceHashes_loop fuel' pieces (offset + 20) (pieceHashes ++ [h])
        | Panic p => Some (Panic p)
        | Fatal e => Some (Fatal e)
        end
      else Some (Ret pieceHashes)
  end.

Definition Run_pieceHashes (fuel : nat) (t : Torrent) : option (result (list (list byte))) :=
  Run_pieceHashes_loop fuel (Pieces (Info (metaInfo t))) 0 [].

(** The value that [NewPeer] stores. *)
Definition Peer_zero : Peer :=
  {| peer := {| IP := []; Port := 0%N |}; conn := None |}.

(** The pointers of the map are distinct places of the memory, and every
    place of the memory is pointed to. *)
Definition registry_ok (pm : PeerManager) : Prop :=
  exists m : gmap string nat,
    peers pm = Some m
    /\ (forall k ptr, m !! k = Some ptr -> (ptr < length (store pm))%nat)
    /\ (forall k1 k2 ptr, m !! k1 = Some ptr -> m !! k2 = Some ptr -> k1 = k2)
    /\ size m = length (store pm).

(** *** Reading a handle without its position *)

(** The handle after [n] more bytes were read in sequence. *)
Definition advanced (f : File) (n : nat) : File :=
  {| bytes := bytes f; pos := (pos f + n)%nat;
     writable := writable f; faulty := faulty f |}.

(** What a handle is apart from its position. *)
Definition unread (f : File) : list byte * bool * bool :=
  (bytes f, writable f, faulty f).

(** What a handle is apart from its bytes. *)
Definition unwritten (f : File) : nat * bool * bool :=
  (pos f, writable f, faulty f).

(** A handle that was only read: the same but for a position further on. *)
Definition only_advanced (f f' : File) : Prop :=
  unread f' = unread f /\ (pos f <= pos f')%nat.

(** A handle that was only written: the same but for its bytes, which are
    not fewer. *)
Definition only_grown (f f' : File) : Prop :=
  unwritten f' = unwritten f /\ (length (bytes f) <= length (bytes f'))%nat.

(** *** Order of a ranking *)

Definition ascending (sp : SortedPeers) : Prop :=
  forall i j a b,
    (i <= j)%nat -> sp !! i = Some a -> sp !! j = Some b ->
    qtyPiecesNeeded a <= qtyPiecesNeeded b.

(** *** What [Pieces] holds for given bytes

    The digests of the chunks of [pl] bytes of [s], a shorter last chunk
    included, one after the other: the value of [Pieces] in the metainfo of
    a torrent whose content is [s]. *)
Definition digests_of (pl : nat) (s : list byte) : list byte :=
  concat ((fun k => SHA1.Sum (chunk pl s k)) <$> seq 0 (chunk_count (length s) pl)).

(** *** The content that the files of a torrent hold

    The bytes of a file up to the length that the metainfo gives it, the
    bytes beyond its end taken as zero; and these bytes for all the files,
    one file after the other. *)
Definition padded (fe : FileEntry.t) (f : File) : list byte :=
  bytes f ++ replicate (Z.to_nat (FileEntry.Length fe) - length (bytes f)) x00.

Definition content (diskio : DiskIO) : list byte :=
  concat (zip_with padded (Files (Info (dmetaInfo diskio))) (files diskio)).

(** Every entry of [Files] has its handle, as [os.Create] returns it, and
    no file is longer than the metainfo says. *)
Definition laid_out (diskio : DiskIO) : Prop :=
  Forall2 (fun fe f => writable f = true /\ faulty f = false
                       /\ Z.of_nat (length (bytes f)) <= FileEntry.Length fe)
    (Files (Info (dmetaInfo diskio))) (files diskio).

(** *** Package os

    [DiskIO.Init] reaches the files through package [os].  The file system
    is a tree of directories and regular files.  A path is the list of its
    names; the tree is kept as a map from the paths that exist, taken from
    a fixed directory, to what they name.  The working directory of the
    process exists.  Names are plain (not empty, neither [.] nor [..], no
    separator), so that [filepath.Join] of names is the path made of these
    names; the empty path is the empty file name, which names nothing.
    There are no links and every operation is permitted.  A handle holds the
    bytes that the file had when it was opened. *)

Module filepath.

Definition plain (name : string) : Prop :=
  name <> ""%string /\ name <> "."%string /\ name <> ".."%string
  /\ String.index 0 "/" name = None.

Definition Join (elem : list string) : list string := elem.

End filepath.

Module os.

Inductive node : Type :=
  | Dir
  | Reg (bs : list byte).

Inductive errno : Type := ENOENT | ENOTDIR | EEXIST | EISDIR.

#[global] Instance errno_eq_decision : EqDecision errno.
Proof. solve_decision. Defined.

Record FileSystem : Type := {
  nodes : gmap (list string) node;
  cwd : list string
}.

(** What the names [p] lead to from the directory [at_], which exists. *)
Fixpoint walk (m : gmap (list string) node) (at_ p : list string) : errno + node :=
  match p with
  | [] => inr Dir
  | x :: p' =>
      match m !! (at_ ++ [x]) with
      | None => inl ENOENT
      | Some Dir => walk m (at_ ++ [x]) p'
      | Some (Reg bs) =>
          match p' with
          | [] => inr (Reg bs)
          | _ => inl ENOTDIR
          end
      end
  end.

Definition lookup (fs : FileSystem) (name : list string) : errno + node :=
  match name with
  | [] => inl ENOENT
  | _ => walk (nodes fs) (cwd fs) name
  end.

(** The directory that is to hold the last name of [name]. *)
Definition parent (fs : FileSystem) (name : list string) : errno + list string :=
  match name with
  | [] => inl ENOENT
  | _ =>
      match walk (nodes fs) (cwd fs) (removelast name) with
      | inl e => inl e
      | inr Dir => inr (cwd fs ++ removelast name)
      | inr (Reg _) => inl ENOTDIR
      end
  end.

(** [_, err := os.Stat(name)] *)
Definition Stat (fs : FileSystem) (name : list string) : option errno :=
  match lookup fs name with
  | inl e => Some e
  | inr _ => None
  end.

(** [os.IsNotExist(err)] *)
Definition IsNotExist (err : option errno) : bool :=
  bool_decide (err = Some ENOENT).

(** [os.Mkdir(name, perm)] *)
Definition Mkdir (fs : FileSystem) (name : list string) : errno + FileSystem :=
  match parent fs name with
  | inl e => inl e
  | inr _ =>
      match nodes fs !! (cwd fs ++ name) with
      | Some _ => inl EEXIST
      | None => inr {| nodes := <[cwd fs ++ name := Dir]> (nodes fs); cwd := cwd fs |}
      end
  end.

(** [os.MkdirAll(path, perm)]: the directories missing on the way are made. *)
Fixpoint MkdirAll_from (m : gmap (list string) node) (at_ p : list string)
    : errno + gmap (list string) node :=
  match p with
  | [] => inr m
  | x :: p' =>
      match m !! (at_ ++ [x]) with
      | None => MkdirAll_from (<[at_ ++ [x] := Dir]> m) (at_ ++ [x]) p'
      | Some Dir => MkdirAll_from m (at_ ++ [x]) p'
      | Some (Reg _) => inl ENOTDIR
      end
  end.

Definition MkdirAll (fs : FileSystem) (name : list string) : errno + FileSystem :=
  match name with
  | [] => inl ENOENT
  | _ =>
      match MkdirAll_from (nodes fs) (cwd fs) name with
      | inl e => inl e
      | inr m => inr {| nodes := m; cwd := cwd fs |}
      end
  end.

(** [os.Chdir(dir)] *)
Definition Chdir (fs : FileSystem) (name : list string) : errno + FileSystem :=
  match lookup fs name with
  | inl e => inl e
  | inr Dir => inr {| nodes := nodes fs; cwd := cwd fs ++ name |}
  | inr (Reg _) => inl ENOTDIR
  end.

(** [os.Create(name)]: the file is made, or emptied, and opened for reading
    and writing. *)
Definition Create (fs : FileSystem) (name : list string) : errno + FileSystem * File :=
  match parent fs name with
  | inl e => inl e
  | inr _ =>
      match nodes fs !! (cwd fs ++ name) with
      | Some Dir => inl EISDIR
      | _ =>
          inr ({| nodes := <[cwd fs ++ name := Reg []]> (nodes fs); cwd := cwd fs |},
               {| bytes := []; pos := 0; writable := true; faulty := false |})
      end
  end.

(** [os.Open(name)]: opened for reading.  A directory is opened as well; no
    bytes can be read from its handle. *)
Definition Open (fs : FileSystem) (name : list string) : errno + File :=
  match lookup fs name with
  | inl e => inl e
  | inr (Reg bs) => inr {| bytes := bs; pos := 0; writable := false; faulty := false |}
  | inr Dir => inr {| bytes := []; pos := 0; writable := false; faulty := true |}
  end.

End os.

(** *** openOrCreateFile, NewDiskIO and DiskIO.Init

    A call ends the process through [checkError] with the error of the
    operating system ([inl]) or returns. *)

Definition openOrCreateFile (fs : os.FileSystem) (name : list string)
    : os.errno + os.FileSystem * File :=
  if os.IsNotExist (os.Stat fs name) then os.Create fs name
  else
    match os.Open fs name with
    | inl e => inl e
    | inr file => inr (fs, file)
    end.

Definition NewDiskIO (metaInfo : MetaInfo) : DiskIO :=
  {| dmetaInfo := metaInfo; files := [] |}.

(** The body of the loop over [Files]. *)
Definition DiskIO_Init_file (fs : os.FileSystem) (diskio : DiskIO) (file : FileEntry.t)
    : os.errno + os.FileSystem * DiskIO :=
  let made :=
    if decide (1 < length (FileEntry.Path file))%nat then
      let directory := filepath.Join (drop 1 (FileEntry.Path file)) in
      if os.IsNotExist (os.Stat fs directory) then os.MkdirAll fs directory
      else inr fs
    else inr fs in
  match made with
  | inl e => inl e
  | inr fs =>
      let name := filepath.Join (FileEntry.Path file) in
      match openOrCreateFile fs name with
      | inl e => inl e
      | inr (fs, handle) => inr (fs, with_files diskio (files diskio ++ [handle]))
      end
  end.

Fixpoint DiskIO_Init_files (fs : os.FileSystem) (diskio : DiskIO)
    (entries : list FileEntry.t) : os.errno + os.FileSystem * DiskIO :=
  match entries with
  | [] => inr (fs, diskio)
  | file :: entries' =>
      match DiskIO_Init_file fs diskio file with
      | inl e => inl e
      | inr (fs, diskio) => DiskIO_Init_files fs diskio entries'
      end
  end.

(** [DiskIO.Init] *)
Definition DiskIO_Init (fs : os.FileSystem) (diskio : DiskIO)
    : os.errno + os.FileSystem * DiskIO :=
  let info_ := Info (dmetaInfo diskio) in
  if decide (0 < length (Files info_))%nat then
    let directory := [Name info_] in
    let made :=
      if os.IsNotExist (os.Stat fs directory) then os.Mkdir fs directory
      else inr fs in
    match made with
    | inl e => inl e
    | inr fs =>
        match os.Chdir fs directory with
        | inl e => inl e
        | inr fs => DiskIO_Init_files fs diskio (Files info_)
        end
    end
  else
    match openOrCreateFile fs [Name info_] with
    | inl e => inl e
    | inr (fs, handle) => inr (fs, with_files diskio (files diskio ++ [handle]))
    end.


(** The entry has a path of one plain name. *)
Definition flat_entry (file : FileEntry.t) : Prop :=
  exists x, FileEntry.Path file = [x] /\ filepath.plain x.

(** The files of the torrent exist already and hold [bss], one after the
    other: in multiple file mode in the directory of the torrent, under
    paths of one name. *)
Definition held (fs : os.FileSystem) (m : MetaInfo) (bss : list (list byte)) : Prop :=
  let info_ := Info m in
  match Files info_ with
  | [] => exists bs, bss = [bs]
                     /\ os.nodes fs !! (os.cwd fs ++ [Name info_]) = Some (os.Reg bs)
  | entries =>
      os.nodes fs !! (os.cwd fs ++ [Name info_]) = Some os.Dir
      /\ Forall2 (fun file bs =>
                    exists x, FileEntry.Path file = [x] /\ filepath.plain x
                      /\ os.nodes fs !! (os.cwd fs ++ [Name info_; x])
                         = Some (os.Reg bs))
           entries bss
  end.

(** All that lies below the directory [c] is regular files in [c] itself. *)
Definition flat_below (m : gmap (list string) os.node) (c : list string) : Prop :=
  forall x p n, m !! (c ++ x :: p) = Some n -> p = [] /\ exists bs, n = os.Reg bs.

(** * Properties *)

(** ** crypto/sha1: the test vectors of FIPS 180 *)

Example sha1_abc :
  SHA1.Sum (hex_bytes [0x61; 0x62; 0x63])
  = hex_bytes [0xa9; 0x99; 0x3e; 0x36; 0x47; 0x06; 0x81; 0x6a; 0xba; 0x3e;
               0x25; 0x71; 0x78; 0x50; 0xc2; 0x6c; 0x9c; 0xd0; 0xd8; 0x9d].
Proof. vm_compute. reflexivity. Qed.

Example sha1_empty :
  SHA1.Sum []
  = hex_bytes [0xda; 0x39; 0xa3; 0xee; 0x5e; 0x6b; 0x4b; 0x0d; 0x32; 0x55;
               0xbf; 0xef; 0x95; 0x60; 0x18; 0x90; 0xaf; 0xd8; 0x07; 0x09].
Proof. vm_compute. reflexivity. Qed.


(** ** checkHash *)

Lemma slice_in_range {A} (s : list A) (lo hi : Z) :
  0 <= lo -> lo <= hi -> hi <= Z.of_nat (length s) ->
  slice s lo hi = Ret (take (Z.to_nat (hi - lo)) (drop (Z.to_nat lo) s)).
Proof. intros. unfold slice. rewrite decide_True; [done | lia]. Qed.

Lemma piece_count_bound (m : MetaInfo) (p : nat) :
  (p < piece_count m)%nat -> (20 * p + 20 <= length (Pieces (Info m)))%nat.
Proof.
  unfold piece_count. intros Hp.
  pose proof (Nat.Div0.mul_div_le (length (Pieces (Info m))) 20). lia.
Qed.

Lemma checkHash_slice (diskio : DiskIO) (buf digest : list byte) (pieceIndex : Z) :
  slice (Pieces (Info (dmetaInfo diskio))) pieceIndex (pieceIndex + 20) = Ret digest ->
  checkHash diskio buf pieceIndex = Ret (bool_decide (SHA1.Sum buf = digest)).
Proof.
  intros Hs. unfold checkHash. change (Z.of_nat SHA1.Size) with 20.
  rewrite Hs. simpl. by destruct (bool_decide _).
Qed.

(** At the offset of a digest that [Pieces] holds, [checkHash] compares with
    that digest. *)
Lemma checkHash_digest (diskio : DiskIO) (buf : list byte) (k : nat) :
  (20 * (k + 1) <= length (Pieces (Info (dmetaInfo diskio))))%nat ->
  checkHash diskio buf (20 * Z.of_nat k)
  = Ret (bool_decide (SHA1.Sum buf = recorded_digest (dmetaInfo diskio) k)).
Proof.
  intros Hk. apply checkHash_slice.
  rewrite slice_in_range by lia. unfold recorded_digest.
  replace (Z.to_nat (20 * Z.of_nat k + 20 - 20 * Z.of_nat k)) with 20%nat by lia.
  replace (Z.to_nat (20 * Z.of_nat k)) with (20 * k)%nat by lia.
  reflexivity.
Qed.

(** C2, as amended: the second argument of [checkHash] is the byte offset of
    the digest in [Pieces].  Called with [20 * p] for a piece [p] of the
    torrent, it returns true when the SHA-1 digest of the buffer is the
    digest recorded for [p], and false when it differs. *)
Theorem checkHash_at_byte_offset (diskio : DiskIO) (buf : list byte) (p : nat) :
  (p < piece_count (dmetaInfo diskio))%nat ->
  checkHash diskio buf (20 * Z.of_nat p)
  = Ret (bool_decide (SHA1.Sum buf = recorded_digest (dmetaInfo diskio) p)).
Proof.
  intros Hp%piece_count_bound. apply checkHash_digest. lia.
Qed.

Lemma checkHash_at_byte_offset_witness :
  checkHash single_full piece1 20 = Ret true.
Proof.
  assert (Hp : (1 < piece_count (dmetaInfo single_full))%nat)
    by (vm_compute; lia).
  change 20 with (20 * Z.of_nat 1).
  rewrite (checkHash_at_byte_offset single_full piece1 1 Hp).
  vm_compute. reflexivity.
Defined.

(** C2, as stated, fails: with the number 1 of the second piece, whose digest
    the buffer has, [checkHash] compares with the bytes 1 to 20 of [Pieces]
    and returns false. *)
Lemma checkHash_by_piece_number_fails :
  SHA1.Sum piece1 = recorded_digest (dmetaInfo single_full) 1
  /\ checkHash single_full piece1 1 = Ret false
  /\ ~ checkHash_by_piece_number single_full.
Proof.
  split; [vm_compute; reflexivity|]. split; [vm_compute; reflexivity|].
  intros H. specialize (H 1%nat piece1).
  assert (Hf : checkHash single_full piece1 (Z.of_nat 1) = Ret false)
    by (vm_compute; reflexivity).
  rewrite H in Hf by (vm_compute; lia).
  vm_compute in Hf. inversion Hf.
Qed.

(** ** writePiece and requestBlock *)

(** C3, on the layout of the spec (pieces of 16 bytes, file A of 10 and file
    B of 22 bytes): writing piece 0 stores its first ten bytes in A, then
    slices the six bytes that remain up to the 22 of B and panics, so that B
    receives nothing; and on a complete download, the request of the sixteen
    bytes of piece 0 is a read of sixteen bytes from A that ends the
    process. *)
Theorem writePiece_straddling_two_files_panics :
  (writePiece multi_fresh the_piece0).2 = Panic SliceBoundsOutOfRange
  /\ bytes <$> files (writePiece multi_fresh the_piece0).1 = [take 10 piece0; []]
  /\ (requestBlock multi_full {| pieceIndex := 0; begin := 0; length_ := 16 |}).2
     = Fatal ErrUnexpectedEOF.
Proof. vm_compute. auto. Qed.

(** In single file mode there is no entry [Files[0]]: no piece is written. *)
Lemma writePiece_single_file_panics (diskio : DiskIO) (piece : Piece) :
  Files (Info (dmetaInfo diskio)) = [] ->
  writePiece diskio piece = (diskio, Panic IndexOutOfRange).
Proof. intros Hf. unfold writePiece. rewrite Hf. simpl. by rewrite Hf. Qed.

(** In single file mode a block is read at the position of the handle: the
    request of piece 1 is answered with the bytes of piece 0. *)
Lemma requestBlock_single_file_ignores_index :
  (requestBlock single_full {| pieceIndex := 1; begin := 0; length_ := 16 |}).2
  = Ret {| info := {| pieceIndex := 1; begin := 0; length_ := 16 |};
           rdata := piece0 |}.
Proof. vm_compute. reflexivity. Qed.

Lemma readBlock_at_metaInfo (diskio : DiskIO) (i : nat) (block : BlockInfo) :
  dmetaInfo (readBlock_at diskio i block).1 = dmetaInfo diskio.
Proof.
  unfold readBlock_at. destruct (files diskio !! i); [|done].
  by destruct (readBlock _ _).
Qed.

Lemma readBlock_at_panic (diskio diskio' : DiskIO) (i : nat) (block : BlockInfo) (p : panic) :
  0 <= length_ block ->
  readBlock_at diskio i block = (diskio', Panic p) -> p = IndexOutOfRange.
Proof.
  intros Hlen. unfold readBlock_at, readBlock, make_slice.
  destruct (files diskio !! i); [|congruence].
  rewrite decide_True by done.
  destruct (ReadFull _ _) as [[? ?] [e|]]; congruence.
Qed.

(** The walk of [requestBlock] that reaches an index without entry in
    [Files] has no way to return. *)
Lemma requestBlock_loop_past_the_end (block : BlockInfo) (idxs : list nat) :
  0 <= length_ block ->
  forall (diskio : DiskIO) (offset : Z) (rdata : list byte),
    (exists i, i ∈ idxs /\ Files (Info (dmetaInfo diskio)) !! i = None) ->
    let r := (requestBlock_loop diskio idxs block offset rdata).2 in
    r = Panic IndexOutOfRange \/ exists e, r = Fatal e.
Proof.
  intros Hlen. induction idxs as [|i idxs IH]; intros diskio offset rdata (k & Hk & Hnone).
  { by apply elem_of_nil in Hk. }
  simpl. destruct (Files (Info (dmetaInfo diskio)) !! i) as [fe|] eqn:Hfe; [|by left].
  assert (k ∈ idxs) as Hk'.
  { apply elem_of_cons in Hk as [->|]; [congruence | done]. }
  case_decide.
  - apply IH. eauto.
  - pose proof (readBlock_at_metaInfo diskio i block) as Hm.
    destruct (readBlock_at diskio i block) as [diskio' [bs|p|e]] eqn:Hr; simpl in *.
    + apply IH. rewrite Hm. eauto.
    + left. f_equal. eapply readBlock_at_panic; eauto.
    + right. eauto.
Qed.

(** C4, what the code does: in multiple file mode the walk of [requestBlock]
    runs [i] up to [len(Files)] included and has no exit before, so that every
    request with a sound length either ends the process on a failed read or
    reaches [Files[len(Files)]], an index out of range; no request returns. *)
Theorem requestBlock_multi_file_index_out_of_range (diskio : DiskIO) (block : BlockInfo) :
  (0 < length (Files (Info (dmetaInfo diskio))))%nat ->
  0 <= length_ block ->
  let r := (requestBlock diskio block).2 in
  r = Panic IndexOutOfRange \/ exists e, r = Fatal e.
Proof.
  intros Hfiles Hlen. unfold requestBlock.
  rewrite decide_False by lia.
  set (n := length (Files (Info (dmetaInfo diskio)))) in *.
  assert (exists i, i ∈ seq 0 (S n) /\ Files (Info (dmetaInfo diskio)) !! i = None) as Hend.
  { exists n. split; [apply elem_of_seq; lia | apply lookup_ge_None; lia]. }
  pose proof (requestBlock_loop_past_the_end block (seq 0 (S n)) Hlen diskio
                (wrap_int (pieceIndex block * PieceLength (Info (dmetaInfo diskio)))) []
                Hend) as H.
  destruct (requestBlock_loop _ _ _ _ _) as [diskio' r]. simpl in H |- *.
  destruct H as [->|[e ->]]; [by left | right; by exists e].
Qed.

Lemma requestBlock_multi_file_index_out_of_range_witness :
  (requestBlock multi_full {| pieceIndex := 0; begin := 0; length_ := 4 |}).2
  = Panic IndexOutOfRange.
Proof.
  destruct (requestBlock_multi_file_index_out_of_range multi_full
              {| pieceIndex := 0; begin := 0; length_ := 4 |}) as [H|[e H]];
    [simpl; lia | simpl; lia | exact H |].
  vm_compute in H. discriminate H.
Defined.

(** A failed [WriteAt] in the walk of [writePiece] is answered by [log.Fatal]. *)
Lemma writePiece_loop_write_error (diskio : DiskIO) (i : nat) (idxs : list nat)
    (pdata : list byte) (offset : Z) (fe : FileEntry.t) (file file' : File)
    (chunk : list byte) (n : nat) (e : error) :
  Files (Info (dmetaInfo diskio)) !! i = Some fe ->
  offset <= FileEntry.Length fe ->
  files diskio !! i = Some file ->
  slice pdata 0 (wrap_int (FileEntry.Length fe - offset)) = Ret chunk ->
  WriteAt file chunk offset = (file', n, Some e) ->
  (writePiece_loop diskio (i :: idxs) pdata offset).2 = Fatal e.
Proof.
  intros Hfe Hoff Hfile Hslice Hwrite. simpl.
  rewrite Hfe, decide_False, Hfile, Hslice, Hwrite by lia. reflexivity.
Qed.

(** A failed [io.ReadFull] in [readBlock] is answered by [log.Fatal]. *)
Lemma readBlock_read_error (file file' : File) (block : BlockInfo)
    (bs : list byte) (e : error) :
  0 <= length_ block ->
  ReadFull file (Z.to_nat (length_ block)) = (file', bs, Some e) ->
  readBlock file block = (file', Fatal e).
Proof.
  intros Hlen Hread. unfold readBlock, make_slice.
  rewrite decide_True, length_replicate, Hread by done. reflexivity.
Qed.

(** What a block request can fail with: short data ends as [EOF] or
    [ErrUnexpectedEOF], a failing device as [EIO]. *)
Lemma ReadFull_short (file : File) (len : nat) :
  faulty file = false ->
  (length (bytes file) - pos file < len)%nat ->
  exists file' bs e, ReadFull file len = (file', bs, Some e).
Proof.
  intros Hok Hshort. unfold ReadFull. rewrite Hok.
  rewrite decide_False by lia.
  assert (length (take len (drop (pos file) (bytes file))) ≠ len)
    by (rewrite length_take, length_drop; lia).
  rewrite decide_False by done. case_decide; eauto.
Qed.

(** C6, as amended: an I/O failure ends the process.  At whatever point of
    the walk of [writePiece] a [WriteAt] fails, and whenever the [io.ReadFull]
    of [readBlock] fails, the call ends in [log.Fatal] with that error;
    neither function has a result that reports a failure. *)
Theorem io_failure_is_fatal :
  (forall (diskio : DiskIO) (i : nat) (idxs : list nat) (pdata : list byte)
          (offset : Z) (fe : FileEntry.t) (file file' : File)
          (chunk : list byte) (n : nat) (e : error),
      Files (Info (dmetaInfo diskio)) !! i = Some fe ->
      offset <= FileEntry.Length fe ->
      files diskio !! i = Some file ->
      slice pdata 0 (wrap_int (FileEntry.Length fe - offset)) = Ret chunk ->
      WriteAt file chunk offset = (file', n, Some e) ->
      terminates_process (writePiece_loop diskio (i :: idxs) pdata offset).2 = true
      /\ (writePiece_loop diskio (i :: idxs) pdata offset).2 = Fatal e)
  /\ (forall (file file' : File) (block : BlockInfo) (bs : list byte) (e : error),
      0 <= length_ block ->
      ReadFull file (Z.to_nat (length_ block)) = (file', bs, Some e) ->
      terminates_process (readBlock file block).2 = true
      /\ readBlock file block = (file', Fatal e)).
Proof.
  split.
  - intros. erewrite writePiece_loop_write_error by eauto. done.
  - intros. erewrite readBlock_read_error by eauto. done.
Qed.

Lemma io_failure_is_fatal_witness :
  (writePiece multi_reopened the_piece0).2 = Fatal EBADF
  /\ readBlock (created (take 10 piece0))
       {| pieceIndex := 0; begin := 0; length_ := 16 |}
     = ({| bytes := take 10 piece0; pos := 10; writable := true; faulty := false |},
        Fatal ErrUnexpectedEOF).
Proof.
  destruct io_failure_is_fatal as [Hw Hr]. split.
  - refine (proj2 (Hw multi_reopened 0%nat (seq 1 2) piece0 0 fileA
                      (opened (take 10 piece0)) (opened (take 10 piece0))
                      (take 10 piece0) 0%nat EBADF _ _ _ _ _));
      [reflexivity | simpl; lia | reflexivity | reflexivity | reflexivity].
  - refine (proj2 (Hr (created (take 10 piece0)) _
                      {| pieceIndex := 0; begin := 0; length_ := 16 |}
                      (take 10 piece0) ErrUnexpectedEOF _ _));
      [simpl; lia | reflexivity].
Defined.

(** C6, as stated, fails: when the files exist before the session they are
    opened read only, the first [WriteAt] of a piece fails, and the process
    exits. *)
Lemma write_failure_ends_the_process :
  (writePiece multi_reopened the_piece0).2 = Fatal EBADF
  /\ ~ write_failure_is_survived multi_reopened the_piece0.
Proof.
  split; [vm_compute; reflexivity |].
  unfold write_failure_is_survived. vm_compute. discriminate.
Qed.

(** ** Peer states *)

(** C7, what the code does: the state made by [NewPeerInfo] has a bitfield of
    the given length with every entry false, and a choke flag that is false:
    the flag keeps the zero value of [new(PeerInfo)]. *)
Theorem NewPeerInfo_choke_flag_is_false (n : nat) :
  exists pi,
    NewPeerInfo (Z.of_nat n) = Ret pi
    /\ isChoked pi = false
    /\ length (availablePieces pi) = n
    /\ Forall (fun b => b = false) (availablePieces pi).
Proof.
  unfold NewPeerInfo, make_slice. rewrite decide_True by lia. simpl.
  eexists. split; [reflexivity|]. simpl. rewrite Nat2Z.id.
  split; [done|]. split; [apply length_replicate|].
  apply Forall_replicate. done.
Qed.

(** A negative quantity of pieces makes [make] panic. *)
Lemma NewPeerInfo_negative (n : Z) :
  n < 0 -> NewPeerInfo n = Panic MakeSliceLenOutOfRange.
Proof. intros. unfold NewPeerInfo, make_slice. by rewrite decide_False by lia. Qed.

(** ** Ranking *)

(** The comparator holds between an element and itself. *)
Lemma Less_reflexive (sp : SortedPeers) (i : nat) :
  (i < Len sp)%nat -> Less sp i i = Ret true.
Proof.
  intros [a Ha]%lookup_lt_is_Some_2. unfold Less. rewrite Ha.
  by rewrite bool_decide_eq_true_2.
Qed.

(** C5, on the need counts 3, 1, 1, 2 of the spec: the comparator holds in
    both directions between the two peers that need one piece, and holds
    between a peer and itself, so it is not strict; and the insertion sort
    of [sort.Sort] moves the later of the two tied peers before the earlier
    one: the ranking is c, b, d, a. *)
Theorem ranking_swaps_tied_peers :
  Less four_peers 1 2 = Ret true
  /\ Less four_peers 2 1 = Ret true
  /\ Less four_peers 1 1 = Ret true
  /\ sortedPeersByQtyPiecesNeeded insertionSort
       [("a"%string, peer_with "a" 3); ("b"%string, peer_with "b" 1);
        ("c"%string, peer_with "c" 1); ("d"%string, peer_with "d" 2)]
     = Ret [peer_with "c" 1; peer_with "b" 1; peer_with "d" 2; peer_with "a" 3].
Proof. vm_compute. auto. Qed.

Lemma Swap_Permutation (sp sp' : SortedPeers) (i j : nat) :
  Swap sp i j = Ret sp' -> sp' ≡ₚ sp.
Proof.
  unfold Swap. destruct (sp !! i) as [a|] eqn:Hi; [|done].
  destruct (sp !! j) as [b|] eqn:Hj; [|done].
  intros [= <-]. by apply Permutation_insert_swap.
Qed.

Lemma swaps_Permutation (sp sp' : SortedPeers) : swaps sp sp' -> sp' ≡ₚ sp.
Proof.
  induction 1 as [|sp i j sp1 sp2 Hswap _ IH]; [done|].
  rewrite IH. by eapply Swap_Permutation.
Qed.

Lemma swaps_trans (sp1 sp2 sp3 : SortedPeers) :
  swaps sp1 sp2 -> swaps sp2 sp3 -> swaps sp1 sp3.
Proof. induction 1; eauto using swaps_cons. Qed.

Lemma Swap_in_range (sp : SortedPeers) (i j : nat) :
  (i < length sp)%nat -> (j < length sp)%nat ->
  exists sp', Swap sp i j = Ret sp' /\ length sp' = length sp.
Proof.
  intros [a Ha]%lookup_lt_is_Some_2 [b Hb]%lookup_lt_is_Some_2.
  unfold Swap. rewrite Ha, Hb. eexists. split; [done|].
  by rewrite !length_insert.
Qed.

Lemma Less_in_range (sp : SortedPeers) (i j : nat) :
  (i < length sp)%nat -> (j < length sp)%nat -> exists b, Less sp i j = Ret b.
Proof.
  intros [a Ha]%lookup_lt_is_Some_2 [b Hb]%lookup_lt_is_Some_2.
  unfold Less. rewrite Ha, Hb. eauto.
Qed.

Lemma insertionSort_inner_swaps (j : nat) :
  forall sp : SortedPeers, (j < length sp)%nat ->
  exists sp', insertionSort_inner sp j = Ret sp'
              /\ swaps sp sp' /\ length sp' = length sp.
Proof.
  induction j as [|j IH]; intros sp Hj; simpl.
  { exists sp. eauto using swaps_nil. }
  destruct (Less_in_range sp (S j) j) as [[] ->]; [lia | lia | | ]; simpl.
  - destruct (Swap_in_range sp (S j) j) as (sp1 & Hswap & Hlen); [lia | lia |].
    rewrite Hswap. simpl.
    destruct (IH sp1) as (sp2 & -> & Hsw & Hlen2); [lia|].
    exists sp2. split; [done|]. split; [by eapply swaps_cons | congruence].
  - exists sp. eauto using swaps_nil.
Qed.

Lemma insertionSort_outer_swaps (is_ : list nat) :
  forall sp : SortedPeers, Forall (fun i => (i < length sp)%nat) is_ ->
  exists sp', foldl (fun acc i => sp' ← acc; insertionSort_inner sp' i) (Ret sp) is_
              = Ret sp'
              /\ swaps sp sp'.
Proof.
  induction is_ as [|i is_ IH]; intros sp Hall; simpl.
  { exists sp. eauto using swaps_nil. }
  apply Forall_cons in Hall as [Hi Hall].
  destruct (insertionSort_inner_swaps i sp Hi) as (sp1 & -> & Hsw & Hlen).
  destruct (IH sp1) as (sp2 & -> & Hsw2).
  { by rewrite Hlen. }
  exists sp2. eauto using swaps_trans.
Qed.

(** The insertion sort returns on every slice, whatever [Less] answers, and
    moves elements by [Swap] only. *)
Lemma insertionSort_sorts_by_swapping : sorts_by_swapping insertionSort.
Proof.
  intros sp. apply insertionSort_outer_swaps.
  apply Forall_forall. intros i Hi%elem_of_seq. unfold Len in *. lia.
Qed.

Lemma append_each (order : list (string * PeerInfo)) (acc : SortedPeers) :
  foldl (fun acc kv => acc ++ [kv.2]) acc order = acc ++ order.*2.
Proof.
  revert acc. induction order as [|kv order IH]; intros acc; simpl.
  - by rewrite app_nil_r.
  - rewrite IH. by rewrite <- app_assoc.
Qed.

(** C10: whatever order the runtime iterates the map in, and whatever
    procedure [sort.Sort] is, provided it returns and rearranges the slice by
    calls of [Swap], the ranking returns a slice that is a permutation of the
    peer states of the map: one element for each peer, none dropped or
    duplicated. *)
Theorem ranking_is_a_permutation
    (sort_Sort : SortedPeers -> result SortedPeers)
    (peers_ : gmap string PeerInfo) (order : list (string * PeerInfo)) :
  sorts_by_swapping sort_Sort ->
  range_order peers_ order ->
  exists out,
    sortedPeersByQtyPiecesNeeded sort_Sort order = Ret out
    /\ out ≡ₚ (map_to_list peers_).*2
    /\ length out = size peers_.
Proof.
  intros Hsort Horder. unfold sortedPeersByQtyPiecesNeeded.
  rewrite append_each. simpl.
  destruct (Hsort (order.*2)) as (out & -> & Hsw).
  apply swaps_Permutation in Hsw.
  assert (out ≡ₚ (map_to_list peers_).*2) as Hperm.
  { rewrite Hsw. unfold range_order in Horder. by rewrite Horder. }
  exists out. split; [done|]. split; [done|].
  rewrite Hperm, length_fmap. apply length_map_to_list.
Qed.

Lemma ranking_is_a_permutation_witness :
  exists out,
    sortedPeersByQtyPiecesNeeded insertionSort (map_to_list four_peers_map) = Ret out
    /\ out ≡ₚ (map_to_list four_peers_map).*2
    /\ length out = size four_peers_map.
Proof.
  apply (ranking_is_a_permutation insertionSort four_peers_map
           (map_to_list four_peers_map)).
  - exact insertionSort_sorts_by_swapping.
  - unfold range_order. reflexivity.
Defined.

(** ** Registration of peers *)

Section RegistrationProperties.

Variable IP_String : list byte -> string.

Lemma Run_peersCh_known (pm : PeerManager) (p : PeerTuple)
    (m : gmap string nat) (ptr : nat) :
  peers pm = Some m -> m !! peerID_of IP_String p = Some ptr ->
  Run_peersCh IP_String pm p = Ret pm.
Proof. intros Hm Hp. unfold Run_peersCh. by rewrite Hm, Hp. Qed.

Lemma Run_peersCh_registers (pm pm' : PeerManager) (p : PeerTuple) :
  Run_peersCh IP_String pm p = Ret pm' ->
  exists m ptr, peers pm' = Some m /\ m !! peerID_of IP_String p = Some ptr.
Proof.
  unfold Run_peersCh. destruct (peers pm) as [m|] eqn:Hm; [|done].
  destruct (m !! peerID_of IP_String p) as [ptr|] eqn:Hp.
  - intros [= <-]. eauto.
  - simpl. intros [= <-]. simpl. eexists _, _. split; [done|].
    apply lookup_insert_eq.
Qed.

(** The identities in the map after a sequence of deliveries to a made map
    are the ones it had and the ones delivered, each once. *)
Lemma Run_deliveries_dom (ps : list PeerTuple) :
  forall (pm : PeerManager) (m : gmap string nat),
    peers pm = Some m ->
    exists pm' m',
      Run_deliveries IP_String pm ps = Ret pm'
      /\ peers pm' = Some m'
      /\ dom m' = dom m ∪ list_to_set (peerID_of IP_String <$> ps).
Proof.
  unfold Run_deliveries.
  induction ps as [|p ps IH]; intros pm m Hm; simpl.
  { exists pm, m. split; [done|]. split; [done|]. set_solver. }
  unfold Run_peersCh at 2. rewrite Hm.
  destruct (m !! peerID_of IP_String p) as [ptr|] eqn:Hp; simpl.
  - destruct (IH pm m Hm) as (pm' & m' & -> & Hm' & Hdom).
    exists pm', m'. split; [done|]. split; [done|].
    apply elem_of_dom_2 in Hp. set_solver.
  - edestruct (IH {| peers := Some (<[peerID_of IP_String p := length (store pm)]> m);
                     store := store pm ++ [{| peer := {| IP := []; Port := 0%N |};
                                             conn := None |}] |})
      as (pm' & m' & -> & Hm' & Hdom); [done|].
    exists pm', m'. split; [done|]. split; [done|].
    rewrite Hdom, dom_insert_L. set_solver.
Qed.

End RegistrationProperties.

(** C8: when the delivery of a tuple has been handled, handling the same
    tuple again returns the peer manager as it is, the map and the memory of
    its entries untouched, and the map holds an entry under the identity of
    the tuple. *)
Theorem registration_is_idempotent (IP_String : list byte -> string)
    (pm pm' : PeerManager) (p : PeerTuple) :
  Run_peersCh IP_String pm p = Ret pm' ->
  Run_peersCh IP_String pm' p = Ret pm'
  /\ exists m ptr, peers pm' = Some m /\ m !! peerID_of IP_String p = Some ptr.
Proof.
  intros Hrun.
  destruct (Run_peersCh_registers IP_String pm pm' p Hrun) as (m & ptr & Hm & Hp).
  split; [by eapply Run_peersCh_known | eauto].
Qed.

Lemma registration_is_idempotent_witness :
  let pm' := {| peers := Some {[ "192.168.0.7:6881"%string := 0%nat ]};
                store := [{| peer := {| IP := []; Port := 0%N |}; conn := None |}] |} in
  Run_peersCh (fun _ => "192.168.0.7"%string) pm' a_tuple = Ret pm'.
Proof.
  intros pm'.
  refine (proj1 (registration_is_idempotent (fun _ => "192.168.0.7"%string)
                   NewPeerManager pm' a_tuple _)).
  vm_compute. reflexivity.
Defined.

(** ** Torrent.Init *)

Lemma wrap_int_id (z : Z) : in_int z -> wrap_int z = z.
Proof.
  unfold in_int, int_min, int_max, wrap_int. intros Hz.
  rewrite Z.mod_small; lia.
Qed.

Lemma wrap_int_add_l (a b : Z) : wrap_int (wrap_int a + b) = wrap_int (a + b).
Proof.
  unfold wrap_int. f_equal.
  replace ((a + 2 ^ 63) `mod` 2 ^ 64 - 2 ^ 63 + b + 2 ^ 63)
    with ((a + 2 ^ 63) `mod` 2 ^ 64 + b) by lia.
  rewrite Zplus_mod_idemp_l. f_equal. lia.
Qed.

(** The running sum of [Init] is the machine integer of the exact sum. *)
Lemma Init_sum (fs : list FileEntry.t) :
  forall a : Z,
    foldl (fun left file => wrap_int (left + FileEntry.Length file)) (wrap_int a) fs
    = wrap_int (a + files_length fs).
Proof.
  induction fs as [|file fs IH]; intros a; simpl.
  - f_equal. lia.
  - rewrite wrap_int_add_l, IH. f_equal. lia.
Qed.

(** What [Init] leaves in [Left], overflow included. *)
Lemma Init_Left_wraps (t : Torrent) :
  Left (Stats_ (Init t))
  = match Files (Info (metaInfo t)) with
    | [] => Length (Info (metaInfo t))
    | fs => wrap_int (Left (Stats_ t) + files_length fs)
    end.
Proof.
  unfold Init. simpl.
  destruct (Files (Info (metaInfo t))) as [|file fs] eqn:Hfs.
  - by rewrite decide_False by (simpl; lia).
  - rewrite decide_True by (simpl; lia).
    cbn [foldl]. rewrite Init_sum. simpl. f_equal. lia.
Qed.

(** C9: on a session whose counter [Left] is zero, and for a content whose
    length is a Go [int], [Init] leaves in [Stats.Left] the total content
    length: the sum of the lengths of the files in multiple file mode, the
    declared length otherwise. *)
Theorem Init_Left_is_total_length (t : Torrent) :
  Left (Stats_ t) = 0 ->
  in_int (total_length (metaInfo t)) ->
  Left (Stats_ (Init t)) = total_length (metaInfo t).
Proof.
  intros Hzero Hint. rewrite Init_Left_wraps. unfold total_length in *.
  destruct (Files (Info (metaInfo t))) as [|file fs]; [done|].
  rewrite Hzero, Z.add_0_l. by apply wrap_int_id.
Qed.

Lemma Init_Left_is_total_length_witness :
  Left (Stats_ (Init (torrent_of meta_multi))) = 32
  /\ Left (Stats_ (Init (torrent_of meta_single))) = 32.
Proof.
  split.
  - refine (Init_Left_is_total_length (torrent_of meta_multi) _ _);
      [reflexivity | vm_compute; split; discriminate].
  - refine (Init_Left_is_total_length (torrent_of meta_single) _ _);
      [reflexivity | vm_compute; split; discriminate].
Defined.

(** [Init] and [Run] compute the same total, unless the metainfo declares
    both a length and files. *)
Lemma Init_Left_is_Run_totalLength (t : Torrent) :
  Left (Stats_ t) = 0 ->
  Files (Info (metaInfo t)) = [] \/ Length (Info (metaInfo t)) = 0 ->
  Left (Stats_ (Init t)) = Run_totalLength t.
Proof.
  intros Hzero Hmode. unfold Init, Run_totalLength. simpl. rewrite Hzero.
  destruct Hmode as [Hfiles|Hlength].
  - rewrite Hfiles. simpl. case_decide; lia.
  - rewrite Hlength. destruct (decide (0 ≠ 0)) as [Hne|_]; [by destruct Hne|].
    case_decide as Hn; [done|].
    destruct (Files (Info (metaInfo t))); [done | simpl in Hn; lia].
Qed.

(** The counters that [Init] does not initialise are kept. *)
Lemma Init_keeps_the_rest (t : Torrent) :
  metaInfo (Init t) = metaInfo t
  /\ infoHash (Init t) = infoHash t
  /\ Uploaded (Stats_ (Init t)) = Uploaded (Stats_ t)
  /\ Downloaded (Stats_ (Init t)) = Downloaded (Stats_ t).
Proof. done. Qed.

(** Subtracting the length of each piece from the total leaves zero. *)
Lemma piece_lengths_sum (total pl : Z) :
  0 < pl -> 0 <= total ->
  foldl Z.sub total (piece_lengths total pl) = 0.
Proof.
  intros Hpl Htotal. unfold piece_lengths. rewrite foldl_app.
  assert (forall n a, foldl Z.sub a (replicate n pl) = a - Z.of_nat n * pl) as Hrep.
  { induction n as [|n IH]; intros a; simpl; [lia|]. rewrite IH. lia. }
  rewrite Hrep, Z2Nat.id by (apply Z.div_pos; lia).
  pose proof (Z.div_mod total pl ltac:(lia)) as Hdm.
  pose proof (Z.mod_pos_bound total pl Hpl).
  case_decide; simpl; lia.
Qed.

(** With the value that [Init] leaves, the counter reaches zero when the
    length of every piece has been subtracted. *)
Lemma Left_reaches_zero (t : Torrent) :
  Left (Stats_ t) = 0 ->
  0 <= total_length (metaInfo t) <= int_max ->
  0 < PieceLength (Info (metaInfo t)) ->
  foldl Z.sub (Left (Stats_ (Init t)))
    (piece_lengths (total_length (metaInfo t)) (PieceLength (Info (metaInfo t))))
  = 0.
Proof.
  intros Hzero Hint Hpl.
  assert (Left (Stats_ (Init t)) = total_length (metaInfo t)) as ->.
  { rewrite Init_Left_wraps. unfold total_length in *.
    destruct (Files (Info (metaInfo t))) as [|file fs]; [done|].
    rewrite Hzero, Z.add_0_l. apply wrap_int_id. unfold in_int, int_min. lia. }
  apply piece_lengths_sum; lia.
Qed.

(** ** Verify *)

Lemma fill_length (buf : list byte) (m : nat) (bs : list byte) :
  (m + length bs <= length buf)%nat -> length (fill buf m bs) = length buf.
Proof.
  intros Hm. unfold fill. rewrite !length_app, length_take, length_drop. lia.
Qed.

Lemma ReadAt_healthy (file : File) (len off : nat) :
  faulty file = false ->
  let bs := take len (drop off (bytes file)) in
  ReadAt file len off = (bs, if (length bs <? len)%nat then Some EOF else None).
Proof.
  intros Hok bs. unfold ReadAt. rewrite Hok. case_decide as Hlen; [|done].
  subst len bs. done.
Qed.

Lemma div_mod_of (a pl q m : nat) :
  (m < pl)%nat -> a = (q * pl + m)%nat -> (a / pl = q /\ a mod pl = m)%nat.
Proof.
  intros Hm ->. split.
  - symmetry. apply (Nat.div_unique _ _ q m); lia.
  - symmetry. apply (Nat.mod_unique _ _ q m); lia.
Qed.

Lemma div_mod_split (a pl : nat) :
  (0 < pl)%nat -> (a = a / pl * pl + a mod pl /\ a mod pl < pl)%nat.
Proof.
  intros Hpl. pose proof (Nat.div_mod_eq a pl).
  pose proof (Nat.mod_upper_bound a pl). lia.
Qed.

(** In single file mode the loop is the one over a file, with nothing
    pending. *)
Lemma Verify_single_as_multi_file (diskio : DiskIO) (file : File) :
  files diskio !! 0%nat = Some file ->
  forall (fuel : nat) (buf : list byte) (pieceIndex : Z) (offset : nat)
         (fin : list bool),
    Verify_single fuel diskio buf pieceIndex offset fin
    = Verify_multi_file fuel diskio file buf 0%nat pieceIndex offset fin.
Proof.
  intros Hfile. induction fuel as [|fuel IH]; intros buf pieceIndex offset fin; [done|].
  cbn [Verify_single Verify_multi_file]. rewrite Hfile.
  rewrite decide_False, Nat.sub_0_r by lia.
  destruct (ReadAt file (length buf) offset) as [bs [[]|]]; try done.
  destruct (checkHash _ _ _); [apply IH | done | done].
Qed.

Section VerifyLoops.

Variable diskio : DiskIO.
Variable pl : nat.
Hypothesis pl_pos : (0 < pl)%nat.

Lemma chunk_app (s x : list byte) (k : nat) :
  ((k + 1) * pl <= length s)%nat -> chunk pl (s ++ x) k = chunk pl s k.
Proof.
  intros Hk. unfold chunk. rewrite drop_app_le by lia.
  rewrite take_app_le; [done|]. rewrite length_drop. lia.
Qed.

(** Bytes that arrive later do not change the answers for full chunks. *)
Lemma checked_app (s x : list byte) (n : nat) :
  (n * pl <= length s)%nat -> checked diskio pl (s ++ x) n = checked diskio pl s n.
Proof.
  intros Hn. unfold checked. apply list_fmap_ext. intros i k [-> Hi]%lookup_seq.
  unfold chunk_ok. rewrite chunk_app; [done|]. simpl. nia.
Qed.

Lemma checked_S (s : list byte) (n : nat) :
  checked diskio pl s (n + 1) = checked diskio pl s n ++ [chunk_ok diskio pl s n].
Proof. unfold checked. by rewrite seq_app, fmap_app. Qed.

(** The loop over one file, read from [offset], after the bytes [s]: it
    appends the answer for each chunk that fills up and leaves the rest
    pending in the buffer. *)
Lemma Verify_multi_file_runs (file : File) :
  faulty file = false ->
  forall (fuel : nat) (buf : list byte) (offset : nat) (s : list byte),
    length buf = pl ->
    pending pl s buf ->
    (length (bytes file) - offset < fuel)%nat ->
    (20 * (length (s ++ drop offset (bytes file)) / pl)
     <= length (Pieces (Info (dmetaInfo diskio))))%nat ->
    exists buf',
      Verify_multi_file fuel diskio file buf (length s mod pl)
        (20 * Z.of_nat (length s / pl)) offset
        (checked diskio pl s (length s / pl))
      = Some (Ret (buf', (length (s ++ drop offset (bytes file)) mod pl)%nat,
                   20 * Z.of_nat (length (s ++ drop offset (bytes file)) / pl),
                   checked diskio pl (s ++ drop offset (bytes file))
                     (length (s ++ drop offset (bytes file)) / pl)))
      /\ length buf' = pl
      /\ pending pl (s ++ drop offset (bytes file)) buf'.
Proof.
  intros Hok. induction fuel as [|fuel IH]; intros buf offset s Hbuf Hpend Hfuel Hpieces;
    [lia|].
  destruct (div_mod_split (length s) pl pl_pos) as [Hs Hm].
  unfold pending in Hpend.
  set (q := (length s / pl)%nat) in *. set (m := (length s mod pl)%nat) in *.
  set (rest := drop offset (bytes file)) in *.
  assert (length rest = length (bytes file) - offset)%nat as Hrest
    by apply length_drop.
  cbn [Verify_multi_file]. rewrite decide_False by lia.
  rewrite (ReadAt_healthy file (length buf - m) offset Hok). fold rest.
  rewrite Hbuf. set (bs := take (pl - m) rest).
  assert (length (take m buf) = m) as Htake by (rewrite length_take; lia).
  assert (length bs = Nat.min (pl - m) (length rest)) as Hlen_bs
    by apply length_take.
  destruct (Nat.ltb_spec (length bs) (pl - m)) as [Hshort|Hfull].
  - (* the file ends before the buffer is full *)
    assert (bs = rest) as Hbs.
    { apply take_ge. lia. }
    clear Hlen_bs. rewrite Hbs in *. clear Hbs bs.
    destruct (div_mod_of (length (s ++ rest)) pl q (m + length rest)) as [-> ->];
      [lia | rewrite length_app; lia |].
    rewrite checked_app by lia.
    exists (fill buf m rest). split; [done|]. split; [rewrite fill_length; lia|].
    unfold pending.
    destruct (div_mod_of (length (s ++ rest)) pl q (m + length rest)) as [-> ->];
      [lia | rewrite length_app; lia |].
    rewrite drop_app_le by lia. rewrite <- Hpend.
    unfold fill. rewrite app_assoc. apply take_app_length'.
    rewrite length_app. lia.
  - (* the buffer is full: one more answer *)
    assert (length bs = pl - m)%nat as Hn by lia.
    assert (bs ++ drop (offset + length bs) (bytes file) = rest) as Hsplit.
    { rewrite Hn. unfold bs, rest.
      rewrite <- (drop_drop (bytes file) (pl - m) offset). apply take_drop. }
    assert (length rest >= pl - m)%nat as Hlong by lia.
    set (s1 := s ++ bs).
    assert (length s1 = (q + 1) * pl)%nat as Hs1
      by (unfold s1; rewrite length_app; lia).
    destruct (div_mod_of (length s1) pl (q + 1) 0) as [Hq1 Hm1]; [lia | lia |].
    assert (fill buf m bs = chunk pl s1 q) as Hchunk.
    { unfold fill, chunk, s1. rewrite drop_app_le by lia. rewrite <- Hpend.
      rewrite (drop_ge buf) by lia. rewrite app_nil_r.
      symmetry. apply take_ge. rewrite length_app. lia. }
    assert (q + 1 <= length (s ++ rest) / pl)%nat as Hmore.
    { rewrite <- Hq1. apply Nat.Div0.div_le_mono.
      unfold s1. rewrite !length_app. lia. }
    rewrite checkHash_digest by lia.
    rewrite Hchunk. fold (chunk_ok diskio pl s1 q).
    rewrite <- (checked_app s bs q) by lia. fold s1.
    rewrite <- checked_S.
    replace (20 * Z.of_nat q + 20) with (20 * Z.of_nat (q + 1)) by lia.
    specialize (IH (chunk pl s1 q) (offset + length bs)%nat s1).
    assert (s1 ++ drop (offset + length bs) (bytes file) = s ++ rest) as Hjoin
      by (unfold s1; by rewrite <- app_assoc, Hsplit).
    rewrite Hq1, Hm1, Hjoin in IH.
    apply IH.
    + rewrite <- Hchunk, fill_length; lia.
    + unfold pending. rewrite Hq1, Hm1, drop_ge by lia. apply take_0.
    + lia.
    + done.
Qed.

(** The loop over the files [i], ..., [i + n - 1], after the bytes [s]. *)
Lemma Verify_multi_runs (fuel n : nat) :
  forall (i : nat) (buf : list byte) (s : list byte),
    length buf = pl ->
    pending pl s buf ->
    (i + n <= length (files diskio))%nat ->
    Forall (fun file => faulty file = false) (take n (drop i (files diskio))) ->
    (length (stream_of (take n (drop i (files diskio)))) < fuel)%nat ->
    (20 * (length (s ++ stream_of (take n (drop i (files diskio)))) / pl)
     <= length (Pieces (Info (dmetaInfo diskio))))%nat ->
    exists buf',
      Verify_multi fuel diskio (seq i n) buf (length s mod pl)
        (20 * Z.of_nat (length s / pl)) (checked diskio pl s (length s / pl))
      = Some (Ret (buf',
                   (length (s ++ stream_of (take n (drop i (files diskio)))) mod pl)%nat,
                   20 * Z.of_nat (length (s ++ stream_of (take n (drop i (files diskio)))) / pl),
                   checked diskio pl (s ++ stream_of (take n (drop i (files diskio))))
                     (length (s ++ stream_of (take n (drop i (files diskio)))) / pl)))
      /\ length buf' = pl
      /\ pending pl (s ++ stream_of (take n (drop i (files diskio)))) buf'.
Proof.
  induction n as [|n IH]; intros i buf s Hbuf Hpend Hlen Hok Hfuel Hpieces.
  { exists buf. cbn. rewrite app_nil_r. done. }
  destruct (lookup_lt_is_Some_2 (files diskio) i) as [file Hfile]; [lia|].
  rewrite (drop_S _ _ _ Hfile) in *.
  cbn [take fmap list_fmap concat stream_of] in *.
  fold (stream_of (take n (drop (S i) (files diskio)))) in *.
  set (later := stream_of (take n (drop (S i) (files diskio)))) in *.
  apply Forall_cons in Hok as [Hfile_ok Hok].
  rewrite length_app in Hfuel.
  cbn [seq Verify_multi]. rewrite Hfile.
  destruct (Verify_multi_file_runs file Hfile_ok fuel buf 0%nat s)
    as (buf1 & Hrun & Hbuf1 & Hpend1); [done | done | lia | |].
  { rewrite drop_0. etrans; [|exact Hpieces].
    apply Nat.mul_le_mono_l, Nat.Div0.div_le_mono. rewrite !length_app. lia. }
  rewrite drop_0 in Hrun, Hpend1. rewrite Hrun.
  destruct (IH (S i) buf1 (s ++ bytes file)) as (buf2 & Hrun2 & Hbuf2 & Hpend2);
    [done | done | lia | done | fold later; lia | fold later; by rewrite <- app_assoc |].
  fold later in Hrun2, Hpend2. rewrite <- !app_assoc in Hrun2, Hpend2.
  exists buf2. done.
Qed.

(** The check of what is pending after the loops. *)
Lemma Verify_tail_runs (buf s : list byte) :
  length buf = pl ->
  pending pl s buf ->
  (20 * chunk_count (length s) pl <= length (Pieces (Info (dmetaInfo diskio))))%nat ->
  Verify_tail diskio (buf, (length s mod pl)%nat, 20 * Z.of_nat (length s / pl),
                      checked diskio pl s (length s / pl))
  = Ret (checked diskio pl s (chunk_count (length s) pl)).
Proof.
  intros Hbuf Hpend Hpieces. unfold Verify_tail, chunk_count in *.
  destruct (div_mod_split (length s) pl pl_pos) as [Hs Hm].
  unfold pending in Hpend.
  set (q := (length s / pl)%nat) in *. set (m := (length s mod pl)%nat) in *.
  destruct (decide (0 < m)%nat) as [Hpos|Hzero].
  - rewrite slice_in_range by lia. cbn [mbind result_bind].
    rewrite checkHash_digest by lia. cbn [mbind result_bind].
    replace (Z.to_nat (Z.of_nat m - 0)) with m by lia.
    change (Z.to_nat 0) with 0%nat. rewrite drop_0, Hpend.
    replace (drop (q * pl) s) with (chunk pl s q).
    + fold (chunk_ok diskio pl s q). by rewrite <- checked_S.
    + unfold chunk. apply take_ge. rewrite length_drop. lia.
  - by rewrite Nat.add_0_r.
Qed.

End VerifyLoops.

(** X28: what [Verify] answers.  When the piece length is positive and
    within the limit of the runtime, every file has a handle, no device
    fails and [Pieces] holds a digest for each chunk, [Verify] returns
    (given fuel for the bytes on disk) and its answer has one entry for
    each chunk of piece length of the bytes that the files hold, taken one
    after the other, a shorter last chunk included; the entry of a chunk
    tells whether its SHA-1 digest is the one recorded at its index.  Pieces
    that lie beyond these bytes have no entry; when [Pieces] has as many
    digests as there are chunks on disk, the answer has one entry for each
    piece index. *)
Theorem Verify_one_entry_per_chunk_on_disk (fuel : nat) (diskio : DiskIO) :
  let info_ := Info (dmetaInfo diskio) in
  let pl := Z.to_nat (PieceLength info_) in
  0 < PieceLength info_ <= maxAlloc ->
  (Nat.max 1 (length (Files info_)) <= length (files diskio))%nat ->
  Forall (fun file => faulty file = false) (read_files diskio) ->
  (20 * chunk_count (on_disk diskio) pl <= length (Pieces info_))%nat ->
  (on_disk diskio < fuel)%nat ->
  exists finishedPieces,
    Verify fuel diskio = Some (Ret finishedPieces)
    /\ finishedPieces
       = checked diskio pl (stream diskio) (chunk_count (on_disk diskio) pl)
    /\ length finishedPieces = chunk_count (on_disk diskio) pl
    /\ (length (Pieces info_) = (20 * chunk_count (on_disk diskio) pl)%nat ->
        length finishedPieces = piece_count (dmetaInfo diskio)).
Proof.
  intros info_ pl [Hpl _] Hhandles Hok Hpieces Hfuel.
  assert (0 < pl)%nat as pl_pos by (unfold pl; lia).
  set (out := checked diskio pl (stream diskio) (chunk_count (on_disk diskio) pl)).
  assert (length out = chunk_count (on_disk diskio) pl) as Hout
    by (unfold out, checked; by rewrite length_fmap, length_seq).
  exists out. split; [|split; [done|split; [done|]]].
  2:{ intros Hall. unfold piece_count. fold info_.
      rewrite Hout, Hall, (Nat.mul_comm 20). symmetry. apply Nat.div_mul. lia. }
  assert (20 * (on_disk diskio / pl) <= length (Pieces info_))%nat as Hfull
    by (unfold chunk_count in Hpieces; lia).
  unfold out, on_disk, stream, read_files in *. fold info_ in Hok, Hpieces, Hfuel, Hfull |- *.
  unfold Verify, make_slice. fold info_. rewrite decide_True by lia. fold pl.
  set (n := length (Files info_)) in *.
  assert (length (replicate pl x00) = pl) as Hbuf by apply length_replicate.
  assert (pending pl [] (replicate pl x00)) as Hpend.
  { unfold pending. cbn [length]. by rewrite Nat.Div0.mod_0_l, drop_nil. }
  assert (exists buf,
             (if decide (0 < n)%nat
              then Verify_multi fuel diskio (seq 0 n) (replicate pl x00) 0%nat 0 []
              else Verify_single fuel diskio (replicate pl x00) 0 0%nat [])
             = Some (Ret (buf,
                          (length (stream_of (take (1 `max` n) (files diskio))) mod pl)%nat,
                          20 * Z.of_nat (length (stream_of (take (1 `max` n) (files diskio))) / pl),
                          checked diskio pl (stream_of (take (1 `max` n) (files diskio)))
                            (length (stream_of (take (1 `max` n) (files diskio))) / pl)))
             /\ length buf = pl
             /\ pending pl (stream_of (take (1 `max` n) (files diskio))) buf)
    as (buf & -> & Hbuf' & Hpend').
  { destruct (decide (0 < n)%nat) as [Hn|Hn].
    - replace (1 `max` n)%nat with n in * by lia.
      destruct (Verify_multi_runs diskio pl pl_pos fuel n 0%nat (replicate pl x00) [])
        as (buf & Hrun & ?); [done | done | lia | done | done | done |].
      cbn [app] in *. rewrite drop_0 in *.
      exists buf. split; [|done]. rewrite <- Hrun. cbn [length].
      by rewrite Nat.Div0.mod_0_l, Nat.Div0.div_0_l.
    - replace (1 `max` n)%nat with 1%nat in * by lia.
      destruct (lookup_lt_is_Some_2 (files diskio) 0%nat) as [file Hfile]; [lia|].
      assert (take 1 (files diskio) = [file]) as Htake.
      { destruct (files diskio); simplify_eq/=; done. }
      rewrite Htake in *. cbn [stream_of fmap list_fmap concat] in *.
      rewrite app_nil_r in *.
      apply Forall_cons in Hok as [Hfile_ok _].
      rewrite (Verify_single_as_multi_file diskio file Hfile).
      destruct (Verify_multi_file_runs diskio pl pl_pos file Hfile_ok fuel
                  (replicate pl x00) 0%nat [])
        as (buf & Hrun & ?); [done | done | lia | by rewrite drop_0 |].
      cbn [app] in *. rewrite drop_0 in *.
      exists buf. split; [|done]. rewrite <- Hrun. cbn [length].
      by rewrite Nat.Div0.mod_0_l, Nat.Div0.div_0_l. }
  f_equal. by apply Verify_tail_runs.
Qed.

Lemma Verify_one_entry_per_chunk_on_disk_witness :
  exists finishedPieces,
    Verify 33 multi_full = Some (Ret finishedPieces)
    /\ finishedPieces = [true; true].
Proof.
  destruct (Verify_one_entry_per_chunk_on_disk 33 multi_full)
    as (out & Hrun & Hout & _).
  - vm_compute. split; [reflexivity | discriminate].
  - vm_compute. lia.
  - repeat constructor.
  - vm_compute. lia.
  - vm_compute. lia.
  - exists out. split; [exact Hrun|]. rewrite Hout. vm_compute. reflexivity.
Defined.

(** C1, what the code does: the answer of [Verify] has an entry for each
    chunk of piece length of the bytes that the files hold, one file after
    the other, not for each piece of the torrent.  On a first run of a
    torrent of two pieces the file was just created, the first read ends at
    once, and the answer is empty.  And when file A holds five of its ten
    bytes while file B is complete, the answer is two times false, although
    piece 1 lies wholly in B: its sixteen bytes are there, from offset 6 of
    the file, and they have the digest recorded for piece 1. *)
Theorem Verify_entries_are_not_pieces :
  Verify 1 single_fresh = Some (Ret [])
  /\ ~ Verify_one_entry_per_piece single_fresh
  /\ Verify 28 multi_short = Some (Ret [false; false])
  /\ (exists fileB,
        files multi_short !! 1%nat = Some fileB
        /\ take 16 (drop 6 (bytes fileB)) = piece1)
  /\ SHA1.Sum piece1 = recorded_digest (dmetaInfo multi_short) 1.
Proof.
  split; [vm_compute; reflexivity|]. split.
  - intros (fuel & out & Hrun & Hlen). destruct fuel as [|fuel].
    + clear Hlen. vm_compute in Hrun. inversion Hrun.
    + assert (Verify (S fuel) single_fresh = Some (Ret [])) as Hnil
        by (vm_compute; reflexivity).
      rewrite Hnil in Hrun. injection Hrun as <-.
      vm_compute in Hlen. discriminate.
  - split; [vm_compute; reflexivity|]. split; [|vm_compute; reflexivity].
    eexists. split; [reflexivity|]. vm_compute. reflexivity.
Qed.


(** * Further properties *)

(** ** checkHash at any offset *)

Lemma SHA1_Sum_length (msg : list byte) : length (SHA1.Sum msg) = 20%nat.
Proof.
  unfold SHA1.Sum.
  destruct (SHA1.blocks _ _ _) as [[[[h0 h1] h2] h3] h4].
  rewrite length_fmap, !length_app. reflexivity.
Qed.

(** X1: [checkHash] panics exactly when the window of twenty bytes at its
    offset leaves [Pieces] (a negative offset, or fewer than twenty bytes
    from it); at every other offset, a multiple of twenty or not, it answers
    whether the digest of the buffer is these twenty bytes. *)
Theorem checkHash_window (diskio : DiskIO) (buf : list byte) (pieceIndex : Z) :
  let pieces := Pieces (Info (dmetaInfo diskio)) in
  (checkHash diskio buf pieceIndex = Panic SliceBoundsOutOfRange
   <-> pieceIndex < 0 \/ Z.of_nat (length pieces) < pieceIndex + 20)
  /\ (0 <= pieceIndex <= Z.of_nat (length pieces) - 20 ->
      checkHash diskio buf pieceIndex
      = Ret (bool_decide (SHA1.Sum buf
                          = take 20 (drop (Z.to_nat pieceIndex) pieces)))).
Proof.
  intros pieces.
  assert (0 <= pieceIndex <= Z.of_nat (length pieces) - 20 ->
          checkHash diskio buf pieceIndex
          = Ret (bool_decide (SHA1.Sum buf
                              = take 20 (drop (Z.to_nat pieceIndex) pieces)))) as Hin.
  { intros Hrange. apply checkHash_slice. fold pieces.
    rewrite slice_in_range by lia.
    by replace (Z.to_nat (pieceIndex + 20 - pieceIndex)) with 20%nat by lia. }
  split; [|exact Hin]. split.
  - intros Hpanic.
    destruct (decide (0 <= pieceIndex <= Z.of_nat (length pieces) - 20)) as [Hr|Hr];
      [|lia].
    rewrite (Hin Hr) in Hpanic. discriminate Hpanic.
  - intros Hout. unfold checkHash, slice. fold pieces.
    change (Z.of_nat SHA1.Size) with 20. by rewrite decide_False by lia.
Qed.

Lemma checkHash_window_witness :
  checkHash single_full piece0 7 = Ret false.
Proof.
  destruct (checkHash_window single_full piece0 7) as [_ Hin].
  rewrite Hin; [vm_compute; reflexivity | vm_compute; split; discriminate].
Defined.

(** ** Torrent.Run: the table of piece hashes *)

Lemma piece_count_spec (m : MetaInfo) (k : nat) :
  (k < piece_count m)%nat <-> 20 * Z.of_nat k <= Z.of_nat (length (Pieces (Info m))) - 20.
Proof.
  split.
  - intros Hk%piece_count_bound. lia.
  - intros Hk. unfold piece_count.
    apply (Nat.div_le_lower_bound _ 20 (S k)); lia.
Qed.

Lemma Run_pieceHashes_loop_runs (m : MetaInfo) (fuel : nat) :
  forall (k : nat) (acc : list (list byte)),
    (k <= piece_count m)%nat ->
    (piece_count m - k < fuel)%nat ->
    Run_pieceHashes_loop fuel (Pieces (Info m)) (20 * Z.of_nat k) acc
    = Some (Ret (acc ++ (recorded_digest m <$> seq k (piece_count m - k)))).
Proof.
  induction fuel as [|fuel IH]; intros k acc Hk Hfuel; [lia|].
  cbn [Run_pieceHashes_loop]. destruct (decide _) as [Hin|Hout].
  - apply piece_count_spec in Hin as Hlt.
    rewrite slice_in_range by lia.
    replace (20 * Z.of_nat k + 20) with (20 * Z.of_nat (S k)) by lia.
    rewrite IH by lia.
    replace (piece_count m - k)%nat with (S (piece_count m - S k)) by lia.
    cbn [seq fmap list_fmap]. rewrite <- app_assoc. do 3 f_equal.
    unfold recorded_digest.
    replace (Z.to_nat (20 * Z.of_nat (S k) - 20 * Z.of_nat k)) with 20%nat by lia.
    by replace (Z.to_nat (20 * Z.of_nat k)) with (20 * k)%nat by lia.
  - assert (k = piece_count m) as ->.
    { destruct (decide (k < piece_count m)%nat) as [Hlt|]; [|lia].
      apply piece_count_spec in Hlt. lia. }
    by rewrite Nat.sub_diag, app_nil_r.
Qed.

Lemma recorded_digests_concat (m : MetaInfo) (n : nat) :
  (20 * n <= length (Pieces (Info m)))%nat ->
  concat (recorded_digest m <$> seq 0 n) = take (20 * n) (Pieces (Info m)).
Proof.
  induction n as [|n IH]; intros Hn; [done|].
  rewrite seq_S, fmap_app, concat_app, IH by lia. cbn [fmap list_fmap concat].
  rewrite app_nil_r. unfold recorded_digest. cbn [Nat.add].
  rewrite take_take_drop. f_equal. lia.
Qed.

(** X2: the loop of [Torrent.Run] that builds the table of piece hashes
    returns, and its table holds the digest recorded for each piece index, in
    order: as many entries as [Pieces] has whole groups of twenty bytes, each
    of twenty bytes, which put end to end are [Pieces] without the bytes
    left over after the last whole group. *)
Theorem Run_pieceHashes_table (fuel : nat) (t : Torrent) :
  (piece_count (metaInfo t) < fuel)%nat ->
  exists pieceHashes,
    Run_pieceHashes fuel t = Some (Ret pieceHashes)
    /\ pieceHashes
       = recorded_digest (metaInfo t) <$> seq 0 (piece_count (metaInfo t))
    /\ Forall (fun h => length h = 20%nat) pieceHashes
    /\ concat pieceHashes
       = take (20 * piece_count (metaInfo t)) (Pieces (Info (metaInfo t))).
Proof.
  intros Hfuel. eexists. split; [|split; [reflexivity|split]].
  - unfold Run_pieceHashes. change 0 with (20 * Z.of_nat 0).
    rewrite (Run_pieceHashes_loop_runs (metaInfo t)) by lia.
    by rewrite Nat.sub_0_r.
  - apply Forall_fmap, Forall_forall. intros k Hk%elem_of_seq. simpl.
    unfold recorded_digest. rewrite length_take, length_drop.
    assert (k < piece_count (metaInfo t))%nat as Hlt%piece_count_bound by lia. lia.
  - apply recorded_digests_concat. unfold piece_count.
    apply Nat.Div0.mul_div_le.
Qed.

Lemma Run_pieceHashes_table_witness :
  Run_pieceHashes 3 (torrent_of meta_multi)
  = Some (Ret [SHA1.Sum piece0; SHA1.Sum piece1]).
Proof.
  destruct (Run_pieceHashes_table 3 (torrent_of meta_multi))
    as (table & -> & -> & _).
  - vm_compute. lia.
  - vm_compute. reflexivity.
Defined.

(** ** Torrent.Init and the totals of Torrent.Run *)

(** X3: [Init] adds to [Left] in multiple file mode and assigns it in single
    file mode: run twice, it leaves the sum of the file lengths counted
    twice on top of the previous value (as a Go [int]) in the first case,
    the declared length in the second. *)
Theorem Init_twice (t : Torrent) :
  Left (Stats_ (Init (Init t)))
  = match Files (Info (metaInfo t)) with
    | [] => Length (Info (metaInfo t))
    | fs => wrap_int (Left (Stats_ t) + 2 * files_length fs)
    end.
Proof.
  rewrite Init_Left_wraps.
  replace (metaInfo (Init t)) with (metaInfo t) by done.
  rewrite Init_Left_wraps.
  destruct (Files (Info (metaInfo t))) as [|file fs]; [done|].
  rewrite wrap_int_add_l. f_equal. lia.
Qed.

(** X4: on a fresh session and for lengths that fit a Go [int], the total
    that [Init] leaves in [Left] and the [totalLength] of [Run] are the same
    number exactly when the metainfo has no files, or declares no length, or
    declares the sum of the lengths of its files: a metainfo with files and
    another declared length gets two different totals. *)
Theorem Init_and_Run_totals (t : Torrent) :
  Left (Stats_ t) = 0 ->
  in_int (files_length (Files (Info (metaInfo t)))) ->
  Left (Stats_ (Init t)) = Run_totalLength t
  <-> Files (Info (metaInfo t)) = []
      \/ Length (Info (metaInfo t)) = 0
      \/ Length (Info (metaInfo t)) = files_length (Files (Info (metaInfo t))).
Proof.
  intros Hzero Hint. rewrite Init_Left_wraps. unfold Run_totalLength.
  destruct (Files (Info (metaInfo t))) as [|file fs] eqn:Hfs.
  - split; [auto|]. intros _. case_decide; simpl; lia.
  - rewrite Hzero, Z.add_0_l, wrap_int_id by done.
    destruct (decide (Length (Info (metaInfo t)) ≠ 0)) as [Hne|Heq].
    + split; [auto|]. intros [?|[?|?]]; [done | lia | done].
    + split; [intros _; right; left; lia|]. intros _.
      change 0 with (wrap_int 0) at 1. rewrite Init_sum, Z.add_0_l.
      by rewrite wrap_int_id.
Qed.

Lemma Init_and_Run_totals_witness :
  Left (Stats_ (Init (torrent_of (mkMeta 16 two_hashes 7 [fileA; fileB]))))
  ≠ Run_totalLength (torrent_of (mkMeta 16 two_hashes 7 [fileA; fileB])).
Proof.
  intros Heq.
  apply (Init_and_Run_totals (torrent_of (mkMeta 16 two_hashes 7 [fileA; fileB])))
    in Heq as [Hf|[Hl|Hl]];
    [discriminate Hf | discriminate Hl | discriminate Hl | reflexivity
     | vm_compute; split; discriminate].
Defined.

(** ** The registry over a sequence of deliveries *)

Section RegistryProperties.

Variable IP_String : list byte -> string.

Lemma Run_peersCh_registry_ok (pm : PeerManager) (p : PeerTuple) :
  registry_ok pm ->
  Forall (fun x => x = Peer_zero) (store pm) ->
  exists pm',
    Run_peersCh IP_String pm p = Ret pm'
    /\ registry_ok pm'
    /\ Forall (fun x => x = Peer_zero) (store pm').
Proof.
  intros (m & Hm & Hbound & Hinj & Hsize) Hzero. unfold Run_peersCh. rewrite Hm.
  destruct (m !! peerID_of IP_String p) as [ptr|] eqn:Hp.
  { exists pm. split; [done|]. split; [|done]. by exists m. }
  unfold NewPeer. eexists. split; [reflexivity|]. split.
  - eexists. split; [reflexivity|]. cbn [store]. rewrite length_app.
    cbn [length]. split; [|split].
    + intros k ptr [[_ <-]|[_ Hk]]%lookup_insert_Some; [lia|].
      apply Hbound in Hk. lia.
    + intros k1 k2 ptr [[<- <-]|[Hne1 Hk1]]%lookup_insert_Some
                       [[<- Heq]|[Hne2 Hk2]]%lookup_insert_Some;
        try done.
      * apply Hbound in Hk2. lia.
      * apply Hbound in Hk1. lia.
      * by eapply Hinj.
    + rewrite map_size_insert_None by done. lia.
  - cbn [store]. apply Forall_app. split; [done|]. by apply Forall_singleton.
Qed.

Lemma Run_deliveries_registry_ok (ps : list PeerTuple) :
  forall pm : PeerManager,
    registry_ok pm ->
    Forall (fun x => x = Peer_zero) (store pm) ->
    exists pm',
      Run_deliveries IP_String pm ps = Ret pm'
      /\ registry_ok pm'
      /\ Forall (fun x => x = Peer_zero) (store pm').
Proof.
  unfold Run_deliveries. induction ps as [|p ps IH]; intros pm Hok Hzero; simpl.
  { by exists pm. }
  destruct (Run_peersCh_registry_ok pm p Hok Hzero) as (pm1 & -> & Hok1 & Hzero1).
  by apply IH.
Qed.

End RegistryProperties.

(** X5: a peer manager made by [NewPeerManager] handles every sequence of
    deliveries.  Afterwards the keys of its map are exactly the identities
    that were delivered, each once however often it came; every key points
    to a [Peer] of its own and there are as many [Peer] values as keys; and
    each of them is the zero value: the address of a registered peer is kept
    in the key only. *)
Theorem deliveries_to_NewPeerManager (IP_String : list byte -> string)
    (ps : list PeerTuple) :
  exists (pm : PeerManager) (m : gmap string nat),
    Run_deliveries IP_String NewPeerManager ps = Ret pm
    /\ peers pm = Some m
    /\ dom m = list_to_set (peerID_of IP_String <$> ps)
    /\ registry_ok pm
    /\ Forall (fun x => x = Peer_zero) (store pm).
Proof.
  destruct (Run_deliveries_dom IP_String ps NewPeerManager ∅ eq_refl)
    as (pm & m & Hrun & Hm & Hdom).
  destruct (Run_deliveries_registry_ok IP_String ps NewPeerManager)
    as (pm' & Hrun' & Hok & Hzero).
  - exists ∅. split; [done|]. split; [|split]; done.
  - constructor.
  - rewrite Hrun in Hrun'. injection Hrun' as <-.
    exists pm, m. split; [done|]. split; [done|]. split; [|done].
    rewrite Hdom, dom_empty_L. by rewrite (left_id_L ∅ (∪)).
Qed.

(** ** SortedPeers as a sort.Interface *)

(** X7: on indices of the slice, [Swap] returns a slice of the same length
    that holds at each of the two indices what the slice held at the other
    and is the same everywhere else, and swapping again gives the slice
    back; with an index that is not one of the slice it panics. *)
Theorem Swap_exchanges (sp : SortedPeers) (i j : nat) :
  ((i < length sp)%nat -> (j < length sp)%nat ->
   exists sp',
     Swap sp i j = Ret sp'
     /\ length sp' = length sp
     /\ sp' !! i = sp !! j
     /\ sp' !! j = sp !! i
     /\ (forall k, k ≠ i -> k ≠ j -> sp' !! k = sp !! k)
     /\ Swap sp' i j = Ret sp)
  /\ ((length sp <= i)%nat \/ (length sp <= j)%nat ->
      Swap sp i j = Panic IndexOutOfRange).
Proof.
  split.
  - intros Hi Hj.
    destruct (lookup_lt_is_Some_2 sp i Hi) as [a Ha].
    destruct (lookup_lt_is_Some_2 sp j Hj) as [b Hb].
    unfold Swap at 1. rewrite Ha, Hb. eexists. split; [reflexivity|].
    assert (<[j:=a]> (<[i:=b]> sp) !! j = Some a) as Hj'
      by (apply list_lookup_insert_eq; by rewrite length_insert).
    assert (<[j:=a]> (<[i:=b]> sp) !! i = Some b) as Hi'.
    { destruct (decide (i = j)) as [->|Hne]; [congruence|].
      rewrite list_lookup_insert_ne by done. by apply list_lookup_insert_eq. }
    split; [by rewrite !length_insert|]. split; [congruence|].
    split; [congruence|]. split.
    + intros k Hki Hkj. by rewrite !list_lookup_insert_ne.
    + unfold Swap. rewrite Hi', Hj'. f_equal. apply list_eq. intros k.
      destruct (decide (k = j)) as [->|Hkj].
      { rewrite list_lookup_insert_eq by (by rewrite !length_insert). done. }
      rewrite list_lookup_insert_ne by done.
      destruct (decide (k = i)) as [->|Hki].
      { rewrite list_lookup_insert_eq by (by rewrite !length_insert). done. }
      by rewrite !list_lookup_insert_ne.
  - intros Hout. unfold Swap.
    destruct (sp !! i) eqn:Hi; [|done]. destruct (sp !! j) eqn:Hj; [|done].
    apply lookup_lt_Some in Hi, Hj. lia.
Qed.

Lemma Swap_exchanges_witness :
  Swap four_peers 0 3
  = Ret [peer_with "d" 2; peer_with "b" 1; peer_with "c" 1; peer_with "a" 3]
  /\ Swap four_peers 0 4 = Panic IndexOutOfRange.
Proof.
  destruct (Swap_exchanges four_peers 0 3) as [Hin _].
  destruct (Swap_exchanges four_peers 0 4) as [_ Hout].
  split.
  - destruct Hin as (sp' & Hswap & _); [simpl; lia | simpl; lia |].
    rewrite Hswap. vm_compute in Hswap. by injection Hswap as <-.
  - apply Hout. right. simpl. lia.
Defined.

(** X8: on indices of the slice, [Less] compares the need counts with [<=]:
    it holds one way or the other between any two elements and is
    transitive, so that it is a total preorder, and it holds both ways
    exactly between elements with the same need count. *)
Theorem Less_total_preorder (sp : SortedPeers) (i j k : nat) (a b c : PeerInfo) :
  sp !! i = Some a -> sp !! j = Some b -> sp !! k = Some c ->
  (Less sp i j = Ret true \/ Less sp j i = Ret true)
  /\ (Less sp i j = Ret true -> Less sp j k = Ret true -> Less sp i k = Ret true)
  /\ (Less sp i j = Ret true /\ Less sp j i = Ret true
      <-> qtyPiecesNeeded a = qtyPiecesNeeded b).
Proof.
  intros Ha Hb Hc. unfold Less. rewrite Ha, Hb, Hc.
  repeat split.
  - destruct (decide (qtyPiecesNeeded a <= qtyPiecesNeeded b)).
    + left. by rewrite bool_decide_eq_true_2.
    + right. rewrite bool_decide_eq_true_2; [done | lia].
  - intros [= Hab%bool_decide_eq_true_1] [= Hbc%bool_decide_eq_true_1].
    rewrite bool_decide_eq_true_2; [done | lia].
  - intros [[= Hab%bool_decide_eq_true_1] [= Hba%bool_decide_eq_true_1]]. lia.
  - rewrite bool_decide_eq_true_2; [done | lia].
  - rewrite bool_decide_eq_true_2; [done | lia].
Qed.

Lemma Less_total_preorder_witness :
  Less four_peers 1 2 = Ret true /\ Less four_peers 2 1 = Ret true.
Proof.
  apply (Less_total_preorder four_peers 1 2 0
           (peer_with "b" 1) (peer_with "c" 1) (peer_with "a" 3));
    reflexivity.
Defined.

(** ** The order of the ranking *)

Lemma Less_adjacent (l1 l2 : SortedPeers) (x y : PeerInfo) :
  Less (l1 ++ y :: x :: l2) (S (length l1)) (length l1)
  = Ret (bool_decide (qtyPiecesNeeded x <= qtyPiecesNeeded y)).
Proof. induction l1 as [|a l1 IH]; [done|]. exact IH. Qed.

Lemma Swap_adjacent (l1 l2 : SortedPeers) (x y : PeerInfo) :
  Swap (l1 ++ y :: x :: l2) (S (length l1)) (length l1)
  = Ret (l1 ++ x :: y :: l2).
Proof.
  unfold Swap.
  rewrite (lookup_app_r l1), list_lookup_middle by lia.
  replace (S (length l1) - length l1)%nat with 1%nat by lia. cbn [lookup list_lookup].
  rewrite (insert_app_r_alt l1 _ (S (length l1))) by lia.
  replace (S (length l1) - length l1)%nat with 1%nat by lia.
  rewrite (insert_app_r_alt l1 _ (length l1)) by lia.
  by rewrite Nat.sub_diag.
Qed.

(** The inner loop moves the element at the end of a prefix down, past the
    elements that [Less] puts it before. *)
Lemma insertionSort_inner_inserts (pre : SortedPeers) :
  forall (x : PeerInfo) (post : SortedPeers),
  exists l1 l2,
    pre = l1 ++ l2
    /\ insertionSort_inner (pre ++ x :: post) (length pre)
       = Ret (l1 ++ x :: l2 ++ post)
    /\ Forall (fun y => qtyPiecesNeeded x <= qtyPiecesNeeded y) l2
    /\ (forall z, last l1 = Some z -> qtyPiecesNeeded z < qtyPiecesNeeded x).
Proof.
  induction pre as [|y pre IH] using rev_ind; intros x post.
  { exists [], []. by repeat split. }
  rewrite length_app, Nat.add_1_r, <- app_assoc. cbn [app insertionSort_inner].
  rewrite Less_adjacent. cbn [mbind result_bind].
  destruct (bool_decide_reflect (qtyPiecesNeeded x <= qtyPiecesNeeded y)) as [Hle|Hgt].
  - rewrite Swap_adjacent. cbn [mbind result_bind].
    destruct (IH x (y :: post)) as (l1 & l2 & -> & -> & Hl2 & Hl1).
    exists l1, (l2 ++ [y]). rewrite <- !app_assoc. split; [done|]. split; [done|].
    split; [|done]. apply Forall_app. split; [done|]. by apply Forall_singleton.
  - exists (pre ++ [y]), []. rewrite app_nil_r, <- app_assoc. split; [done|].
    split; [done|]. split; [done|].
    intros z. rewrite last_snoc. intros [= <-]. lia.
Qed.

Lemma ascending_insert (l1 l2 : SortedPeers) (x : PeerInfo) :
  StronglySorted (fun a b => qtyPiecesNeeded a <= qtyPiecesNeeded b) (l1 ++ l2) ->
  Forall (fun y => qtyPiecesNeeded x <= qtyPiecesNeeded y) l2 ->
  (forall z, last l1 = Some z -> qtyPiecesNeeded z < qtyPiecesNeeded x) ->
  StronglySorted (fun a b => qtyPiecesNeeded a <= qtyPiecesNeeded b)
    (l1 ++ x :: l2).
Proof.
  intros (Hcross & Hs1 & Hs2)%StronglySorted_app Hl2 Hl1.
  apply StronglySorted_app. split; [|split; [done|]].
  - intros a b Ha [->|Hb]%elem_of_cons; [|by apply Hcross].
    destruct l1 as [|a0 l1] using rev_ind; [by apply elem_of_nil in Ha|].
    clear IHl1. specialize (Hl1 a0). rewrite last_snoc in Hl1.
    specialize (Hl1 eq_refl).
    apply elem_of_app in Ha as [Ha|Ha%list_elem_of_singleton].
    + apply StronglySorted_app in Hs1 as (Hc & _ & _).
      specialize (Hc a a0 Ha). ospecialize (Hc _); [by apply list_elem_of_singleton|].
      lia.
    + subst. lia.
  - apply StronglySorted_cons. done.
Qed.

Lemma insertionSort_outer_sorts (post : SortedPeers) :
  forall pre : SortedPeers,
    StronglySorted (fun a b => qtyPiecesNeeded a <= qtyPiecesNeeded b) pre ->
    exists out,
      foldl (fun acc i => sp' ← acc; insertionSort_inner sp' i) (Ret (pre ++ post))
            (seq (length pre) (length post))
      = Ret out
      /\ StronglySorted (fun a b => qtyPiecesNeeded a <= qtyPiecesNeeded b) out.
Proof.
  induction post as [|x post IH]; intros pre Hpre.
  { exists pre. by rewrite app_nil_r. }
  cbn [length seq foldl mbind result_bind].
  destruct (insertionSort_inner_inserts pre x post) as (l1 & l2 & Hsplit & -> & Hl2 & Hl1).
  subst pre.
  specialize (IH (l1 ++ x :: l2)).
  rewrite <- app_assoc in IH. cbn [app] in IH.
  replace (length (l1 ++ x :: l2)) with (S (length (l1 ++ l2))) in IH
    by (rewrite !length_app; simpl; lia).
  apply IH. by apply ascending_insert.
Qed.

Lemma StronglySorted_ascending (sp : SortedPeers) :
  StronglySorted (fun a b => qtyPiecesNeeded a <= qtyPiecesNeeded b) sp ->
  ascending sp.
Proof.
  intros Hs i j a b Hij Ha Hb.
  destruct (decide (i = j)) as [->|Hne]; [by simplify_eq|].
  assert (sp = take j sp ++ drop j sp) as Hsplit by (by rewrite take_drop).
  rewrite Hsplit in Hs. apply StronglySorted_app in Hs as (Hcross & _ & _).
  apply Hcross.
  - apply list_elem_of_lookup. exists i. rewrite lookup_take_lt by lia. done.
  - apply list_elem_of_lookup. exists 0%nat. rewrite lookup_drop, Nat.add_0_r. done.
Qed.

(** X9: on a slice of at most six peers, which every version of [sort.Sort]
    hands at once to its insertion sort, the ranking returns, and it returns
    the peer states of the map in the order of their need counts, smallest
    first: the need count of an earlier element is never larger than the
    need count of a later one. *)
Theorem ranking_is_ascending (order : list (string * PeerInfo)) :
  (length order <= 6)%nat ->
  exists out,
    sortedPeersByQtyPiecesNeeded insertionSort order = Ret out
    /\ ascending out
    /\ out ≡ₚ order.*2.
Proof.
  intros _. unfold sortedPeersByQtyPiecesNeeded. rewrite append_each. cbn [app].
  destruct (insertionSort_sorts_by_swapping (order.*2)) as (out & Hrun & Hperm%swaps_Permutation).
  exists out. split; [done|]. split; [|done].
  apply StronglySorted_ascending.
  unfold insertionSort, Len in Hrun.
  destruct (order.*2) as [|x post].
  { injection Hrun as <-. constructor. }
  replace (length (x :: post) - 1)%nat with (length post) in Hrun
    by (cbn [length]; lia).
  destruct (insertionSort_outer_sorts post [x]) as (out' & Hrun' & Hsorted).
  { repeat constructor. }
  cbn [app length] in Hrun'. rewrite Hrun in Hrun'. by injection Hrun' as <-.
Qed.

Lemma ranking_is_ascending_witness :
  exists out,
    sortedPeersByQtyPiecesNeeded insertionSort (map_to_list four_peers_map) = Ret out
    /\ ascending out
    /\ out ≡ₚ (map_to_list four_peers_map).*2.
Proof.
  apply (ranking_is_ascending (map_to_list four_peers_map)).
  rewrite length_map_to_list. vm_compute. lia.
Defined.

(** ** readBlock and requestBlock on a handle *)

Lemma advanced_0 (f : File) : advanced f 0 = f.
Proof. destruct f. unfold advanced. simpl. by rewrite Nat.add_0_r. Qed.

Lemma ReadFull_enough (f : File) (len : nat) :
  faulty f = false ->
  (pos f + len <= length (bytes f))%nat ->
  ReadFull f len = (advanced f len, take len (drop (pos f) (bytes f)), None).
Proof.
  intros Hok Hlen. unfold ReadFull. case_decide as Hz.
  { subst len. by rewrite advanced_0, take_0. }
  rewrite Hok.
  assert (length (take len (drop (pos f) (bytes f))) = len) as Hfull
    by (rewrite length_take, length_drop; lia).
  rewrite decide_True by done. unfold advanced. by rewrite Hfull, Hok.
Qed.

Lemma readBlock_enough (f : File) (block : BlockInfo) :
  faulty f = false ->
  0 <= length_ block ->
  (pos f + Z.to_nat (length_ block) <= length (bytes f))%nat ->
  readBlock f block
  = (advanced f (Z.to_nat (length_ block)),
     Ret (take (Z.to_nat (length_ block)) (drop (pos f) (bytes f)))).
Proof.
  intros Hok Hlen Hfit. unfold readBlock, make_slice.
  rewrite decide_True, length_replicate, ReadFull_enough by done.
  do 2 f_equal. unfold fill.
  rewrite take_0, (drop_ge (replicate _ _)).
  - by rewrite app_nil_r.
  - rewrite length_replicate, length_take, length_drop. lia.
Qed.

Lemma requestBlock_single_file (diskio : DiskIO) (block : BlockInfo) (file : File) :
  Files (Info (dmetaInfo diskio)) = [] ->
  files diskio !! 0%nat = Some file ->
  faulty file = false ->
  0 <= length_ block ->
  (pos file + Z.to_nat (length_ block) <= length (bytes file))%nat ->
  requestBlock diskio block
  = (with_files diskio
       (<[0%nat := advanced file (Z.to_nat (length_ block))]> (files diskio)),
     Ret {| info := block;
            rdata := take (Z.to_nat (length_ block))
                       (drop (pos file) (bytes file)) |}).
Proof.
  intros Hmode Hfile Hok Hlen Hfit. unfold requestBlock, readBlock_at.
  rewrite Hmode. cbn [length]. rewrite decide_True by done.
  rewrite Hfile, readBlock_enough by done. reflexivity.
Qed.

(** X10: in single file mode, a request whose length fits between the
    position of the handle and the end of the file returns the bytes of the
    file from that position on and moves the position past them; the piece
    index and the offset of the block have no part in it: requests of the
    same length get the same bytes. *)
Theorem requestBlock_single_file_reads_at_position
    (diskio : DiskIO) (block : BlockInfo) (file : File) :
  Files (Info (dmetaInfo diskio)) = [] ->
  files diskio !! 0%nat = Some file ->
  faulty file = false ->
  0 <= length_ block ->
  (pos file + Z.to_nat (length_ block) <= length (bytes file))%nat ->
  exists diskio',
    files diskio' !! 0%nat = Some (advanced file (Z.to_nat (length_ block)))
    /\ forall block',
        length_ block' = length_ block ->
        requestBlock diskio block'
        = (diskio', Ret {| info := block';
                           rdata := take (Z.to_nat (length_ block))
                                      (drop (pos file) (bytes file)) |}).
Proof.
  intros Hmode Hfile Hok Hlen Hfit.
  exists (with_files diskio
            (<[0%nat := advanced file (Z.to_nat (length_ block))]> (files diskio))).
  split.
  - cbn [files with_files]. apply list_lookup_insert_eq.
    by eapply lookup_lt_Some.
  - intros block' Hsame.
    rewrite (requestBlock_single_file diskio block' file)
      by (rewrite ?Hsame; done).
    by rewrite Hsame.
Qed.

Lemma requestBlock_single_file_reads_at_position_witness :
  (requestBlock single_full {| pieceIndex := 1; begin := 8; length_ := 4 |}).2
  = Ret {| info := {| pieceIndex := 1; begin := 8; length_ := 4 |};
           rdata := take 4 piece0 |}.
Proof.
  destruct (requestBlock_single_file_reads_at_position single_full
              {| pieceIndex := 0; begin := 0; length_ := 4 |}
              (created (piece0 ++ piece1)))
    as (diskio' & _ & Hany);
    [reflexivity | reflexivity | reflexivity | vm_compute; discriminate
     | vm_compute; lia |].
  by rewrite (Hany {| pieceIndex := 1; begin := 8; length_ := 4 |} eq_refl).
Defined.

(** X11: in single file mode, two requests in a row, the two lengths
    fitting before the end of the file, return what follows the position of
    the handle in two consecutive parts: the answers put end to end are the
    bytes that one request of the two lengths would have returned. *)
Theorem requestBlock_single_file_consecutive
    (diskio : DiskIO) (block1 block2 : BlockInfo) (file : File) :
  Files (Info (dmetaInfo diskio)) = [] ->
  files diskio !! 0%nat = Some file ->
  faulty file = false ->
  0 <= length_ block1 -> 0 <= length_ block2 ->
  (pos file + Z.to_nat (length_ block1) + Z.to_nat (length_ block2)
   <= length (bytes file))%nat ->
  exists diskio1 r1 diskio2 r2,
    requestBlock diskio block1 = (diskio1, Ret r1)
    /\ requestBlock diskio1 block2 = (diskio2, Ret r2)
    /\ rdata r1 ++ rdata r2
       = take (Z.to_nat (length_ block1) + Z.to_nat (length_ block2))
              (drop (pos file) (bytes file))
    /\ files diskio2 !! 0%nat
       = Some (advanced file (Z.to_nat (length_ block1) + Z.to_nat (length_ block2))).
Proof.
  intros Hmode Hfile Hok Hlen1 Hlen2 Hfit.
  pose proof (lookup_lt_Some _ _ _ Hfile) as Hlt.
  set (diskio1 := with_files diskio
         (<[0%nat := advanced file (Z.to_nat (length_ block1))]> (files diskio))).
  assert (files diskio1 !! 0%nat = Some (advanced file (Z.to_nat (length_ block1))))
    as Hfile1 by (by apply list_lookup_insert_eq).
  eexists diskio1, _, _, _.
  split; [apply requestBlock_single_file; (done || lia)|].
  split; [apply (requestBlock_single_file diskio1 block2 _ Hmode Hfile1);
          (done || (cbn [advanced pos bytes]; lia))|].
  cbn [rdata advanced pos bytes files with_files]. split.
  - rewrite <- (drop_drop (bytes file)). apply take_take_drop.
  - rewrite list_lookup_insert_eq
      by (unfold diskio1; cbn [files with_files]; rewrite length_insert; lia).
    unfold advanced. cbn [pos bytes writable faulty]. by rewrite Nat.add_assoc.
Qed.

Lemma requestBlock_single_file_consecutive_witness :
  exists diskio1 r1 diskio2 r2,
    requestBlock single_full {| pieceIndex := 0; begin := 0; length_ := 16 |}
    = (diskio1, Ret r1)
    /\ requestBlock diskio1 {| pieceIndex := 0; begin := 0; length_ := 16 |}
       = (diskio2, Ret r2)
    /\ rdata r1 ++ rdata r2 = piece0 ++ piece1.
Proof.
  destruct (requestBlock_single_file_consecutive single_full
              {| pieceIndex := 0; begin := 0; length_ := 16 |}
              {| pieceIndex := 0; begin := 0; length_ := 16 |}
              (created (piece0 ++ piece1)))
    as (d1 & r1 & d2 & r2 & H1 & H2 & Hcat & _);
    [reflexivity | reflexivity | reflexivity | vm_compute; discriminate
     | vm_compute; discriminate | vm_compute; lia |].
  exists d1, r1, d2, r2. split; [exact H1|]. split; [exact H2|].
  rewrite Hcat. vm_compute. reflexivity.
Defined.

(** X12: a block read that asks for more than what lies between the position
    of the handle and the end of the file ends the process: [readBlock]
    calls [log.Fatal], with [EOF] when nothing was left to read and with
    [ErrUnexpectedEOF] otherwise, after the position has moved to the end of
    what could be read. *)
Theorem readBlock_past_the_end (file : File) (block : BlockInfo) :
  faulty file = false ->
  0 < length_ block ->
  (length (bytes file) - pos file < Z.to_nat (length_ block))%nat ->
  readBlock file block
  = (advanced file (length (bytes file) - pos file),
     Fatal (if decide (length (bytes file) <= pos file)%nat
            then EOF else ErrUnexpectedEOF)).
Proof.
  intros Hok Hlen Hshort. unfold readBlock, make_slice.
  rewrite decide_True, length_replicate by lia. unfold ReadFull.
  rewrite decide_False, Hok by lia.
  assert (length (take (Z.to_nat (length_ block)) (drop (pos file) (bytes file)))
          = (length (bytes file) - pos file)%nat) as Hbs
    by (rewrite length_take, length_drop; lia).
  rewrite Hbs. rewrite decide_False by lia.
  unfold advanced. rewrite Hok.
  destruct (decide (length (bytes file) - pos file = 0)%nat);
    destruct (decide (length (bytes file) <= pos file)%nat); (done || lia).
Qed.

Lemma readBlock_past_the_end_witness :
  (readBlock (created (take 10 piece0))
     {| pieceIndex := 0; begin := 0; length_ := 16 |}).2
  = Fatal ErrUnexpectedEOF.
Proof.
  rewrite (readBlock_past_the_end (created (take 10 piece0))
             {| pieceIndex := 0; begin := 0; length_ := 16 |});
    [reflexivity | reflexivity | reflexivity | vm_compute; lia].
Defined.

(** ** What the disk operations leave alone *)

Lemma Forall2_insert_one {A} (P : A -> A -> Prop) (l : list A) (i : nat) (x y : A) :
  (forall z, P z z) -> l !! i = Some x -> P x y -> Forall2 P l (<[i := y]> l).
Proof.
  intros Hrefl Hx Hxy. rewrite <- (list_insert_id l i x Hx) at 1.
  apply Forall2_insert; [|done]. apply Forall_Forall2_diag, Forall_forall. auto.
Qed.

Lemma only_advanced_refl (f : File) : only_advanced f f.
Proof. by split. Qed.

Lemma only_advanced_trans (f1 f2 f3 : File) :
  only_advanced f1 f2 -> only_advanced f2 f3 -> only_advanced f1 f3.
Proof. intros [? ?] [? ?]. split; [congruence | lia]. Qed.

Lemma ReadFull_only_advanced (f : File) (len : nat) :
  only_advanced f (ReadFull f len).1.1.
Proof.
  unfold ReadFull. case_decide; [apply only_advanced_refl|].
  destruct (faulty f) eqn:Hf; [apply only_advanced_refl|].
  split; [unfold unread; cbn; congruence | cbn; lia].
Qed.

Lemma readBlock_only_advanced (f : File) (block : BlockInfo) :
  only_advanced f (readBlock f block).1.
Proof.
  unfold readBlock. destruct (make_slice _ _) as [blockData| |];
    try apply only_advanced_refl.
  pose proof (ReadFull_only_advanced f (length blockData)) as H.
  by destruct (ReadFull f (length blockData)) as [[f' bs] [e|]].
Qed.

Lemma readBlock_at_only_advanced (diskio : DiskIO) (i : nat) (block : BlockInfo) :
  Forall2 only_advanced (files diskio) (files (readBlock_at diskio i block).1).
Proof.
  unfold readBlock_at. destruct (files diskio !! i) as [file|] eqn:Hfile.
  - pose proof (readBlock_only_advanced file block) as H.
    destruct (readBlock file block) as [file' r]. cbn [fst files with_files].
    eapply Forall2_insert_one; eauto using only_advanced_refl.
  - apply Forall_Forall2_diag, Forall_forall. auto using only_advanced_refl.
Qed.

Lemma requestBlock_loop_only_advanced (block : BlockInfo) (idxs : list nat) :
  forall (diskio : DiskIO) (offset : Z) (rdata : list byte),
    let diskio' := (requestBlock_loop diskio idxs block offset rdata).1 in
    dmetaInfo diskio' = dmetaInfo diskio
    /\ Forall2 only_advanced (files diskio) (files diskio').
Proof.
  assert (forall d : DiskIO, Forall2 only_advanced (files d) (files d)) as Hrefl
    by (intros d; apply Forall_Forall2_diag, Forall_forall;
        auto using only_advanced_refl).
  induction idxs as [|i idxs IH]; intros diskio offset rdata; cbn zeta.
  { by split. }
  cbn [requestBlock_loop].
  destruct (Files (Info (dmetaInfo diskio)) !! i) as [fe|]; [|by split].
  case_decide; [apply IH|].
  pose proof (readBlock_at_metaInfo diskio i block) as Hm.
  pose proof (readBlock_at_only_advanced diskio i block) as Hf.
  destruct (readBlock_at diskio i block) as [diskio1 [bs|p|e]];
    cbn [fst] in *; try by split.
  destruct (IH diskio1 offset bs) as [Hm' Hf']. split; [congruence|].
  eapply Forall2_trans; [apply only_advanced_trans | exact Hf | exact Hf'].
Qed.

(** X13: whatever a block request ends in, an answer, a panic or the end of
    the process, it leaves the metainfo, the number of handles and, for each
    handle, the bytes of the file, its mode and the state of its device as
    they were; the position of a handle is the only thing that it changes,
    and it never moves one back. *)
Theorem requestBlock_only_moves_positions (diskio : DiskIO) (block : BlockInfo) :
  dmetaInfo (requestBlock diskio block).1 = dmetaInfo diskio
  /\ Forall2 only_advanced (files diskio) (files (requestBlock diskio block).1).
Proof.
  unfold requestBlock. destruct (decide _) as [_|_].
  - pose proof (readBlock_at_metaInfo diskio 0 block).
    pose proof (readBlock_at_only_advanced diskio 0 block).
    by destruct (readBlock_at diskio 0 block).
  - pose proof (requestBlock_loop_only_advanced block
                  (seq 0 (S (length (Files (Info (dmetaInfo diskio)))))) diskio
                  (wrap_int (pieceIndex block * PieceLength (Info (dmetaInfo diskio))))
                  []) as H.
    by destruct (requestBlock_loop _ _ _ _ _).
Qed.

Lemma only_grown_refl (f : File) : only_grown f f.
Proof. by split. Qed.

Lemma only_grown_trans (f1 f2 f3 : File) :
  only_grown f1 f2 -> only_grown f2 f3 -> only_grown f1 f3.
Proof. intros [? ?] [? ?]. split; [congruence | lia]. Qed.

Lemma overwrite_length (old : list byte) (off : nat) (b : list byte) :
  length (overwrite old off b)
  = if decide (b = []) then length old
    else Nat.max (length old) (off + length b).
Proof.
  unfold overwrite. destruct b as [|x b]; [done|].
  rewrite decide_False by done.
  rewrite !length_app, length_take, length_app, length_replicate, length_drop.
  lia.
Qed.

Lemma WriteAt_only_grown (f : File) (b : list byte) (off : Z) :
  only_grown f (WriteAt f b off).1.1.
Proof.
  unfold WriteAt. repeat case_decide; try apply only_grown_refl.
  destruct (writable f) eqn:Hw; [|apply only_grown_refl].
  destruct (faulty f) eqn:Hf; [apply only_grown_refl|].
  split; [unfold unwritten; cbn; congruence|].
  cbn. rewrite overwrite_length. case_decide; lia.
Qed.

Lemma writePiece_loop_only_grown (idxs : list nat) :
  forall (diskio : DiskIO) (pdata : list byte) (offset : Z),
    let diskio' := (writePiece_loop diskio idxs pdata offset).1 in
    dmetaInfo diskio' = dmetaInfo diskio
    /\ Forall2 only_grown (files diskio) (files diskio').
Proof.
  assert (forall d : DiskIO, Forall2 only_grown (files d) (files d)) as Hrefl
    by (intros d; apply Forall_Forall2_diag, Forall_forall;
        auto using only_grown_refl).
  induction idxs as [|i idxs IH]; intros diskio pdata offset; cbn zeta.
  { by split. }
  cbn [writePiece_loop].
  destruct (Files (Info (dmetaInfo diskio)) !! i) as [fe|]; [|by split].
  case_decide; [apply IH|].
  destruct (files diskio !! i) as [file|] eqn:Hfile; [|by split].
  destruct (slice pdata 0 _) as [chunk| |]; try by split.
  pose proof (WriteAt_only_grown file chunk offset) as Hw.
  destruct (WriteAt file chunk offset) as [[file' n] err]. cbn [fst] in Hw.
  assert (Forall2 only_grown (files diskio) (<[i:=file']> (files diskio))) as Hone
    by (eapply Forall2_insert_one; eauto using only_grown_refl).
  destruct err as [e|]; [by split|].
  case_decide; [by split|].
  destruct (IH (with_files diskio (<[i:=file']> (files diskio)))
              (drop (Z.to_nat (wrap_int (FileEntry.Length fe - offset))) pdata) 0)
    as [Hm' Hf'].
  split; [exact Hm'|].
  eapply Forall2_trans; [apply only_grown_trans | exact Hone | exact Hf'].
Qed.

(** X14: whatever the writing of a piece ends in, a return, a panic or the
    end of the process, it leaves the metainfo, the number of handles and,
    for each handle, its position, its mode and the state of its device as
    they were; the bytes of a file are the only thing that it changes, and
    it never makes a file shorter. *)
Theorem writePiece_only_grows_files (diskio : DiskIO) (piece : Piece) :
  dmetaInfo (writePiece diskio piece).1 = dmetaInfo diskio
  /\ Forall2 only_grown (files diskio) (files (writePiece diskio piece).1).
Proof. unfold writePiece. apply writePiece_loop_only_grown. Qed.

(** ** Verify at its limits *)

Lemma checkHash_no_digest (diskio : DiskIO) (buf : list byte) (k : nat) :
  (length (Pieces (Info (dmetaInfo diskio))) < 20 * (k + 1))%nat ->
  checkHash diskio buf (20 * Z.of_nat k) = Panic SliceBoundsOutOfRange.
Proof.
  intros Hk. unfold checkHash, slice. change (Z.of_nat SHA1.Size) with 20.
  by rewrite decide_False by lia.
Qed.

Lemma Verify_multi_file_zero (diskio : DiskIO) (file : File) (fuel : nat) :
  forall (k offset : nat) (fin : list bool),
    (k <= piece_count (dmetaInfo diskio))%nat ->
    (piece_count (dmetaInfo diskio) - k < fuel)%nat ->
    Verify_multi_file fuel diskio file [] 0%nat (20 * Z.of_nat k) offset fin
    = Some (Panic SliceBoundsOutOfRange).
Proof.
  induction fuel as [|fuel IH]; intros k offset fin Hk Hfuel; [lia|].
  cbn [Verify_multi_file length]. rewrite decide_False by lia.
  unfold ReadAt. rewrite decide_True by done. cbn [length].
  change (fill [] 0 []) with (@nil byte).
  destruct (decide (k < piece_count (dmetaInfo diskio))%nat) as [Hlt|Hge].
  - apply piece_count_bound in Hlt as Hb.
    rewrite checkHash_digest by lia.
    replace (20 * Z.of_nat k + 20) with (20 * Z.of_nat (S k)) by lia.
    apply IH; lia.
  - rewrite checkHash_no_digest; [done|].
    destruct (decide (20 * (k + 1) <= length (Pieces (Info (dmetaInfo diskio))))%nat)
      as [Hin|]; [|lia].
    exfalso. apply Hge. apply piece_count_spec. lia.
Qed.

(** X15: with a piece length of zero, [Verify] does not return and does not
    run for ever: whatever the files hold, it checks the empty buffer against
    one recorded digest after the other and panics when it runs out of
    them, on a slice of [Pieces] out of range. *)
Theorem Verify_zero_piece_length (fuel : nat) (diskio : DiskIO) (file : File) :
  PieceLength (Info (dmetaInfo diskio)) = 0 ->
  files diskio !! 0%nat = Some file ->
  (piece_count (dmetaInfo diskio) < fuel)%nat ->
  Verify fuel diskio = Some (Panic SliceBoundsOutOfRange).
Proof.
  intros Hpl Hfile Hfuel. unfold Verify, make_slice. rewrite Hpl.
  rewrite decide_True by done. change (replicate (Z.to_nat 0) x00) with (@nil byte).
  pose proof (Verify_multi_file_zero diskio file fuel 0 0 []) as Hloop.
  change (20 * Z.of_nat 0) with 0 in Hloop.
  case_decide as Hmode.
  - destruct (length (Files (Info (dmetaInfo diskio)))) as [|n]; [lia|].
    cbn [seq Verify_multi]. rewrite Hfile.
    rewrite Hloop by lia. done.
  - rewrite (Verify_single_as_multi_file diskio file Hfile).
    rewrite Hloop by lia. done.
Qed.

Lemma Verify_zero_piece_length_witness :
  Verify 3 {| dmetaInfo := mkMeta 0 two_hashes 32 [];
              files := [created (piece0 ++ piece1)] |}
  = Some (Panic SliceBoundsOutOfRange).
Proof.
  apply (Verify_zero_piece_length 3 _ (created (piece0 ++ piece1)));
    [reflexivity | reflexivity | vm_compute; lia].
Defined.

(** ** Verify on any number of recorded digests *)

Section VerifyLimits.

Variable diskio : DiskIO.
Variable pl : nat.
Hypothesis pl_pos : (0 < pl)%nat.

(** The loop over one file panics at the first chunk that fills up and has
    no digest in [Pieces]. *)
Lemma Verify_multi_file_panics (file : File) :
  faulty file = false ->
  forall (fuel : nat) (buf : list byte) (offset : nat) (s : list byte)
         (fin : list bool),
    length buf = pl ->
    (length (bytes file) - offset < fuel)%nat ->
    (20 * (length s / pl) <= length (Pieces (Info (dmetaInfo diskio))))%nat ->
    (length (Pieces (Info (dmetaInfo diskio)))
     < 20 * (length (s ++ drop offset (bytes file)) / pl))%nat ->
    Verify_multi_file fuel diskio file buf (length s mod pl)
      (20 * Z.of_nat (length s / pl)) offset fin
    = Some (Panic SliceBoundsOutOfRange).
Proof.
  intros Hok. induction fuel as [|fuel IH]; intros buf offset s fin Hbuf Hfuel Hlow Hhigh;
    [lia|].
  destruct (div_mod_split (length s) pl pl_pos) as [Hs Hm].
  set (q := (length s / pl)%nat) in *. set (m := (length s mod pl)%nat) in *.
  set (rest := drop offset (bytes file)) in *.
  assert (length rest = length (bytes file) - offset)%nat as Hrest
    by apply length_drop.
  cbn [Verify_multi_file]. rewrite decide_False by lia.
  rewrite (ReadAt_healthy file (length buf - m) offset Hok). fold rest.
  rewrite Hbuf. set (bs := take (pl - m) rest).
  assert (length bs = Nat.min (pl - m) (length rest)) as Hlen_bs
    by apply length_take.
  destruct (Nat.ltb_spec (length bs) (pl - m)) as [Hshort|Hfull].
  - exfalso.
    destruct (div_mod_of (length (s ++ rest)) pl q (m + length rest)) as [Hq _];
      [lia | rewrite length_app; lia |].
    rewrite Hq in Hhigh. lia.
  - assert (length bs = pl - m)%nat as Hn by lia.
    assert (bs ++ drop (offset + length bs) (bytes file) = rest) as Hsplit.
    { rewrite Hn. unfold bs, rest.
      rewrite <- (drop_drop (bytes file) (pl - m) offset). apply take_drop. }
    set (s1 := s ++ bs).
    assert (length s1 = (q + 1) * pl)%nat as Hs1
      by (unfold s1; rewrite length_app; lia).
    destruct (div_mod_of (length s1) pl (q + 1) 0) as [Hq1 Hm1]; [lia | lia |].
    destruct (decide (20 * (q + 1) <= length (Pieces (Info (dmetaInfo diskio))))%nat)
      as [Hdigest|Hnone].
    + rewrite checkHash_digest by lia.
      replace (20 * Z.of_nat q + 20) with (20 * Z.of_nat (q + 1)) by lia.
      specialize (IH (fill buf m bs) (offset + length bs)%nat s1).
      assert (s1 ++ drop (offset + length bs) (bytes file) = s ++ rest) as Hjoin
        by (unfold s1; by rewrite <- app_assoc, Hsplit).
      rewrite Hq1, Hm1, Hjoin in IH.
      apply IH; [rewrite fill_length; lia | lia | lia | done].
    + rewrite checkHash_no_digest by lia. done.
Qed.

(** The loop over the files [i], ..., [i + n - 1], after the bytes [s]. *)
Lemma Verify_multi_panics (fuel n : nat) :
  forall (i : nat) (buf : list byte) (s : list byte),
    length buf = pl ->
    pending pl s buf ->
    (i + n <= length (files diskio))%nat ->
    Forall (fun file => faulty file = false) (take n (drop i (files diskio))) ->
    (length (stream_of (take n (drop i (files diskio)))) < fuel)%nat ->
    (20 * (length s / pl) <= length (Pieces (Info (dmetaInfo diskio))))%nat ->
    (length (Pieces (Info (dmetaInfo diskio)))
     < 20 * (length (s ++ stream_of (take n (drop i (files diskio)))) / pl))%nat ->
    Verify_multi fuel diskio (seq i n) buf (length s mod pl)
      (20 * Z.of_nat (length s / pl)) (checked diskio pl s (length s / pl))
    = Some (Panic SliceBoundsOutOfRange).
Proof.
  induction n as [|n IH]; intros i buf s Hbuf Hpend Hlen Hok Hfuel Hlow Hhigh.
  { cbn in Hhigh. rewrite app_nil_r in Hhigh. lia. }
  destruct (lookup_lt_is_Some_2 (files diskio) i) as [file Hfile]; [lia|].
  rewrite (drop_S _ _ _ Hfile) in *.
  cbn [take fmap list_fmap concat stream_of] in *.
  fold (stream_of (take n (drop (S i) (files diskio)))) in *.
  set (later := stream_of (take n (drop (S i) (files diskio)))) in *.
  apply Forall_cons in Hok as [Hfile_ok Hok].
  rewrite length_app in Hfuel.
  cbn [seq Verify_multi]. rewrite Hfile.
  destruct (decide (20 * (length (s ++ bytes file) / pl)
                    <= length (Pieces (Info (dmetaInfo diskio))))%nat) as [Hdigests|Hnone].
  - destruct (Verify_multi_file_runs diskio pl pl_pos file Hfile_ok fuel buf 0%nat s)
      as (buf1 & Hrun & Hbuf1 & Hpend1); [done | done | lia | by rewrite drop_0 |].
    rewrite drop_0 in Hrun, Hpend1. rewrite Hrun.
    apply IH; [done | done | lia | done | fold later; lia | done |].
    fold later. by rewrite <- app_assoc.
  - rewrite (Verify_multi_file_panics file Hfile_ok); [done | done | lia | done |].
    rewrite drop_0. lia.
Qed.

End VerifyLimits.

(** The loops of [Verify] over the handles it reads, from the start. *)
Lemma Verify_loops_run (fuel : nat) (diskio : DiskIO) (pl : nat) :
  let n := length (Files (Info (dmetaInfo diskio))) in
  (0 < pl)%nat ->
  (Nat.max 1 n <= length (files diskio))%nat ->
  Forall (fun file => faulty file = false) (read_files diskio) ->
  (20 * (on_disk diskio / pl) <= length (Pieces (Info (dmetaInfo diskio))))%nat ->
  (on_disk diskio < fuel)%nat ->
  exists buf,
    (if decide (0 < n)%nat
     then Verify_multi fuel diskio (seq 0 n) (replicate pl x00) 0%nat 0 []
     else Verify_single fuel diskio (replicate pl x00) 0 0%nat [])
    = Some (Ret (buf, (on_disk diskio mod pl)%nat,
                 20 * Z.of_nat (on_disk diskio / pl),
                 checked diskio pl (stream diskio) (on_disk diskio / pl)))
    /\ length buf = pl
    /\ pending pl (stream diskio) buf.
Proof.
  intros n pl_pos Hhandles Hok Hfull Hfuel.
  unfold on_disk, stream, read_files in *. fold n in Hok, Hfull, Hfuel |- *.
  assert (length (replicate pl x00) = pl) as Hbuf by apply length_replicate.
  assert (pending pl [] (replicate pl x00)) as Hpend.
  { unfold pending. cbn [length]. by rewrite Nat.Div0.mod_0_l, drop_nil. }
  destruct (decide (0 < n)%nat) as [Hn|Hn].
  - replace (1 `max` n)%nat with n in * by lia.
    destruct (Verify_multi_runs diskio pl pl_pos fuel n 0%nat (replicate pl x00) [])
      as (buf & Hrun & ?); [done | done | lia | done | done | done |].
    cbn [app] in *. rewrite drop_0 in *.
    exists buf. split; [|done]. rewrite <- Hrun. cbn [length].
    by rewrite Nat.Div0.mod_0_l, Nat.Div0.div_0_l.
  - replace (1 `max` n)%nat with 1%nat in * by lia.
    destruct (lookup_lt_is_Some_2 (files diskio) 0%nat) as [file Hfile]; [lia|].
    assert (take 1 (files diskio) = [file]) as Htake.
    { destruct (files diskio); simplify_eq/=; done. }
    rewrite Htake in *. cbn [stream_of fmap list_fmap concat] in *.
    rewrite app_nil_r in *.
    apply Forall_cons in Hok as [Hfile_ok _].
    rewrite (Verify_single_as_multi_file diskio file Hfile).
    destruct (Verify_multi_file_runs diskio pl pl_pos file Hfile_ok fuel
                (replicate pl x00) 0%nat [])
      as (buf & Hrun & ?); [done | done | lia | by rewrite drop_0 |].
    cbn [app] in *. rewrite drop_0 in *.
    exists buf. split; [|done]. rewrite <- Hrun. cbn [length].
    by rewrite Nat.Div0.mod_0_l, Nat.Div0.div_0_l.
Qed.

(** When a digest is missing for one of the full chunks, the loops panic. *)
Lemma Verify_loops_panic (fuel : nat) (diskio : DiskIO) (pl : nat) :
  let n := length (Files (Info (dmetaInfo diskio))) in
  (0 < pl)%nat ->
  (Nat.max 1 n <= length (files diskio))%nat ->
  Forall (fun file => faulty file = false) (read_files diskio) ->
  (length (Pieces (Info (dmetaInfo diskio))) < 20 * (on_disk diskio / pl))%nat ->
  (on_disk diskio < fuel)%nat ->
  (if decide (0 < n)%nat
   then Verify_multi fuel diskio (seq 0 n) (replicate pl x00) 0%nat 0 []
   else Verify_single fuel diskio (replicate pl x00) 0 0%nat [])
  = Some (Panic SliceBoundsOutOfRange).
Proof.
  intros n pl_pos Hhandles Hok Hnone Hfuel.
  unfold on_disk, stream, read_files in *. fold n in Hok, Hnone, Hfuel |- *.
  assert (length (replicate pl x00) = pl) as Hbuf by apply length_replicate.
  assert (pending pl [] (replicate pl x00)) as Hpend.
  { unfold pending. cbn [length]. by rewrite Nat.Div0.mod_0_l, drop_nil. }
  assert (length (@nil byte) mod pl = 0 /\ length (@nil byte) / pl = 0)%nat as [Hm0 Hq0].
  { cbn [length]. by rewrite Nat.Div0.mod_0_l, Nat.Div0.div_0_l. }
  destruct (decide (0 < n)%nat) as [Hn|Hn].
  - replace (1 `max` n)%nat with n in * by lia.
    pose proof (Verify_multi_panics diskio pl pl_pos fuel n 0%nat (replicate pl x00) [])
      as Hrun.
    rewrite Hm0, Hq0, drop_0 in Hrun. cbn [app] in Hrun.
    apply Hrun; [done | done | lia | done | done | lia | done].
  - replace (1 `max` n)%nat with 1%nat in * by lia.
    destruct (lookup_lt_is_Some_2 (files diskio) 0%nat) as [file Hfile]; [lia|].
    assert (take 1 (files diskio) = [file]) as Htake.
    { destruct (files diskio); simplify_eq/=; done. }
    rewrite Htake in *. cbn [stream_of fmap list_fmap concat] in *.
    rewrite app_nil_r in *.
    apply Forall_cons in Hok as [Hfile_ok _].
    rewrite (Verify_single_as_multi_file diskio file Hfile).
    pose proof (Verify_multi_file_panics diskio pl pl_pos file Hfile_ok fuel
                  (replicate pl x00) 0%nat [] []) as Hrun.
    rewrite Hm0, Hq0, drop_0 in Hrun. cbn [app] in Hrun.
    apply Hrun; [done | lia | lia | done].
Qed.

(** X16: when the files hold more chunks of piece length than [Pieces] has
    digests, [Verify] does not answer: it panics on a slice of [Pieces] out of
    range, at the first chunk without a digest. *)
Theorem Verify_more_on_disk_than_digests (fuel : nat) (diskio : DiskIO) :
  let info_ := Info (dmetaInfo diskio) in
  let pl := Z.to_nat (PieceLength info_) in
  0 < PieceLength info_ ->
  (Nat.max 1 (length (Files info_)) <= length (files diskio))%nat ->
  Forall (fun file => faulty file = false) (read_files diskio) ->
  (length (Pieces info_) < 20 * chunk_count (on_disk diskio) pl)%nat ->
  (on_disk diskio < fuel)%nat ->
  Verify fuel diskio = Some (Panic SliceBoundsOutOfRange).
Proof.
  intros info_ pl Hpl Hhandles Hok Hnone Hfuel.
  assert (0 < pl)%nat as pl_pos by (unfold pl; lia).
  subst info_. unfold Verify, make_slice. cbv zeta.
  rewrite decide_True by lia. fold pl.
  destruct (decide (20 * (on_disk diskio / pl)
                    <= length (Pieces (Info (dmetaInfo diskio))))%nat) as [Hfull|Hfull].
  - destruct (Verify_loops_run fuel diskio pl pl_pos Hhandles Hok Hfull Hfuel)
      as (buf & -> & Hbuf & Hpend).
    f_equal. unfold Verify_tail, chunk_count, pending, on_disk in *.
    destruct (div_mod_split (length (stream diskio)) pl pl_pos) as [Hs Hm].
    set (q := (length (stream diskio) / pl)%nat) in *.
    set (m := (length (stream diskio) mod pl)%nat) in *.
    destruct (decide (0 < m)%nat) as [Hpos|Hzero]; [|lia].
    rewrite slice_in_range by lia. cbn [mbind result_bind].
    rewrite checkHash_no_digest; [done|]. lia.
  - rewrite (Verify_loops_panic fuel diskio pl pl_pos Hhandles Hok); [done | | done].
    lia.
Qed.

Lemma Verify_more_on_disk_than_digests_witness :
  Verify 33 {| dmetaInfo := mkMeta 16 (SHA1.Sum piece0) 32 [];
               files := [created (piece0 ++ piece1)] |}
  = Some (Panic SliceBoundsOutOfRange).
Proof.
  apply Verify_more_on_disk_than_digests.
  - reflexivity.
  - vm_compute. lia.
  - repeat constructor.
  - vm_compute. lia.
  - vm_compute. lia.
Defined.

(** ** Verify on what the torrent was made from *)

(** The answer of [Verify] when [Pieces] has a digest for each chunk. *)
Lemma Verify_checked (fuel : nat) (diskio : DiskIO) (pl : nat) :
  pl = Z.to_nat (PieceLength (Info (dmetaInfo diskio))) ->
  (0 < pl)%nat ->
  (Nat.max 1 (length (Files (Info (dmetaInfo diskio)))) <= length (files diskio))%nat ->
  Forall (fun file => faulty file = false) (read_files diskio) ->
  (20 * chunk_count (on_disk diskio) pl
   <= length (Pieces (Info (dmetaInfo diskio))))%nat ->
  (on_disk diskio < fuel)%nat ->
  Verify fuel diskio
  = Some (Ret (checked diskio pl (stream diskio) (chunk_count (on_disk diskio) pl))).
Proof.
  intros Hpl pl_pos Hhandles Hok Hpieces Hfuel.
  assert (20 * (on_disk diskio / pl)
          <= length (Pieces (Info (dmetaInfo diskio))))%nat as Hfull
    by (unfold chunk_count in Hpieces; lia).
  unfold Verify, make_slice. cbv zeta. rewrite decide_True by lia. rewrite <- Hpl.
  destruct (Verify_loops_run fuel diskio pl pl_pos Hhandles Hok Hfull Hfuel)
    as (buf & -> & Hbuf & Hpend).
  f_equal. by apply Verify_tail_runs.
Qed.

Lemma concat_lookup_20 (l : list (list byte)) :
  Forall (fun h => length h = 20%nat) l ->
  length (concat l) = (20 * length l)%nat
  /\ forall k h, l !! k = Some h -> take 20 (drop (20 * k) (concat l)) = h.
Proof.
  induction 1 as [|h0 l Hh0 _ [IHlen IH]]; [done|]. split.
  - cbn [concat length]. rewrite length_app. lia.
  - intros [|k] h Hk; cbn [concat].
    + injection Hk as <-. rewrite Nat.mul_0_r, drop_0.
      by rewrite take_app_length' by done.
    + replace (20 * S k)%nat with (length h0 + 20 * k)%nat by lia.
      rewrite drop_app_add. by apply IH.
Qed.

Lemma digests_of_20 (pl : nat) (s : list byte) :
  Forall (fun h => length h = 20%nat)
    ((fun k => SHA1.Sum (chunk pl s k)) <$> seq 0 (chunk_count (length s) pl)).
Proof.
  apply Forall_fmap, Forall_forall. intros k _. apply SHA1_Sum_length.
Qed.

Lemma digests_of_length (pl : nat) (s : list byte) :
  length (digests_of pl s) = (20 * chunk_count (length s) pl)%nat.
Proof.
  unfold digests_of.
  destruct (concat_lookup_20 _ (digests_of_20 pl s)) as [-> _].
  by rewrite length_fmap, length_seq.
Qed.

Lemma digests_of_recorded (m : MetaInfo) (pl : nat) (s : list byte) (k : nat) :
  Pieces (Info m) = digests_of pl s ->
  (k < chunk_count (length s) pl)%nat ->
  recorded_digest m k = SHA1.Sum (chunk pl s k).
Proof.
  intros Hpieces Hk. unfold recorded_digest. rewrite Hpieces. unfold digests_of.
  destruct (concat_lookup_20 _ (digests_of_20 pl s)) as [_ Hlookup].
  apply Hlookup. rewrite list_lookup_fmap, lookup_seq_lt by done. done.
Qed.

(** X17: let the piece length be positive and within the limit of the
    runtime, let every file have a handle and no device fail.  When [Pieces]
    is the digests of the chunks of piece length of what the files hold, one
    file after the other, [Verify] returns and answers true for every one of
    these chunks, a shorter last chunk included, in single file mode as with
    any number of files. *)
Theorem Verify_accepts_what_was_hashed (fuel : nat) (diskio : DiskIO) :
  let info_ := Info (dmetaInfo diskio) in
  let pl := Z.to_nat (PieceLength info_) in
  0 < PieceLength info_ <= maxAlloc ->
  (Nat.max 1 (length (Files info_)) <= length (files diskio))%nat ->
  Forall (fun file => faulty file = false) (read_files diskio) ->
  Pieces info_ = digests_of pl (stream diskio) ->
  (on_disk diskio < fuel)%nat ->
  Verify fuel diskio = Some (Ret (replicate (chunk_count (on_disk diskio) pl) true)).
Proof.
  intros info_ pl [Hpl _] Hhandles Hok Hpieces Hfuel.
  assert (0 < pl)%nat as pl_pos by (unfold pl; lia).
  rewrite (Verify_checked fuel diskio pl); [|done|done|done|done| |done].
  2:{ fold info_. rewrite Hpieces, digests_of_length. done. }
  do 2 f_equal. unfold checked, on_disk.
  generalize (eq_refl (chunk_count (length (stream diskio)) pl)).
  generalize (chunk_count (length (stream diskio)) pl) at 2 3 4 as n.
  intros n Hn.
  assert (forall k, (k < n)%nat -> chunk_ok diskio pl (stream diskio) k = true) as Hall.
  { intros k Hk. unfold chunk_ok. apply bool_decide_eq_true. symmetry.
    apply (digests_of_recorded _ pl); [done | lia]. }
  clear Hn. revert Hall. generalize (chunk_ok diskio pl (stream diskio)). intros f Hall.
  induction n as [|n IH]; [done|].
  rewrite seq_S, fmap_app, IH by (intros; apply Hall; lia).
  cbn [fmap list_fmap Nat.add]. rewrite Hall by lia.
  by rewrite <- replicate_S_end.
Qed.

Lemma Verify_accepts_what_was_hashed_witness :
  Verify 33 multi_full = Some (Ret [true; true]).
Proof.
  apply (Verify_accepts_what_was_hashed 33 multi_full).
  - vm_compute. split; [reflexivity | discriminate].
  - vm_compute. lia.
  - repeat constructor.
  - vm_compute. reflexivity.
  - vm_compute. lia.
Defined.

(** ** Verify and a file it cannot read *)

Lemma Verify_multi_app (fuel : nat) (diskio : DiskIO) (l1 l2 : list nat) :
  forall (buf : list byte) (m : nat) (pieceIndex : Z) (fin : list bool),
    Verify_multi fuel diskio (l1 ++ l2) buf m pieceIndex fin
    = match Verify_multi fuel diskio l1 buf m pieceIndex fin with
      | Some (Ret (buf', m', pieceIndex', fin')) =>
          Verify_multi fuel diskio l2 buf' m' pieceIndex' fin'
      | other => other
      end.
Proof.
  induction l1 as [|i l1 IH]; intros buf m pieceIndex fin; [done|].
  cbn [app Verify_multi]. destruct (files diskio !! i) as [file|]; [|done].
  destruct (Verify_multi_file fuel diskio file buf m pieceIndex 0 fin)
    as [[[[[buf' m'] pieceIndex'] fin']|?|?]|]; [apply IH | done | done | done].
Qed.

(** X18: [Verify] stops at the first file it cannot read.  When the files
    before file [j] are read without a failure and the chunks they fill have
    their digests, a missing handle for file [j] ends [Verify] in a panic for
    an index out of range, and a device failure on file [j] ends the process
    with the error of the read: in neither case is there an answer for the
    chunks checked before. *)
Theorem Verify_file_not_readable (fuel j : nat) (diskio : DiskIO) :
  let info_ := Info (dmetaInfo diskio) in
  let pl := Z.to_nat (PieceLength info_) in
  let before := stream_of (take j (files diskio)) in
  0 < PieceLength info_ ->
  (j < Nat.max 1 (length (Files info_)))%nat ->
  (j <= length (files diskio))%nat ->
  Forall (fun file => faulty file = false) (take j (files diskio)) ->
  (20 * (length before / pl) <= length (Pieces info_))%nat ->
  (length before < fuel)%nat ->
  (files diskio !! j = None -> Verify fuel diskio = Some (Panic IndexOutOfRange))
  /\ (forall file, files diskio !! j = Some file -> faulty file = true ->
      Verify fuel diskio = Some (Fatal EIO)).
Proof.
  intros info_ pl before Hpl Hj Hlen Hok Hpieces Hfuel.
  assert (0 < pl)%nat as pl_pos by (unfold pl; lia).
  subst info_. unfold Verify, make_slice. cbv zeta.
  rewrite decide_True by lia. fold pl.
  set (n := length (Files (Info (dmetaInfo diskio)))) in *.
  assert (length (replicate pl x00) = pl) as Hbuf by apply length_replicate.
  assert (pending pl [] (replicate pl x00)) as Hpend.
  { unfold pending. cbn [length]. by rewrite Nat.Div0.mod_0_l, drop_nil. }
  destruct fuel as [|fuel']; [lia|]. set (fuel := S fuel') in *.
  destruct (decide (0 < n)%nat) as [Hn|Hn].
  - replace n with (j + S (n - S j))%nat by lia.
    rewrite seq_app, Verify_multi_app. cbn [Nat.add].
    destruct (Verify_multi_runs diskio pl pl_pos fuel j 0%nat (replicate pl x00) [])
      as (buf & Hrun & Hbuf' & _);
      [done | done | lia | by rewrite drop_0 | by rewrite drop_0 | by rewrite drop_0 |].
    cbn [app length] in Hrun. rewrite drop_0 in Hrun.
    rewrite Nat.Div0.mod_0_l, Nat.Div0.div_0_l in Hrun. fold before in Hrun.
    change (20 * Z.of_nat 0) with 0 in Hrun.
    change (checked diskio pl [] 0) with (@nil bool) in Hrun.
    rewrite Hrun. cbn [seq Verify_multi]. split.
    + by intros ->.
    + intros file -> Hbad. unfold fuel. cbn [Verify_multi_file].
      pose proof (Nat.mod_upper_bound (length before) pl ltac:(lia)).
      rewrite decide_False by lia. unfold ReadAt.
      rewrite decide_False by lia. by rewrite Hbad.
  - assert (j = 0%nat) as -> by lia. unfold fuel. cbn [Verify_single]. split.
    + by intros ->.
    + intros file -> Hbad. unfold ReadAt.
      rewrite decide_False by lia. by rewrite Hbad.
Qed.

Lemma Verify_file_not_readable_witness :
  Verify 11 {| dmetaInfo := meta_multi; files := [created (take 10 piece0)] |}
  = Some (Panic IndexOutOfRange)
  /\ Verify 11 {| dmetaInfo := meta_multi;
                  files := [created (take 10 piece0);
                            {| bytes := drop 10 piece0 ++ piece1; pos := 0;
                               writable := true; faulty := true |}] |}
     = Some (Fatal EIO).
Proof.
  split.
  - refine (proj1 (Verify_file_not_readable 11 1 _ _ _ _ _ _ _) _);
      [reflexivity | vm_compute; lia | vm_compute; lia | repeat constructor
      | vm_compute; lia | vm_compute; lia | reflexivity].
  - refine (proj2 (Verify_file_not_readable 11 1 _ _ _ _ _ _ _) _ _ _);
      [reflexivity | vm_compute; lia | vm_compute; lia | repeat constructor
      | vm_compute; lia | vm_compute; lia | reflexivity | reflexivity].
Defined.

(** ** writePiece: when it returns *)

Lemma wrap_int_range (z : Z) : in_int (wrap_int z).
Proof.
  unfold in_int, int_min, int_max, wrap_int.
  pose proof (Z.mod_pos_bound (z + 2 ^ 63) (2 ^ 64) ltac:(lia)). lia.
Qed.

Lemma files_length_app (a b : list FileEntry.t) :
  files_length (a ++ b) = files_length a + files_length b.
Proof.
  unfold files_length. induction a as [|fe a IH]; cbn [app foldr]; [done|].
  rewrite IH. lia.
Qed.

Lemma files_length_take_S (fes : list FileEntry.t) (i : nat) (fe : FileEntry.t) :
  fes !! i = Some fe ->
  files_length (take (S i) fes) = files_length (take i fes) + FileEntry.Length fe.
Proof.
  intros Hfe. rewrite (take_S_r _ _ _ Hfe), files_length_app.
  change (files_length [fe]) with (FileEntry.Length fe + 0). lia.
Qed.

(** A walk that returns has put the last byte of the piece at the end of a
    file. *)
Lemma writePiece_loop_returns (fes : list FileEntry.t) (k : nat) :
  Forall (fun fe => 0 <= FileEntry.Length fe <= int_max) fes ->
  forall (i : nat) (diskio : DiskIO) (pdata : list byte) (offset : Z),
    Files (Info (dmetaInfo diskio)) = fes ->
    (i <= length fes < i + k)%nat ->
    0 <= offset <= int_max ->
    (writePiece_loop diskio (seq i k) pdata offset).2 = Ret () ->
    exists j, (i <= j < length fes)%nat
      /\ files_length (take i fes) + offset + Z.of_nat (length pdata)
         = files_length (take (S j) fes).
Proof.
  intros Hfes. induction k as [|k IH]; intros i diskio pdata offset Hmeta Hi Hoff Hret;
    [lia|].
  cbn [seq writePiece_loop] in Hret. rewrite Hmeta in Hret.
  destruct (fes !! i) as [fe|] eqn:Hfe; [|done].
  apply lookup_lt_Some in Hfe as Hlt.
  pose proof (proj1 (Forall_lookup _ _) Hfes i fe Hfe) as Hlen. cbn beta in Hlen.
  pose proof (files_length_take_S fes i fe Hfe) as Hsum.
  destruct (decide (offset > FileEntry.Length fe)) as [Hskip|Hhere].
  - rewrite wrap_int_id in Hret by (unfold in_int, int_min; lia).
    destruct (IH (S i) diskio pdata (offset - FileEntry.Length fe))
      as (j & Hj & Hend); [done | lia | lia | done |].
    exists j. split; lia.
  - rewrite wrap_int_id in Hret by (unfold in_int, int_min; lia).
    destruct (files diskio !! i) as [file|]; [|done].
    unfold slice in Hret. case_decide as Hmax; [|done].
    rewrite Z.sub_0_r in Hret. change (Z.to_nat 0) with 0%nat in Hret.
    rewrite drop_0 in Hret.
    destruct (WriteAt file _ offset) as [[file' n] [e|]]; [done|].
    rewrite length_drop in Hret.
    destruct (decide (length pdata - Z.to_nat (FileEntry.Length fe - offset) = 0)%nat)
      as [Hdone|Hmore].
    + exists i. split; lia.
    + destruct (IH (S i) (with_files diskio (<[i:=file']> (files diskio)))
                  (drop (Z.to_nat (FileEntry.Length fe - offset)) pdata) 0)
        as (j & Hj & Hend); [done | lia | unfold int_max; lia | done |].
      rewrite length_drop in Hend. exists j. split; lia.
Qed.

(** X19: [writePiece] returns only when the last byte of the piece is the
    last byte of one of the files: a piece that ends inside a file, or beyond
    the last file, is not written to the end, whatever the handles are.  The
    lengths of the files are not negative, and neither is the offset of the
    piece. *)
Theorem writePiece_returns_only_at_the_end_of_a_file (diskio : DiskIO) (piece : Piece) :
  let info_ := Info (dmetaInfo diskio) in
  let offset := wrap_int (index piece * PieceLength info_) in
  Forall (fun fe => 0 <= FileEntry.Length fe <= int_max) (Files info_) ->
  0 <= offset ->
  (writePiece diskio piece).2 = Ret () ->
  exists i, (i < length (Files info_))%nat
    /\ offset + Z.of_nat (length (data piece)) = files_length (take (S i) (Files info_)).
Proof.
  intros info_ offset Hfes Hoff Hret. unfold writePiece in Hret.
  pose proof (wrap_int_range (index piece * PieceLength info_)) as Hrange.
  destruct (writePiece_loop_returns (Files info_) (S (length (Files info_))) Hfes
              0%nat diskio (data piece) offset) as (i & Hi & Hend);
    [done | lia | unfold in_int in Hrange; fold offset in Hrange; lia | done |].
  exists i. split; [lia|]. rewrite take_0 in Hend. cbn in Hend. lia.
Qed.

Lemma writePiece_returns_only_at_the_end_of_a_file_witness :
  exists i, (i < length (Files (Info meta_multi)))%nat
    /\ wrap_int (1 * PieceLength (Info meta_multi)) + Z.of_nat (length piece1)
       = files_length (take (S i) (Files (Info meta_multi))).
Proof.
  apply (writePiece_returns_only_at_the_end_of_a_file multi_fresh
           {| index := 1; data := piece1; peerName := "peer" |}).
  - repeat constructor; vm_compute; discriminate.
  - vm_compute. discriminate.
  - vm_compute. reflexivity.
Defined.

(** ** writePiece: what it writes *)

Lemma concat_splice {A} (pre post : list (list A)) (x chunk : list A) (o : nat) :
  (o + length chunk <= length x)%nat ->
  concat (pre ++ (take o x ++ chunk ++ drop (o + length chunk) x) :: post)
  = take (length (concat pre) + o) (concat (pre ++ x :: post))
    ++ chunk
    ++ drop (length (concat pre) + o + length chunk) (concat (pre ++ x :: post)).
Proof.
  intros Ho. rewrite !concat_app. cbn [concat].
  rewrite take_app_add, <- Nat.add_assoc, drop_app_add.
  rewrite take_app_le, drop_app_le by lia.
  by rewrite <- !app_assoc.
Qed.

Lemma splice_splice {A} (C a b : list A) (p : nat) :
  (p + length a <= length C)%nat ->
  let C' := take p C ++ a ++ drop (p + length a) C in
  take (p + length a) C' ++ b ++ drop (p + length a + length b) C'
  = take p C ++ (a ++ b) ++ drop (p + length (a ++ b)) C.
Proof.
  intros Hp C'. unfold C'.
  assert (length (take p C ++ a) = p + length a)%nat as Hlen
    by (rewrite length_app, length_take; lia).
  rewrite (app_assoc (take p C) a).
  rewrite take_app_length' by done.
  replace (p + length a + length b)%nat with (length (take p C ++ a) + length b)%nat
    by lia.
  rewrite drop_app_add, drop_drop, length_app.
  by rewrite <- !app_assoc, Nat.add_assoc.
Qed.

Lemma files_length_nonneg (fes : list FileEntry.t) :
  Forall (fun fe => 0 <= FileEntry.Length fe) fes -> 0 <= files_length fes.
Proof.
  unfold files_length. induction 1 as [|fe fes Hfe _ IH]; cbn [foldr]; lia.
Qed.

Lemma files_length_take_mono (fes : list FileEntry.t) (i j : nat) :
  Forall (fun fe => 0 <= FileEntry.Length fe) fes ->
  (i <= j)%nat ->
  files_length (take i fes) <= files_length (take j fes).
Proof.
  intros Hfes Hij. replace j with (i + (j - i))%nat by lia.
  rewrite <- take_take_drop, files_length_app.
  assert (0 <= files_length (take (j - i) (drop i fes))) as Hpos
    by by apply files_length_nonneg, Forall_take, Forall_drop.
  lia.
Qed.

Lemma padded_length (fe : FileEntry.t) (f : File) :
  Z.of_nat (length (bytes f)) <= FileEntry.Length fe ->
  length (padded fe f) = Z.to_nat (FileEntry.Length fe).
Proof. intros Hf. unfold padded. rewrite length_app, length_replicate. lia. Qed.

Lemma laid_out_nonneg (diskio : DiskIO) :
  laid_out diskio ->
  Forall (fun fe => 0 <= FileEntry.Length fe) (Files (Info (dmetaInfo diskio))).
Proof.
  unfold laid_out. induction 1 as [|fe f fes fs (_ & _ & Hlen) _ IH]; constructor;
    [lia | done].
Qed.

Lemma content_length (fes : list FileEntry.t) (fs : list File) :
  Forall2 (fun fe f => writable f = true /\ faulty f = false
                       /\ Z.of_nat (length (bytes f)) <= FileEntry.Length fe) fes fs ->
  length (concat (zip_with padded fes fs)) = Z.to_nat (files_length fes)
  /\ 0 <= files_length fes.
Proof.
  unfold files_length.
  induction 1 as [|fe f fes fs (_ & _ & Hlen) _ [IH IHpos]]; [done|].
  cbn [zip_with concat foldr]. rewrite length_app, padded_length, IH by done. lia.
Qed.

(** A write that ends where the file ends, the file being as long as the
    metainfo says or shorter. *)
Lemma WriteAt_padded (fe : FileEntry.t) (f : File) (chunk : list byte) (offset : Z) :
  writable f = true -> faulty f = false ->
  Z.of_nat (length (bytes f)) <= FileEntry.Length fe ->
  0 <= offset ->
  offset + Z.of_nat (length chunk) = FileEntry.Length fe ->
  exists f',
    WriteAt f chunk offset = (f', length chunk, None)
    /\ writable f' = true /\ faulty f' = false
    /\ Z.of_nat (length (bytes f')) <= FileEntry.Length fe
    /\ padded fe f'
       = take (Z.to_nat offset) (padded fe f) ++ chunk
         ++ drop (Z.to_nat offset + length chunk) (padded fe f).
Proof.
  intros Hw Hok Hlen Hoff Hend. unfold WriteAt.
  rewrite decide_False by lia.
  assert (length (padded fe f) = Z.to_nat (FileEntry.Length fe)) as Hpad
    by by apply padded_length.
  destruct (decide (chunk = [])) as [->|Hchunk].
  - exists f. cbn [length app] in *. rewrite Nat.add_0_r, take_drop. done.
  - rewrite Hw, Hok. cbn [negb]. eexists. split; [reflexivity|].
    cbn [writable faulty bytes]. split; [done|]. split; [done|].
    set (o := Z.to_nat offset). set (old := bytes f) in *.
    assert (overwrite old o chunk
            = take o (old ++ replicate (o - length old) x00) ++ chunk) as Hbytes.
    { unfold overwrite. destruct chunk as [|b chunk]; [done|].
      rewrite (drop_ge old) by (unfold o; lia). by rewrite app_nil_r. }
    assert (take o (old ++ replicate (o - length old) x00)
            = take o (padded fe f)) as Htake.
    { unfold padded. fold old. destruct (decide (o <= length old)%nat) as [Hle|Hgt].
      - by rewrite !take_app_le by lia.
      - rewrite !take_app_ge by lia. rewrite !take_replicate. do 2 f_equal.
        unfold o. lia. }
    assert (length (overwrite old o chunk) = Z.to_nat (FileEntry.Length fe)) as Hnew.
    { rewrite Hbytes, length_app, length_take, length_app, length_replicate.
      unfold o. lia. }
    split; [lia|].
    unfold padded at 1. cbn [bytes]. rewrite Hnew, Nat.sub_diag. cbn [replicate].
    rewrite app_nil_r, Hbytes, Htake.
    rewrite (drop_ge (padded fe f)) by (unfold o; lia). by rewrite app_nil_r.
Qed.

(** The content after the handle of file [i] is replaced. *)
Lemma content_insert (diskio : DiskIO) (i : nat) (fe : FileEntry.t) (f f' : File)
    (chunk : list byte) (o : nat) :
  laid_out diskio ->
  Files (Info (dmetaInfo diskio)) !! i = Some fe ->
  files diskio !! i = Some f ->
  (o + length chunk <= Z.to_nat (FileEntry.Length fe))%nat ->
  padded fe f' = take o (padded fe f) ++ chunk ++ drop (o + length chunk) (padded fe f) ->
  let start := Z.to_nat (files_length (take i (Files (Info (dmetaInfo diskio))))) in
  content (with_files diskio (<[i:=f']> (files diskio)))
  = take (start + o) (content diskio) ++ chunk
    ++ drop (start + o + length chunk) (content diskio)
  /\ (start + Z.to_nat (FileEntry.Length fe) <= length (content diskio))%nat.
Proof.
  intros Hlay Hfe Hf Ho Hpad start. unfold content. cbn [dmetaInfo files with_files].
  set (fes := Files (Info (dmetaInfo diskio))) in *. set (fs := files diskio) in *.
  pose proof (Forall2_lookup_lr _ _ _ _ _ _ Hlay Hfe Hf) as (_ & _ & Hlen).
  assert (length (padded fe f) = Z.to_nat (FileEntry.Length fe)) as Hx
    by by apply padded_length.
  destruct (content_length (take i fes) (take i fs)) as [Hstart _];
    [by apply Forall2_take|]. fold start in Hstart.
  apply lookup_lt_Some in Hfe as Hi. apply lookup_lt_Some in Hf as Hi'.
  rewrite (insert_take_drop fs) by done.
  assert (zip_with padded fes (take i fs ++ f' :: drop (S i) fs)
          = zip_with padded (take i fes) (take i fs)
            ++ padded fe f' :: zip_with padded (drop (S i) fes) (drop (S i) fs)) as ->.
  { rewrite <- (take_drop_middle fes i fe Hfe) at 1.
    by rewrite zip_with_app by (rewrite !length_take; lia). }
  assert (zip_with padded fes fs
          = zip_with padded (take i fes) (take i fs)
            ++ padded fe f :: zip_with padded (drop (S i) fes) (drop (S i) fs)) as ->.
  { rewrite <- (take_drop_middle fes i fe Hfe) at 1.
    rewrite <- (take_drop_middle fs i f Hf) at 1.
    by rewrite zip_with_app by (rewrite !length_take; lia). }
  cbn [zip_with]. rewrite Hpad, <- Hstart. split.
  - apply concat_splice. lia.
  - rewrite concat_app, length_app. cbn [concat]. rewrite length_app. lia.
Qed.

(** A walk from file [i] with a piece that ends where file [j] ends. *)
Lemma writePiece_loop_writes (fes : list FileEntry.t) (k : nat) :
  Forall (fun fe => FileEntry.Length fe <= int_max) fes ->
  forall (i j : nat) (diskio : DiskIO) (pdata : list byte) (offset : Z),
    Files (Info (dmetaInfo diskio)) = fes ->
    laid_out diskio ->
    0 <= offset <= int_max ->
    (i <= j < i + k)%nat -> (j < length fes)%nat ->
    files_length (take i fes) + offset + Z.of_nat (length pdata)
    = files_length (take (S j) fes) ->
    let r := writePiece_loop diskio (seq i k) pdata offset in
    let at_ := Z.to_nat (files_length (take i fes) + offset) in
    r.2 = Ret ()
    /\ content r.1
       = take at_ (content diskio) ++ pdata
         ++ drop (at_ + length pdata) (content diskio).
Proof.
  intros Hmax. induction k as [|k IH];
    intros i j diskio pdata offset Hmeta Hlay Hoff Hj Hjn Hend; [lia|].
  pose proof (laid_out_nonneg diskio Hlay) as Hnonneg. rewrite Hmeta in Hnonneg.
  destruct (lookup_lt_is_Some_2 fes i) as [fe Hfe]; [lia|].
  destruct (lookup_lt_is_Some_2 (files diskio) i) as [f Hf].
  { rewrite <- (Forall2_length _ _ _ Hlay), Hmeta. lia. }
  pose proof Hlay as Hlay'. unfold laid_out in Hlay'. rewrite Hmeta in Hlay'.
  pose proof (Forall2_lookup_lr _ _ _ _ _ _ Hlay' Hfe Hf) as (Hw & Hok & Hlen).
  pose proof (proj1 (Forall_lookup _ _) Hmax i fe Hfe) as Hfemax. cbn beta in Hfemax.
  pose proof (files_length_take_S fes i fe Hfe) as Hsum.
  pose proof (files_length_take_mono fes (S i) (S j) Hnonneg ltac:(lia)) as Hmono.
  pose proof (files_length_nonneg (take i fes) ltac:(by apply Forall_take)) as Hpos.
  cbn zeta. cbn [seq writePiece_loop]. rewrite Hmeta, Hfe.
  destruct (decide (offset > FileEntry.Length fe)) as [Hskip|Hhere].
  - rewrite wrap_int_id by (unfold in_int, int_min; lia).
    assert (j <> i) as Hji by (intros ->; lia).
    specialize (IH (S i) j diskio pdata (offset - FileEntry.Length fe)
                  Hmeta Hlay ltac:(lia) ltac:(lia) Hjn ltac:(lia)).
    cbn zeta in IH.
    replace (files_length (take (S i) fes) + (offset - FileEntry.Length fe))
      with (files_length (take i fes) + offset) in IH by lia.
    exact IH.
  - rewrite wrap_int_id by (unfold in_int, int_min; lia).
    rewrite Hf, slice_in_range by lia.
    rewrite Z.sub_0_r. change (Z.to_nat 0) with 0%nat. rewrite drop_0.
    set (max := Z.to_nat (FileEntry.Length fe - offset)).
    set (chunk := take max pdata).
    assert (length chunk = max) as Hchunk by (unfold chunk; rewrite length_take; lia).
    destruct (WriteAt_padded fe f chunk offset) as (f' & -> & Hw' & Hok' & Hlen' & Hpad);
      [done | done | done | lia | lia |].
    set (diskio1 := with_files diskio (<[i:=f']> (files diskio))).
    destruct (content_insert diskio i fe f f' chunk (Z.to_nat offset))
      as [Hcontent Hlong]; [done | by rewrite Hmeta | done | lia | done |].
    fold diskio1 in Hcontent. rewrite Hmeta in Hcontent, Hlong.
    replace (Z.to_nat (files_length (take i fes)) + Z.to_nat offset)%nat
      with (Z.to_nat (files_length (take i fes) + offset)) in Hcontent by lia.
    set (at_ := Z.to_nat (files_length (take i fes) + offset)) in *.
    assert (laid_out diskio1) as Hlay1.
    { unfold laid_out, diskio1. cbn [dmetaInfo files with_files]. rewrite Hmeta.
      rewrite <- (list_insert_id fes i fe Hfe). by apply Forall2_insert. }
    rewrite length_drop.
    destruct (decide (length pdata - max = 0)%nat) as [Hdone|Hmore].
    + cbn [fst snd]. split; [done|].
      assert (chunk = pdata) as Hall by (apply take_ge; lia).
      rewrite Hall in Hcontent. exact Hcontent.
    + assert (j <> i) as Hji by (intros ->; lia).
      specialize (IH (S i) j diskio1 (drop max pdata) 0 Hmeta Hlay1
                    ltac:(unfold int_max; lia) ltac:(lia) Hjn
                    ltac:(rewrite length_drop; lia)).
      cbn zeta in IH.
      destruct IH as [Hret Hcontent1]. split; [done|].
      rewrite Hcontent1, Hcontent.
      replace (Z.to_nat (files_length (take (S i) fes) + 0))
        with (at_ + length chunk)%nat by lia.
      rewrite (splice_splice (content diskio) chunk (drop max pdata) at_) by lia.
      unfold chunk at 1 2. by rewrite take_drop.
Qed.

(** X20: a piece whose last byte is the last byte of one of the files is
    written, whatever the number of files it runs over.  With the files
    just created by this run, none longer than the metainfo says,
    [writePiece] returns, and the content of the files afterwards is the
    content before with the bytes from the offset of the piece replaced by
    the piece. *)
Theorem writePiece_at_the_end_of_a_file (diskio : DiskIO) (piece : Piece) (j : nat) :
  let info_ := Info (dmetaInfo diskio) in
  let offset := wrap_int (index piece * PieceLength info_) in
  Forall (fun fe => FileEntry.Length fe <= int_max) (Files info_) ->
  laid_out diskio ->
  0 <= offset ->
  (j < length (Files info_))%nat ->
  offset + Z.of_nat (length (data piece)) = files_length (take (S j) (Files info_)) ->
  (writePiece diskio piece).2 = Ret ()
  /\ content (writePiece diskio piece).1
     = take (Z.to_nat offset) (content diskio) ++ data piece
       ++ drop (Z.to_nat offset + length (data piece)) (content diskio).
Proof.
  intros info_ offset Hmax Hlay Hoff Hj Hend. unfold writePiece.
  pose proof (wrap_int_range (index piece * PieceLength info_)) as Hrange.
  unfold in_int in Hrange. fold offset in Hrange.
  pose proof (writePiece_loop_writes (Files info_) (S (length (Files info_))) Hmax
                0%nat j diskio (data piece) offset eq_refl Hlay ltac:(lia) ltac:(lia)
                Hj) as Hloop.
  rewrite take_0 in Hloop. change (files_length []) with 0 in Hloop.
  rewrite !Z.add_0_l in Hloop. exact (Hloop Hend).
Qed.

Lemma writePiece_at_the_end_of_a_file_witness :
  (writePiece multi_fresh {| index := 1; data := piece1; peerName := "peer" |}).2
  = Ret ()
  /\ content (writePiece multi_fresh
                {| index := 1; data := piece1; peerName := "peer" |}).1
     = replicate 16 x00 ++ piece1.
Proof.
  destruct (writePiece_at_the_end_of_a_file multi_fresh
              {| index := 1; data := piece1; peerName := "peer" |} 1)
    as [Hret Hcontent].
  - repeat constructor; vm_compute; discriminate.
  - repeat constructor; vm_compute; discriminate.
  - vm_compute. discriminate.
  - vm_compute. lia.
  - vm_compute. reflexivity.
  - split; [exact Hret|]. rewrite Hcontent. vm_compute. reflexivity.
Defined.

(** ** DiskIO.Init *)

Lemma with_files_append (diskio : DiskIO) (l1 l2 : list File) :
  with_files (with_files diskio l1) (files (with_files diskio l1) ++ l2)
  = with_files diskio (l1 ++ l2).
Proof. done. Qed.

Lemma openOrCreateFile_new (fs : os.FileSystem) (x : string) :
  os.nodes fs !! (os.cwd fs ++ [x]) = None ->
  openOrCreateFile fs [x]
  = inr ({| os.nodes := <[os.cwd fs ++ [x] := os.Reg []]> (os.nodes fs);
            os.cwd := os.cwd fs |}, created []).
Proof.
  intros Hnone.
  unfold openOrCreateFile, os.Stat, os.lookup, os.IsNotExist. cbn [os.walk].
  rewrite Hnone. rewrite bool_decide_eq_true_2 by done.
  unfold os.Create, os.parent. cbn [removelast os.walk]. by rewrite Hnone.
Qed.

Lemma openOrCreateFile_existing (fs : os.FileSystem) (x : string) (bs : list byte) :
  os.nodes fs !! (os.cwd fs ++ [x]) = Some (os.Reg bs) ->
  openOrCreateFile fs [x] = inr (fs, opened bs).
Proof.
  intros Hsome.
  unfold openOrCreateFile, os.Stat, os.Open, os.lookup, os.IsNotExist. cbn [os.walk].
  rewrite Hsome. done.
Qed.






(** ** Torrent.Run on a first run *)




(** ** A second run *)

(** With data to write and no writable handle, the walk of [writePiece]
    does not return. *)
Lemma writePiece_loop_read_only (k : nat) :
  forall (i : nat) (diskio : DiskIO) (pdata : list byte) (offset : Z),
    Forall (fun f => writable f = false) (files diskio) ->
    pdata <> [] ->
    (i <= length (Files (Info (dmetaInfo diskio))) < i + k)%nat ->
    terminates_process (writePiece_loop diskio (seq i k) pdata offset).2 = true.
Proof.
  induction k as [|k IH]; intros i diskio pdata offset Hro Hdata Hi; [lia|].
  cbn [seq writePiece_loop].
  destruct (Files (Info (dmetaInfo diskio)) !! i) as [fe|] eqn:Hfe; [|done].
  apply lookup_lt_Some in Hfe as Hlt.
  case_decide as Hskip; [apply IH; [done | done | lia]|].
  destruct (files diskio !! i) as [f|] eqn:Hf; [|done].
  pose proof (proj1 (Forall_lookup _ _) Hro i f Hf) as Hf_ro. cbn beta in Hf_ro.
  unfold slice. case_decide as Hmax; [|done].
  rewrite Z.sub_0_r. change (Z.to_nat 0) with 0%nat. rewrite drop_0.
  unfold WriteAt. case_decide as Hneg; [done|].
  destruct (decide (take _ pdata = [])) as [Hnil|Hsome].
  - rewrite list_insert_id by done.
    assert (Z.to_nat (wrap_int (FileEntry.Length fe - offset)) = 0%nat) as ->.
    { destruct pdata as [|b pdata]; [done|].
      destruct (Z.to_nat _); [done | discriminate Hnil]. }
    rewrite drop_0. rewrite decide_False by (by destruct pdata).
    apply IH; [done | done | cbn; lia].
  - by rewrite Hf_ro.
Qed.

(** X23: without a writable handle, [writePiece] of a piece that has data
    does not return: it panics or ends the process. *)
Theorem writePiece_read_only (diskio : DiskIO) (piece : Piece) :
  Forall (fun f => writable f = false) (files diskio) ->
  data piece <> [] ->
  terminates_process (writePiece diskio piece).2 = true.
Proof.
  intros Hro Hdata. unfold writePiece. apply writePiece_loop_read_only; [done | done | lia].
Qed.

Lemma writePiece_read_only_witness :
  terminates_process (writePiece multi_reopened the_piece0).2 = true.
Proof.
  apply writePiece_read_only.
  - repeat constructor.
  - vm_compute. discriminate.
Defined.

Lemma DiskIO_Init_files_existing (entries : list FileEntry.t) (bss : list (list byte))
    (fs : os.FileSystem) :
  Forall2 (fun file bs =>
             exists x, FileEntry.Path file = [x] /\ filepath.plain x
               /\ os.nodes fs !! (os.cwd fs ++ [x]) = Some (os.Reg bs)) entries bss ->
  forall diskio,
    DiskIO_Init_files fs diskio entries
    = inr (fs, with_files diskio (files diskio ++ (opened <$> bss))).
Proof.
  induction 1 as [|file bs entries bss (x & Hx & _ & Hnode) _ IH]; intros diskio.
  { cbn. rewrite app_nil_r. by destruct diskio. }
  cbn [DiskIO_Init_files]. unfold DiskIO_Init_file, filepath.Join.
  rewrite Hx. cbn [length]. rewrite decide_False by lia.
  rewrite (openOrCreateFile_existing fs x bs Hnode).
  rewrite IH, with_files_append, <- app_assoc. done.
Qed.

Lemma DiskIO_Init_existing (fs : os.FileSystem) (metaInfo : MetaInfo)
    (bss : list (list byte)) :
  let info_ := Info metaInfo in
  held fs metaInfo bss ->
  DiskIO_Init fs (NewDiskIO metaInfo)
  = inr ({| os.nodes := os.nodes fs;
            os.cwd := if decide (0 < length (Files info_))%nat
                      then os.cwd fs ++ [Name info_] else os.cwd fs |},
         {| dmetaInfo := metaInfo; files := opened <$> bss |}).
Proof.
  intros info_ Hheld. unfold held in Hheld. fold info_ in Hheld.
  unfold DiskIO_Init. cbn [NewDiskIO dmetaInfo]. fold info_.
  destruct (Files info_) as [|file entries] eqn:Hfiles.
  - destruct Hheld as (bs & -> & Hnode). cbn [length]. rewrite !decide_False by lia.
    rewrite (openOrCreateFile_existing fs _ bs Hnode). by destruct fs.
  - destruct Hheld as [Hdir Hall]. rewrite !decide_True by (cbn; lia).
    unfold os.Stat, os.lookup, os.IsNotExist. cbn [os.walk]. rewrite Hdir.
    rewrite bool_decide_eq_false_2 by done.
    unfold os.Chdir, os.lookup. cbn [os.walk]. rewrite Hdir.
    rewrite (DiskIO_Init_files_existing (file :: entries) bss); [done|].
    cbn [os.nodes os.cwd]. eapply Forall2_impl; [exact Hall|].
    intros fe bs (x & Hx & Hplain & Hnode). exists x. rewrite <- app_assoc. done.
Qed.

(** X24: a second run.  When the files of the torrent exist already,
    [DiskIO.Init] on the result of [NewDiskIO] changes nothing in the file
    system and returns with handles that hold the bytes of the files and are
    not writable: no piece that has data is written afterwards, [writePiece]
    panics or ends the process. *)
Theorem DiskIO_Init_second_run (fs : os.FileSystem) (metaInfo : MetaInfo)
    (bss : list (list byte)) :
  filepath.plain (Name (Info metaInfo)) ->
  held fs metaInfo bss ->
  exists fs' diskio',
    DiskIO_Init fs (NewDiskIO metaInfo) = inr (fs', diskio')
    /\ os.nodes fs' = os.nodes fs
    /\ bytes <$> files diskio' = bss
    /\ Forall (fun f => writable f = false) (files diskio')
    /\ (forall piece, data piece <> [] ->
                      terminates_process (writePiece diskio' piece).2 = true).
Proof.
  intros _ Hheld. rewrite (DiskIO_Init_existing fs metaInfo bss Hheld).
  eexists _, _. split; [reflexivity|]. cbn [os.nodes files].
  assert (Forall (fun f => writable f = false) (opened <$> bss)) as Hro.
  { apply Forall_fmap, Forall_forall. done. }
  split; [done|]. split; [|split; [done|]].
  - rewrite <- list_fmap_compose. apply list_fmap_id.
  - intros piece Hdata. unfold writePiece.
    apply writePiece_loop_read_only; [done | done | lia].
Qed.

Lemma DiskIO_Init_second_run_witness :
  exists fs' diskio',
    DiskIO_Init
      {| os.nodes := {[ ["t"%string] := os.Dir;
                        ["t"%string; "A"%string] := os.Reg (take 10 piece0);
                        ["t"%string; "B"%string] := os.Reg (drop 10 piece0 ++ piece1) ]};
         os.cwd := [] |} (NewDiskIO meta_multi) = inr (fs', diskio')
    /\ bytes <$> files diskio' = [take 10 piece0; drop 10 piece0 ++ piece1]
    /\ terminates_process (writePiece diskio' the_piece0).2 = true.
Proof.
  destruct (DiskIO_Init_second_run
              {| os.nodes := {[ ["t"%string] := os.Dir;
                                ["t"%string; "A"%string] := os.Reg (take 10 piece0);
                                ["t"%string; "B"%string]
                                  := os.Reg (drop 10 piece0 ++ piece1) ]};
                 os.cwd := [] |} meta_multi
              [take 10 piece0; drop 10 piece0 ++ piece1])
    as (fs' & diskio' & Hrun & _ & Hbytes & _ & Hwrite).
  - repeat split; vm_compute; congruence.
  - split; [vm_compute; reflexivity|].
    repeat constructor; eexists; (split; [reflexivity|]);
      (split; [repeat split; vm_compute; congruence|]); vm_compute; reflexivity.
  - exists fs', diskio'. split; [exact Hrun|]. split; [exact Hbytes|].
    apply Hwrite. vm_compute. discriminate.
Defined.

(** ** DiskIO.Init and paths of several names *)

Lemma DiskIO_Init_files_app (l1 l2 : list FileEntry.t) :
  forall (fs : os.FileSystem) (diskio : DiskIO),
    DiskIO_Init_files fs diskio (l1 ++ l2)
    = match DiskIO_Init_files fs diskio l1 with
      | inl e => inl e
      | inr (fs', diskio') => DiskIO_Init_files fs' diskio' l2
      end.
Proof.
  induction l1 as [|file l1 IH]; intros fs diskio; [done|].
  cbn [app DiskIO_Init_files].
  destruct (DiskIO_Init_file fs diskio file) as [e|[fs' diskio']]; [done | apply IH].
Qed.

(** Entries with a path of one name leave the directory flat. *)
Lemma DiskIO_Init_files_flat (entries : list FileEntry.t) :
  forall (fs : os.FileSystem) (diskio : DiskIO),
    Forall flat_entry entries ->
    flat_below (os.nodes fs) (os.cwd fs) ->
    exists fs' diskio',
      DiskIO_Init_files fs diskio entries = inr (fs', diskio')
      /\ os.cwd fs' = os.cwd fs
      /\ flat_below (os.nodes fs') (os.cwd fs').
Proof.
  induction entries as [|file entries IH]; intros fs diskio Hflat Hbelow.
  { by exists fs, diskio. }
  apply Forall_cons in Hflat as [(x & Hx & _) Hflat].
  cbn [DiskIO_Init_files]. unfold DiskIO_Init_file, filepath.Join.
  rewrite Hx. cbn [length]. rewrite decide_False by lia.
  destruct (os.nodes fs !! (os.cwd fs ++ [x])) as [n|] eqn:Hnode.
  - destruct (Hbelow x [] n Hnode) as [_ [bs ->]].
    rewrite (openOrCreateFile_existing fs x bs Hnode). by apply IH.
  - rewrite (openOrCreateFile_new fs x Hnode).
    edestruct IH as (fs' & diskio' & Hrun & Hcwd & Hbelow'); [done | |].
    2:{ exists fs', diskio'. split; [exact Hrun|]. split; [exact Hcwd | exact Hbelow']. }
    cbn [os.nodes os.cwd]. intros y p n.
    destruct (decide (os.cwd fs ++ y :: p = os.cwd fs ++ [x])) as [Heq|Hne].
    + rewrite Heq, lookup_insert_eq. apply app_inv_head in Heq.
      injection Heq as _ ->. intros [= <-]. eauto.
    + rewrite lookup_insert_ne by done. apply Hbelow.
Qed.

(** [MkdirAll] touches the directories on the way only. *)
Lemma MkdirAll_from_keeps (p : list string) :
  forall (m m' : gmap (list string) os.node) (at_ key : list string),
    os.MkdirAll_from m at_ p = inr m' ->
    (forall k, (0 < k)%nat -> key <> at_ ++ take k p) ->
    m' !! key = m !! key.
Proof.
  induction p as [|x p IH]; intros m m' at_ key Hrun Hkey.
  { cbn in Hrun. by injection Hrun as <-. }
  cbn [os.MkdirAll_from] in Hrun.
  assert (forall k, (0 < k)%nat -> key <> (at_ ++ [x]) ++ take k p) as Hkey'.
  { intros k Hk. rewrite <- app_assoc. apply (Hkey (S k)). lia. }
  pose proof (Hkey 1%nat ltac:(lia)) as Hfirst. cbn [take] in Hfirst.
  rewrite take_0 in Hfirst.
  destruct (m !! (at_ ++ [x])) as [[|bs]|] eqn:Hnode; [| done |].
  - by apply (IH m m' (at_ ++ [x])).
  - rewrite (IH _ m' (at_ ++ [x]) key Hrun Hkey'). by rewrite lookup_insert_ne.
Qed.

Lemma MkdirAll_from_error (p : list string) :
  forall (m : gmap (list string) os.node) (at_ : list string) (e : os.errno),
    os.MkdirAll_from m at_ p = inl e -> e = os.ENOTDIR.
Proof.
  induction p as [|x p IH]; intros m at_ e; cbn [os.MkdirAll_from]; [done|].
  destruct (m !! (at_ ++ [x])) as [[|bs]|]; [apply IH | by intros [= <-] | apply IH].
Qed.

Lemma MkdirAll_error (fs : os.FileSystem) (name : list string) (e : os.errno) :
  os.MkdirAll fs name = inl e -> e = os.ENOENT \/ e = os.ENOTDIR.
Proof.
  unfold os.MkdirAll. destruct name as [|x p]; [intros [= <-]; by left|].
  destruct (os.MkdirAll_from _ _ _) as [e'|m'] eqn:Hfrom; [|done].
  intros [= <-]. right. by apply MkdirAll_from_error in Hfrom.
Qed.

(** An entry whose path begins with two different names, in a flat
    directory. *)
Lemma DiskIO_Init_file_nested (fs : os.FileSystem) (diskio : DiskIO)
    (file : FileEntry.t) (a b : string) (rest : list string) :
  FileEntry.Path file = a :: b :: rest ->
  a <> b ->
  flat_below (os.nodes fs) (os.cwd fs) ->
  exists e, DiskIO_Init_file fs diskio file = inl e
            /\ (e = os.ENOENT \/ e = os.ENOTDIR).
Proof.
  intros Hpath Hab Hbelow. unfold DiskIO_Init_file, filepath.Join.
  rewrite Hpath. cbn [length drop]. rewrite decide_True by lia.
  assert (forall fs1,
             os.cwd fs1 = os.cwd fs ->
             os.nodes fs1 !! (os.cwd fs ++ [a]) = os.nodes fs !! (os.cwd fs ++ [a]) ->
             exists e, openOrCreateFile fs1 (a :: b :: rest) = inl e
                       /\ (e = os.ENOENT \/ e = os.ENOTDIR)) as Hopen.
  { intros fs1 Hcwd Hnode.
    unfold openOrCreateFile, os.Stat, os.Open, os.Create, os.parent, os.lookup,
      os.IsNotExist.
    cbn [os.walk removelast]. rewrite Hcwd, Hnode.
    destruct (os.nodes fs !! (os.cwd fs ++ [a])) as [n|] eqn:Ha.
    - destruct (Hbelow a [] n Ha) as [_ [bs ->]].
      rewrite bool_decide_eq_false_2 by done. eauto.
    - rewrite bool_decide_eq_true_2 by done. eauto. }
  destruct (os.IsNotExist (os.Stat fs (b :: rest))).
  - destruct (os.MkdirAll fs (b :: rest)) as [e|fs1] eqn:Hmk.
    + exists e. split; [done|]. by apply MkdirAll_error in Hmk.
    + unfold os.MkdirAll in Hmk.
      destruct (os.MkdirAll_from _ _ _) as [e|m'] eqn:Hfrom; [done|].
      injection Hmk as <-.
      destruct (Hopen {| os.nodes := m'; os.cwd := os.cwd fs |}) as (e & Hrun & He);
        [done | | rewrite Hrun; eauto].
      cbn [os.nodes]. apply (MkdirAll_from_keeps _ _ _ _ _ Hfrom).
      intros [|k] Hk; [lia|]. cbn [take]. intros Heq%app_inv_head. congruence.
  - destruct (Hopen fs) as (e & Hrun & He); [done | done | rewrite Hrun; eauto].
Qed.

(** X25: [DiskIO.Init] makes the directories of a path from its names but
    the first, and opens the file under all its names.  So a torrent with a
    file in a directory does not get past [Init]: when the directory of the
    torrent is new, or holds regular files only, and the first entry of
    [Files] with a path of several names has two different names at its
    head, [Init] ends the process, with the error that the path does not
    exist or that one of its names is not a directory. *)
Theorem DiskIO_Init_nested_path (fs : os.FileSystem) (metaInfo : MetaInfo)
    (before after : list FileEntry.t) (file : FileEntry.t) (a b : string)
    (rest : list string) :
  let info_ := Info metaInfo in
  let directory := os.cwd fs ++ [Name info_] in
  Files info_ = before ++ file :: after ->
  Forall flat_entry before ->
  FileEntry.Path file = a :: b :: rest ->
  Forall filepath.plain (Name info_ :: a :: b :: rest) ->
  a <> b ->
  os.nodes fs !! directory = None \/ os.nodes fs !! directory = Some os.Dir ->
  flat_below (os.nodes fs) directory ->
  exists e, DiskIO_Init fs (NewDiskIO metaInfo) = inl e
            /\ (e = os.ENOENT \/ e = os.ENOTDIR).
Proof.
  intros info_ directory Hfiles Hbefore Hpath _ Hab Hdir Hbelow.
  unfold DiskIO_Init. cbn [NewDiskIO dmetaInfo]. fold info_.
  rewrite decide_True by (rewrite Hfiles, length_app; cbn; lia).
  assert (exists m,
             (if os.IsNotExist (os.Stat fs [Name info_])
              then os.Mkdir fs [Name info_] else inr fs)
             = inr {| os.nodes := m; os.cwd := os.cwd fs |}
             /\ m !! directory = Some os.Dir
             /\ flat_below m directory) as (m & -> & Hm & Hflat).
  { unfold os.Stat, os.Mkdir, os.parent, os.lookup, os.IsNotExist.
    cbn [os.walk removelast]. fold directory.
    destruct Hdir as [Hnone|Hsome].
    - rewrite Hnone, bool_decide_eq_true_2 by done.
      eexists. split; [reflexivity|]. split; [by rewrite lookup_insert_eq|].
      intros x p n. rewrite lookup_insert_ne; [apply Hbelow|].
      intros Heq. apply (f_equal length) in Heq.
      rewrite length_app in Heq. cbn in Heq. lia.
    - rewrite Hsome, bool_decide_eq_false_2 by done.
      exists (os.nodes fs). by destruct fs. }
  unfold os.Chdir, os.lookup. cbn [os.walk os.nodes os.cwd]. fold directory.
  rewrite Hm. rewrite Hfiles, DiskIO_Init_files_app.
  set (fs1 := {| os.nodes := m; os.cwd := directory |}).
  destruct (DiskIO_Init_files_flat before fs1 (NewDiskIO metaInfo) Hbefore Hflat)
    as (fs2 & diskio2 & -> & Hcwd & Hflat2).
  cbn [DiskIO_Init_files].
  destruct (DiskIO_Init_file_nested fs2 diskio2 file a b rest Hpath Hab Hflat2)
    as (e & -> & He).
  eauto.
Qed.

Lemma DiskIO_Init_nested_path_witness :
  exists e,
    DiskIO_Init {| os.nodes := ∅; os.cwd := [] |}
      (NewDiskIO (mkMeta 16 two_hashes 0
                    [fileA; FileEntry.mk 22 "" ["sub"%string; "B"%string]]))
    = inl e
    /\ (e = os.ENOENT \/ e = os.ENOTDIR).
Proof.
  apply (DiskIO_Init_nested_path {| os.nodes := ∅; os.cwd := [] |}
           (mkMeta 16 two_hashes 0
              [fileA; FileEntry.mk 22 "" ["sub"%string; "B"%string]])
           [fileA] [] (FileEntry.mk 22 "" ["sub"%string; "B"%string])
           "sub"%string "B"%string []).
  - reflexivity.
  - repeat constructor; eexists; (split; [reflexivity|]);
      repeat split; vm_compute; congruence.
  - reflexivity.
  - repeat constructor; vm_compute; congruence.
  - vm_compute. congruence.
  - left. reflexivity.
  - intros x p n Hn. vm_compute in Hn. discriminate Hn.
Defined.

(** ** Writing and then reading *)

Lemma requestBlock_loop_no_response (block : BlockInfo) (idxs : list nat) :
  forall (diskio : DiskIO) (offset : Z) (rdata : list byte),
    (exists i, i ∈ idxs /\ Files (Info (dmetaInfo diskio)) !! i = None) ->
    terminates_process (requestBlock_loop diskio idxs block offset rdata).2 = true.
Proof.
  induction idxs as [|i idxs IH]; intros diskio offset rdata (k & Hk & Hnone).
  { by apply elem_of_nil in Hk. }
  cbn [requestBlock_loop].
  destruct (Files (Info (dmetaInfo diskio)) !! i) as [fe|] eqn:Hfe; [|done].
  assert (k ∈ idxs) as Hk'.
  { apply elem_of_cons in Hk as [->|]; [congruence | done]. }
  case_decide.
  - apply IH. eauto.
  - pose proof (readBlock_at_metaInfo diskio i block) as Hm.
    destruct (readBlock_at diskio i block) as [diskio' [bs|p|e]]; [|done|done].
    apply IH. cbn [fst] in Hm. rewrite Hm. eauto.
Qed.

(** X26: what [writePiece] has written, [requestBlock] does not serve.
    After a call of [writePiece] that returns, every block request, whatever
    its piece, offset and length, panics or ends the process: a write
    returns in multiple file mode only, where no request gets a response. *)
Theorem written_pieces_are_not_served (diskio : DiskIO) (piece : Piece)
    (block : BlockInfo) :
  (writePiece diskio piece).2 = Ret () ->
  terminates_process (requestBlock (writePiece diskio piece).1 block).2 = true.
Proof.
  intros Hret.
  destruct (Files (Info (dmetaInfo diskio))) as [|fe fes] eqn:Hfiles.
  { rewrite (writePiece_single_file_panics diskio piece Hfiles) in Hret. done. }
  destruct (writePiece_loop_only_grown
              (seq 0 (S (length (Files (Info (dmetaInfo diskio))))))
              diskio (data piece)
              (wrap_int (index piece * PieceLength (Info (dmetaInfo diskio)))))
    as [Hmeta _].
  fold (writePiece diskio piece) in Hmeta.
  set (diskio' := (writePiece diskio piece).1) in *.
  unfold requestBlock. rewrite Hmeta, Hfiles. cbn [length].
  rewrite decide_False by lia.
  assert (exists i, i ∈ seq 0 (S (S (length fes)))
                    /\ Files (Info (dmetaInfo diskio')) !! i = None) as Hend.
  { exists (S (length fes)). split; [apply elem_of_seq; lia|].
    rewrite Hmeta, Hfiles. apply lookup_ge_None. cbn. lia. }
  pose proof (requestBlock_loop_no_response block (seq 0 (S (S (length fes)))) diskio'
                (wrap_int (pieceIndex block * PieceLength (Info (dmetaInfo diskio)))) []
                Hend) as Hloop.
  destruct (requestBlock_loop _ _ _ _ _) as [diskio'' r]. cbn [snd] in *.
  by destruct r.
Qed.

Lemma written_pieces_are_not_served_witness :
  terminates_process
    (requestBlock
       (writePiece multi_fresh {| index := 1; data := piece1; peerName := "peer" |}).1
       {| pieceIndex := 1; begin := 0; length_ := 16 |}).2 = true.
Proof.
  apply written_pieces_are_not_served. vm_compute. reflexivity.
Defined.

(** ** DiskIO.Init whenever it returns *)

(** A name that does not exist in a directory that does is not in the map. *)
Lemma walk_not_exist (m : gmap (list string) os.node) (p : list string) :
  forall at_,
    p <> [] ->
    os.walk m at_ p = inl os.ENOENT ->
    os.walk m at_ (removelast p) = inr os.Dir ->
    m !! (at_ ++ p) = None.
Proof.
  induction p as [|x p IH]; intros at_ Hp Hwalk Hparent; [done|].
  destruct p as [|y p].
  - cbn [os.walk] in Hwalk. destruct (m !! (at_ ++ [x])) as [[|bs]|]; done.
  - cbn [os.walk removelast] in Hwalk, Hparent.
    destruct (m !! (at_ ++ [x])) as [[|bs]|]; [| by destruct (removelast (y :: p)) |done].
    specialize (IH (at_ ++ [x]) ltac:(done) Hwalk Hparent).
    by rewrite <- app_assoc in IH.
Qed.

Lemma openOrCreateFile_grows (fs fs' : os.FileSystem) (name : list string) (h : File) :
  openOrCreateFile fs name = inr (fs', h) ->
  os.nodes fs ⊆ os.nodes fs' /\ os.cwd fs' = os.cwd fs.
Proof.
  unfold openOrCreateFile, os.IsNotExist, os.Stat. case_bool_decide as Hstat.
  - destruct (os.lookup fs name) as [e|n] eqn:Hlookup; [|done].
    injection Hstat as ->.
    unfold os.Create, os.parent. unfold os.lookup in Hlookup.
    destruct name as [|x p]; [done|].
    destruct (os.walk (os.nodes fs) (os.cwd fs) (removelast (x :: p)))
      as [e|[|bs]] eqn:Hparent; [done| |done].
    rewrite (walk_not_exist _ (x :: p) _ ltac:(done) Hlookup Hparent).
    intros [= <- _]. cbn [os.nodes os.cwd]. split; [|done].
    apply insert_subseteq.
    by apply (walk_not_exist _ (x :: p) _ ltac:(done) Hlookup Hparent).
  - destruct (os.Open fs name) as [e|file]; [done|]. by intros [= <- _].
Qed.

Lemma MkdirAll_from_grows (p : list string) :
  forall (m m' : gmap (list string) os.node) (at_ : list string),
    os.MkdirAll_from m at_ p = inr m' -> m ⊆ m'.
Proof.
  induction p as [|x p IH]; intros m m' at_; cbn [os.MkdirAll_from].
  { by intros [= <-]. }
  destruct (m !! (at_ ++ [x])) as [[|bs]|] eqn:Hnode; [apply IH | done |].
  intros Hrun%IH. etrans; [|exact Hrun]. by apply insert_subseteq.
Qed.

Lemma DiskIO_Init_file_grows (fs fs' : os.FileSystem) (diskio diskio' : DiskIO)
    (file : FileEntry.t) :
  DiskIO_Init_file fs diskio file = inr (fs', diskio') ->
  os.nodes fs ⊆ os.nodes fs' /\ os.cwd fs' = os.cwd fs
  /\ dmetaInfo diskio' = dmetaInfo diskio
  /\ exists h, files diskio' = files diskio ++ [h].
Proof.
  unfold DiskIO_Init_file.
  set (made := if decide _ then _ else _).
  assert (forall fs1, made = inr fs1 ->
                      os.nodes fs ⊆ os.nodes fs1 /\ os.cwd fs1 = os.cwd fs) as Hmade.
  { unfold made. intros fs1. case_decide; [|by intros [= <-]].
    destruct (os.IsNotExist _); [|by intros [= <-]].
    unfold os.MkdirAll. destruct (filepath.Join _) as [|x p]; [done|].
    destruct (os.MkdirAll_from _ _ _) as [e|m'] eqn:Hfrom; [done|].
    intros [= <-]. split; [|done]. by apply MkdirAll_from_grows in Hfrom. }
  destruct made as [e|fs1]; [done|]. destruct (Hmade fs1 eq_refl) as [Hsub Hcwd].
  destruct (openOrCreateFile fs1 _) as [e|[fs2 h]] eqn:Hopen; [done|].
  apply openOrCreateFile_grows in Hopen as [Hsub2 Hcwd2].
  intros [= <- <-]. split; [by etrans|]. split; [congruence|]. split; [done|].
  by exists h.
Qed.

Lemma DiskIO_Init_files_grows (entries : list FileEntry.t) :
  forall (fs fs' : os.FileSystem) (diskio diskio' : DiskIO),
    DiskIO_Init_files fs diskio entries = inr (fs', diskio') ->
    os.nodes fs ⊆ os.nodes fs' /\ os.cwd fs' = os.cwd fs
    /\ dmetaInfo diskio' = dmetaInfo diskio
    /\ exists handles, files diskio' = files diskio ++ handles
                       /\ length handles = length entries.
Proof.
  induction entries as [|file entries IH]; intros fs fs' diskio diskio';
    cbn [DiskIO_Init_files].
  { intros [= <- <-]. repeat split; [done|]. exists []. by rewrite app_nil_r. }
  destruct (DiskIO_Init_file fs diskio file) as [e|[fs1 diskio1]] eqn:Hfile; [done|].
  apply DiskIO_Init_file_grows in Hfile as (Hsub & Hcwd & Hmeta & h & Hh).
  intros (Hsub2 & Hcwd2 & Hmeta2 & handles & Hhandles & Hlen)%IH.
  split; [by etrans|]. split; [congruence|]. split; [congruence|].
  exists (h :: handles). rewrite Hhandles, Hh, <- app_assoc. cbn [app length].
  split; [done | lia].
Qed.

(** X27: whenever [DiskIO.Init] returns, it has added to [diskio.files] one
    handle for each entry of [Files], or one handle in single file mode, and
    has neither removed nor replaced anything that the file system held:
    every directory is still there and every file still has its bytes. *)
Theorem DiskIO_Init_when_it_returns (fs fs' : os.FileSystem) (diskio diskio' : DiskIO) :
  DiskIO_Init fs diskio = inr (fs', diskio') ->
  dmetaInfo diskio' = dmetaInfo diskio
  /\ (exists handles,
        files diskio' = files diskio ++ handles
        /\ length handles = Nat.max 1 (length (Files (Info (dmetaInfo diskio)))))
  /\ (forall key n, os.nodes fs !! key = Some n -> os.nodes fs' !! key = Some n).
Proof.
  unfold DiskIO_Init. case_decide as Hmode.
  - set (made := if os.IsNotExist _ then _ else _).
    assert (forall fs1, made = inr fs1 -> os.nodes fs ⊆ os.nodes fs1) as Hmade.
    { unfold made. intros fs1. destruct (os.IsNotExist _); [|by intros [= <-]].
      unfold os.Mkdir. destruct (os.parent fs _); [done|].
      destruct (os.nodes fs !! _) eqn:Hnode; [done|].
      intros [= <-]. by apply insert_subseteq. }
    destruct made as [e|fs1]; [done|]. specialize (Hmade fs1 eq_refl).
    unfold os.Chdir. destruct (os.lookup fs1 _) as [e|[|bs]]; [done| |done].
    intros (Hsub & _ & Hmeta & handles & Hhandles & Hlen)%DiskIO_Init_files_grows.
    cbn [os.nodes] in Hsub. split; [done|]. split.
    + exists handles. split; [done | lia].
    + intros key n Hn. eapply lookup_weaken; [|exact Hsub].
      eapply lookup_weaken; [exact Hn | exact Hmade].
  - destruct (openOrCreateFile fs _) as [e|[fs1 h]] eqn:Hopen; [done|].
    apply openOrCreateFile_grows in Hopen as [Hsub _].
    intros [= <- <-]. split; [done|]. split.
    + exists [h]. split; [done | cbn; lia].
    + intros key n Hn. eapply lookup_weaken; [exact Hn | exact Hsub].
Qed.

Lemma DiskIO_Init_when_it_returns_witness :
  exists fs' diskio',
    DiskIO_Init
      {| os.nodes := {[ ["t"%string] := os.Dir;
                        ["t"%string; "A"%string] := os.Reg (take 10 piece0) ]};
         os.cwd := [] |} (NewDiskIO meta_multi) = inr (fs', diskio')
    /\ length (files diskio') = 2%nat
    /\ os.nodes fs' !! ["t"%string; "A"%string] = Some (os.Reg (take 10 piece0)).
Proof.
  destruct (DiskIO_Init _ _) as [e|[fs' diskio']] eqn:Hrun.
  { vm_compute in Hrun. discriminate Hrun. }
  exists fs', diskio'. split; [reflexivity|].
  destruct (DiskIO_Init_when_it_returns _ _ _ _ Hrun)
    as (_ & (handles & -> & Hlen) & Hkept).
  split; [exact Hlen|]. apply Hkept. vm_compute. reflexivity.
Defined.
